(** * wavemutator: waveform generation, mutation operators, playback swap

    A shallow embedding of [src/wavemutator.js].

    Numbers.  JavaScript numbers are modelled by rationals ([Q]), and
    numeric equality is [Qeq] ([==]); there is no infinity and no NaN, so
    the inputs are finite numbers and no operation overflows.  Where a
    number decides something discrete, the arithmetic of the platform is
    kept apart from the arithmetic of the rationals: the quotient
    [sampleRate / freq], whose integer part is the length of the generated
    buffer and which bounds the generator's loops, is the platform's
    binary64 division, a parameter [Math_div] of the development; halving it
    and multiplying it by 32, the only other operations applied to it before
    a comparison, are exact in binary64.  The values of the samples are
    computed with the arithmetic of the rationals: a statement about the
    value of a sample is a statement up to the rounding of binary64
    arithmetic and of the binary32 store of a [Float32Array].  No statement
    below draws a value from iterating an operator whose stores would let
    that rounding add up: what the cycles of the scheduler do is stated one
    cycle at a time; the one exception is [smoothify], which is also
    modelled with the value it stores rounded ([smoothify_with]).  Rounding to binary64 and to
    binary32 is defined ([rounded]) to run the model as the platform would
    at the inputs where the two arithmetics part.

    Platform functions that the source calls but does not define are
    parameters of the development: [Math.sin], [Math.random] and the
    division are section variables constrained only by what ECMAScript
    fixes of them; [createBuffer] with the conversion of its length to
    [unsigned long], typed-array element access, property lookup on an
    object literal, [setInterval] and [clearInterval] are modelled after
    the platform's definitions.

    Scope.  The generator, the mutation operators, the swap of the
    playing source, the mutation cycle with its timer and the [INIT]
    handler are modelled.  The canvas drawing is recorded as an event; the
    play/pause, volume and export handlers are left out. *)

From Stdlib Require Import QArith Qabs Qround Qminmax Qpower Lqa Lia ZArith List String.
From stdpp Require Import base list.

Local Open Scope Q_scope.

(** ** Numbers *)

(** [a < b] on numbers, as a test. *)
Definition ltb (a b : Q) : bool :=
  match a ?= b with Lt => true | _ => false end.

(** [a > b] on numbers, as a test. *)
Definition gtb (a b : Q) : bool := ltb b a.

(** The index [i] of a loop, and a length, as numbers. *)
Definition of_nat (i : nat) : Q := inject_Z (Z.of_nat i).

(** [Math.PI]: the binary64 value nearest to pi, as an exact fraction. *)
Definition Math_PI : Q := 884279719003555 # 281474976710656.

(** helper function to fit a 'value' in the interval ['min', 'max'] *)
Definition fitRange (value min max : Q) : Q :=
  let result := value in
  if ltb value min then min
  else if gtb value max then max
  else result.

(** The predicate of the data model: a sample lies in [-1, 1]. *)
Definition in_range (v : Q) : Prop := -1 <= v /\ v <= 1.

(** ** Typed arrays and loops *)

(** A [Float32Array] is a list of samples.  [buffer[i]] reads an element;
    every read of the source is in range (out of range JavaScript yields
    [undefined], which no operator below ever reads).  [buffer[i] = v] is
    stdpp's [<[i:=v]>], which like a typed array ignores an index past the
    end. *)
Definition get (buffer : list Q) (i : nat) : Q := default 0 (buffer !! i).

(** [for (i = 0; i < n; i++) body] over a state [S]. *)
Definition for_loop {S : Type} (n : nat) (body : nat -> S -> S) (s : S) : S :=
  fold_left (fun s i => body i s) (seq 0 n) s.

(** The number of iterations of [for (i = 0; i < bound; i++)] when
    [bound] is any number, not necessarily an integer: the naturals [i]
    with [i < bound]. *)
Definition trips (bound : Q) : nat := Z.to_nat (Qceiling bound).

(** The conversion of a number to the [unsigned long] length that
    [createBuffer] takes, as WebIDL defines it: the fraction is dropped,
    towards zero, and the integer is reduced modulo 2^32. *)
Definition truncate (x : Q) : Z :=
  if Qle_bool 0 x then Qfloor x else Qceiling x.

Definition ToLength (x : Q) : nat :=
  Z.to_nat (truncate x mod 4294967296).

(** 2^32: a length from 0 up to it, excluded, converts to itself with
    its fraction dropped. *)
Definition length_limit : Q := 4294967296.

(** ** Rounding

    A binary floating-point format of a given precision holds the numbers
    [m * 2^e] with [|m| < 2^precision]; the range of the exponent is not
    modelled.  [rounded precision x] is the number of the format nearest to
    [x], the one with an even [m] of two that are as near: what IEEE 754
    arithmetic makes of an exact result [x]. *)

(** The exponent [e] of a positive number: [2^e <= x < 2^(e+1)]. *)
Definition exponent (x : Q) : Z :=
  let e := (Z.log2 (Qnum x) - Z.log2 (Zpos (Qden x)))%Z in
  if Qle_bool (2 ^ e) x then e else (e - 1)%Z.

Definition nearest_even (x : Q) : Z :=
  let f := Qfloor x in
  match Qcompare (x - inject_Z f) (1 # 2) with
  | Lt => f
  | Gt => (f + 1)%Z
  | Eq => if Z.even f then f else (f + 1)%Z
  end.

Definition rounded (precision : Z) (x : Q) : Q :=
  match Qnum x with
  | Z0 => 0
  | Zpos _ =>
      let ulp := 2 ^ (exponent x - precision + 1) in
      Qred (inject_Z (nearest_even (x / ulp)) * ulp)
  | Zneg _ =>
      let ulp := 2 ^ (exponent (- x) - precision + 1) in
      Qred (- (inject_Z (nearest_even (- x / ulp)) * ulp))
  end.

(** A JavaScript number, and an element of a [Float32Array]. *)
Definition binary64 : Q -> Q := rounded 53.
Definition binary32 : Q -> Q := rounded 24.

(** The numbers of a format. *)
Definition representable (precision : Z) (x : Q) : Prop :=
  exists m e : Z, (Z.abs m < 2 ^ precision)%Z /\ x == inject_Z m * 2 ^ e.

(** What a [Float32Array] can hold: the numbers that the store leaves
    as they are. *)
Definition is_binary32 (x : Q) : Prop := binary32 x == x.

(** ** Instances of the platform's numeric functions

    Any [Math.sin] with values in [-1, 1] and [sin 0 = 0], any
    [Math.random] with values in [0, 1), and any division that makes a
    quotient of 1 or more of a dividend not below its positive divisor, and
    a quotient in [0, 1) of a positive dividend below its divisor, fit the
    development.  Binary64 division has both properties on binary64
    operands: rounding is monotone and 1 is a binary64 number, and a
    dividend below its divisor gives at most [1 - 2^-53], also a binary64
    number.  The instances below are used to run the model on concrete
    inputs: a clamped cubic, a congruential sequence, and two divisions, the
    division of the rationals and the binary64 division. *)
Definition sine_reference (x : Q) : Q := fitRange (x - x * x * x / 6) (-1) 1.

Definition random_reference (k : nat) : Q :=
  Z.of_nat ((k * 37 + 11) mod 100) # 100.

Definition division_reference (a b : Q) : Q := a / b.

Definition division_binary64 (a b : Q) : Q := binary64 (a / b).

(** Two binary64 frequencies at which the two divisions part: at a
    sample rate of 44100 the first, 1336.3636363636365, has a quotient just
    below 33 that rounds to 33, and the second, 319.5652173913043, a
    quotient just above 138 that rounds to 138. *)
Definition freq_rounded_up : Q := 2938694714237673 # 2199023255552.
Definition freq_rounded_down : Q := 5621850757672069 # 17592186044416.

(** [buffer[i] = (prev + value + next) / 3] as the platform computes and
    stores it: two binary64 additions, a binary64 division, and the
    rounding to binary32 of the store. *)
Definition mean3_stored (prev value next : Q) : Q :=
  binary32 (binary64 (binary64 (binary64 (prev + value) + next) / 3)).

(** ** Values, objects and the page state *)

(** The JavaScript values that reach the [INIT] handler's tests. *)
Inductive Value :=
  | VUndefined
  | VString (s : string)
  | VConstructor (rate : Q)   (* an AudioContext constructor *)
  | VContext (rate : Q).      (* an AudioContext, with its sampleRate *)

Definition truthy (v : Value) : bool :=
  match v with
  | VUndefined => false
  | VString s => negb (String.eqb s "")
  | _ => true
  end.

(** [a || b] *)
Definition js_or (a b : Value) : Value := if truthy a then a else b.

(** [a === b]: values of different types are never strictly equal. *)
Definition strict_equal (a b : Value) : bool :=
  match a, b with
  | VUndefined, VUndefined => true
  | VString s, VString t => String.eqb s t
  | VConstructor r, VConstructor r' => Qeq_bool r r'
  | VContext r, VContext r' => Qeq_bool r r'
  | _, _ => false
  end.

Inductive Error := TypeError | NotSupportedError.

(** An [AudioBuffer] with its single channel. *)
Record AudioBuffer := { sampleRate : Q; channel : list Q }.

Inductive PlayState := Unscheduled | Playing | Finished.

(** An [AudioBufferSourceNode]. *)
Record SourceNode :=
  { loop : bool; connected : bool; buffer : option nat; playstate : PlayState }.

Record GainNode := { gain : Q; to_destination : bool }.

Inductive Callback := CallMutateBuffer.

(** A timer armed by [setInterval]. *)
Record Timer :=
  { timer_id : nat; interval : nat; due : nat; callback : Callback }.

(** What the page does to its collaborators, in order.  [EvMutate] is a
    ghost event marking the entry of [mutateBuffer]. *)
Inductive Event :=
  | EvCreateBuffer (r n : nat)
  | EvCreateSource (h : nat)
  | EvLoop (h : nat)
  | EvConnect (h : nat)
  | EvSetBuffer (h r : nat)
  | EvStart (h : nat)
  | EvStop (h : nat)
  | EvCreateGain
  | EvSuspend
  | EvDraw (samples : list Q)
  | EvText (selector text : string)
  | EvMutate.

(** The values of the page's input elements. *)
Record Inputs :=
  { freq : Q; wavetype : string; mutation : string;
    mutation_amount : Q; volume_input : Q }.

(** The page: its inputs, the [window] properties, the five variables of
    the source, the objects they refer to (buffers and source nodes by
    address), the timers of [window], the number of [Math.random] calls
    so far, and the trace. *)
Record State :=
  { inputs : Inputs;
    window_AudioContext : Value;
    window_webkitAudioContext : Value;
    webaudio : Value;
    audio : option nat;
    volume : option GainNode;
    mutating : option nat;
    heap : list AudioBuffer;
    nodes : list SourceNode;
    timers : list Timer;
    timer_count : nat;
    clock : nat;
    draws : nat;
    log : list Event }.

Definition set_webaudio (v : Value) (st : State) : State :=
  {| inputs := inputs st; window_AudioContext := window_AudioContext st;
     window_webkitAudioContext := window_webkitAudioContext st;
     webaudio := v; audio := audio st; volume := volume st;
     mutating := mutating st; heap := heap st; nodes := nodes st;
     timers := timers st; timer_count := timer_count st; clock := clock st;
     draws := draws st; log := log st |}.

Definition set_audio (v : option nat) (st : State) : State :=
  {| inputs := inputs st; window_AudioContext := window_AudioContext st;
     window_webkitAudioContext := window_webkitAudioContext st;
     webaudio := webaudio st; audio := v; volume := volume st;
     mutating := mutating st; heap := heap st; nodes := nodes st;
     timers := timers st; timer_count := timer_count st; clock := clock st;
     draws := draws st; log := log st |}.

Definition set_volume (v : option GainNode) (st : State) : State :=
  {| inputs := inputs st; window_AudioContext := window_AudioContext st;
     window_webkitAudioContext := window_webkitAudioContext st;
     webaudio := webaudio st; audio := audio st; volume := v;
     mutating := mutating st; heap := heap st; nodes := nodes st;
     timers := timers st; timer_count := timer_count st; clock := clock st;
     draws := draws st; log := log st |}.

Definition set_mutating (v : option nat) (st : State) : State :=
  {| inputs := inputs st; window_AudioContext := window_AudioContext st;
     window_webkitAudioContext := window_webkitAudioContext st;
     webaudio := webaudio st; audio := audio st; volume := volume st;
     mutating := v; heap := heap st; nodes := nodes st;
     timers := timers st; timer_count := timer_count st; clock := clock st;
     draws := draws st; log := log st |}.

Definition set_heap (v : list AudioBuffer) (st : State) : State :=
  {| inputs := inputs st; window_AudioContext := window_AudioContext st;
     window_webkitAudioContext := window_webkitAudioContext st;
     webaudio := webaudio st; audio := audio st; volume := volume st;
     mutating := mutating st; heap := v; nodes := nodes st;
     timers := timers st; timer_count := timer_count st; clock := clock st;
     draws := draws st; log := log st |}.

Definition set_nodes (v : list SourceNode) (st : State) : State :=
  {| inputs := inputs st; window_AudioContext := window_AudioContext st;
     window_webkitAudioContext := window_webkitAudioContext st;
     webaudio := webaudio st; audio := audio st; volume := volume st;
     mutating := mutating st; heap := heap st; nodes := v;
     timers := timers st; timer_count := timer_count st; clock := clock st;
     draws := draws st; log := log st |}.

Definition set_timers (v : list Timer) (c : nat) (st : State) : State :=
  {| inputs := inputs st; window_AudioContext := window_AudioContext st;
     window_webkitAudioContext := window_webkitAudioContext st;
     webaudio := webaudio st; audio := audio st; volume := volume st;
     mutating := mutating st; heap := heap st; nodes := nodes st;
     timers := v; timer_count := c; clock := clock st;
     draws := draws st; log := log st |}.

Definition set_clock (v : nat) (st : State) : State :=
  {| inputs := inputs st; window_AudioContext := window_AudioContext st;
     window_webkitAudioContext := window_webkitAudioContext st;
     webaudio := webaudio st; audio := audio st; volume := volume st;
     mutating := mutating st; heap := heap st; nodes := nodes st;
     timers := timers st; timer_count := timer_count st; clock := v;
     draws := draws st; log := log st |}.

Definition set_draws (v : nat) (st : State) : State :=
  {| inputs := inputs st; window_AudioContext := window_AudioContext st;
     window_webkitAudioContext := window_webkitAudioContext st;
     webaudio := webaudio st; audio := audio st; volume := volume st;
     mutating := mutating st; heap := heap st; nodes := nodes st;
     timers := timers st; timer_count := timer_count st; clock := clock st;
     draws := v; log := log st |}.

Definition set_log (v : list Event) (st : State) : State :=
  {| inputs := inputs st; window_AudioContext := window_AudioContext st;
     window_webkitAudioContext := window_webkitAudioContext st;
     webaudio := webaudio st; audio := audio st; volume := volume st;
     mutating := mutating st; heap := heap st; nodes := nodes st;
     timers := timers st; timer_count := timer_count st; clock := clock st;
     draws := draws st; log := v |}.

(** ** State and exceptions *)

(** A computation ends normally with a value or throws; in both cases it
    leaves a state. *)
Inductive Result (A : Type) :=
  | Ok (a : A) (st : State)
  | Throw (e : Error) (st : State).
Arguments Ok {A} a st.
Arguments Throw {A} e st.

Definition M (A : Type) : Type := State -> Result A.

Definition ret {A} (a : A) : M A := fun st => Ok a st.

Definition bind {A B} (m : M A) (k : A -> M B) : M B :=
  fun st => match m st with
            | Ok a st' => k a st'
            | Throw e st' => Throw e st'
            end.

Definition throw {A} (e : Error) : M A := fun st => Throw e st.

Definition gets {A} (f : State -> A) : M A := fun st => Ok (f st) st.

Definition modify (f : State -> State) : M unit := fun st => Ok tt (f st).

#[global] Instance M_ret : MRet M := @ret.
#[global] Instance M_bind : MBind M := fun A B k m => bind m k.

(** The state a computation leaves. *)
Definition final {A} (r : Result A) : State :=
  match r with Ok _ st => st | Throw _ st => st end.

Definition emit (e : Event) : M unit :=
  modify (fun st => set_log (log st ++ [e]) st).

(** A value that must be defined: reading a property of [undefined]
    throws a [TypeError]. *)
Definition defined {A} (o : option A) : M A :=
  match o with Some a => ret a | None => throw TypeError end.

(** ** The Web Audio objects the page uses *)

(** [webaudio.sampleRate] *)
Definition context_sampleRate : M Q :=
  w ← gets webaudio;
  match w with VContext rate => mret rate | _ => throw TypeError end.

(** [webaudio.createBuffer(1, length, sampleRate)]: a new buffer of
    zeros at a fresh address; a length of zero frames is refused with a
    [NotSupportedError]. *)
Definition createBuffer (length rate : Q) : M nat :=
  let n := ToLength length in
  if (n =? 0)%nat then throw NotSupportedError
  else
    r ← gets (fun st => List.length (heap st));
    modify (fun st =>
      set_heap (heap st ++ [ {| sampleRate := rate; channel := replicate n 0 |} ]) st);;
    emit (EvCreateBuffer r n);;
    mret r.

(** [buffer.getChannelData(0)]: the samples held by the buffer at
    address [r].  The array the source gets is the buffer's own, not a
    copy: writes to it go to address [r] through [setChannelData]. *)
Definition getChannelData (r : nat) : M (list Q) :=
  h ← gets heap;
  b ← defined (h !! r);
  mret (channel b).

Definition setChannelData (r : nat) (data : list Q) : M unit :=
  modify (fun st =>
    set_heap (alter (fun b => {| sampleRate := sampleRate b; channel := data |})
                    r (heap st)) st).

(** [destination.copyToChannel(source, 0, 0)] *)
Definition copyToChannel (source destination : list Q) : list Q :=
  take (List.length destination) source ++ drop (List.length source) destination.

Definition update_node (h : nat) (f : SourceNode -> SourceNode) : M unit :=
  modify (fun st => set_nodes (alter f h (nodes st)) st).

(** [webaudio.createBufferSource()] *)
Definition createBufferSource : M nat :=
  h ← gets (fun st => List.length (nodes st));
  modify (fun st =>
    set_nodes (nodes st ++ [ {| loop := false; connected := false;
                                buffer := None; playstate := Unscheduled |} ]) st);;
  emit (EvCreateSource h);;
  mret h.

Definition set_loop (h : nat) (b : bool) : M unit :=
  update_node h (fun n => {| loop := b; connected := connected n;
                             buffer := buffer n; playstate := playstate n |});;
  emit (EvLoop h).

(** [node.connect(volume)]; the gain node must exist. *)
Definition connect_volume (h : nat) : M unit :=
  v ← gets volume;
  _ ← defined v;
  update_node h (fun n => {| loop := loop n; connected := true;
                             buffer := buffer n; playstate := playstate n |});;
  emit (EvConnect h).

Definition set_buffer (h r : nat) : M unit :=
  update_node h (fun n => {| loop := loop n; connected := connected n;
                             buffer := Some r; playstate := playstate n |});;
  emit (EvSetBuffer h r).

(** [node.start(0)] *)
Definition start (h : nat) : M unit :=
  update_node h (fun n => {| loop := loop n; connected := connected n;
                             buffer := buffer n; playstate := Playing |});;
  emit (EvStart h).

(** [node.stop()] *)
Definition stop (h : nat) : M unit :=
  update_node h (fun n => {| loop := loop n; connected := connected n;
                             buffer := buffer n; playstate := Finished |});;
  emit (EvStop h).

(** The handles that sound after a trace: started and not stopped. *)
Fixpoint sounding (trace : list Event) (active : list nat) : list nat :=
  match trace with
  | [] => active
  | EvStart h :: rest => sounding rest (active ++ [h])
  | EvStop h :: rest => sounding rest (filter (fun k => k ≠ h) active)
  | _ :: rest => sounding rest active
  end.

(** ** Timers of [window] *)

(** [window.setInterval(callback, ms)]: the identifier is positive. *)
Definition setInterval (f : Callback) (ms : nat) : M nat :=
  id ← gets (fun st => S (timer_count st));
  modify (fun st =>
    set_timers (timers st ++ [ {| timer_id := id; interval := ms;
                                  due := (clock st + ms)%nat; callback := f |} ])
               id st);;
  mret id.

(** [clearInterval(id)] *)
Definition clearInterval (id : nat) : M unit :=
  modify (fun st =>
    set_timers (filter (fun t => timer_id t ≠ id) (timers st)) (timer_count st) st).

(** [if (mutating)]: [undefined] and [0] are falsy. *)
Definition truthy_handle (m : option nat) : bool :=
  match m with Some (S _) => true | _ => false end.

(** ** The program *)

Inductive MutationKind :=
  | Sinify | Squarify | Peakify | Nullify | Offsettify
  | Smoothify | Noisify | Randomizify.

(** The property names of the [mutations] object. *)
Definition mutation_named (name : string) : option MutationKind :=
  if String.eqb name "sinify" then Some Sinify
  else if String.eqb name "squarify" then Some Squarify
  else if String.eqb name "peakify" then Some Peakify
  else if String.eqb name "nullify" then Some Nullify
  else if String.eqb name "offsettify" then Some Offsettify
  else if String.eqb name "smoothify" then Some Smoothify
  else if String.eqb name "noisify" then Some Noisify
  else if String.eqb name "randomizify" then Some Randomizify
  else None.

(** What [mutations[name]] evaluates to.  [mutations] is an object
    literal: besides its own eight properties it has those of
    [Object.prototype].  Called as [mutations[name](data, amount)], with
    [data] a typed array and [amount] a number, the inherited functions
    listed here return without writing to [data]; every other name gives
    [undefined], an object ([__proto__]) or a function that throws a
    [TypeError] for these arguments ([__defineGetter__],
    [__defineSetter__]). *)
Inductive Member :=
  | Operator (kind : MutationKind)
  | Inherited
  | NotCallable.

Definition Object_prototype_functions : list string :=
  ["constructor"%string; "hasOwnProperty"%string; "isPrototypeOf"%string;
   "propertyIsEnumerable"%string; "toLocaleString"%string;
   "toString"%string; "valueOf"%string;
   "__lookupGetter__"%string; "__lookupSetter__"%string].

Definition mutations_member (name : string) : Member :=
  match mutation_named name with
  | Some kind => Operator kind
  | None =>
      if existsb (String.eqb name) Object_prototype_functions
      then Inherited else NotCallable
  end.

Section Program.

(** [Math.sin], [Math.random] as the sequence of its results, and the
    division [a / b] of two numbers as binary64 arithmetic computes it. *)
Variable Math_sin : Q -> Q.
Variable Math_random : nat -> Q.
Variable Math_div : Q -> Q -> Q.

(** *** Mutation operators

    Each operator takes the array's content and returns the content it
    leaves in the array; the operators that call [Math.random] also
    take and return the number of calls made so far.  The length of a
    typed array is fixed, so [buffer.length] is read once. *)

(* will result in a sine wave *)
Definition sinify (buffer : list Q) (amount : Q) : list Q :=
  let period := 2 * Math_PI / of_nat (length buffer) in
  for_loop (length buffer) (fun i buffer =>
    let value := get buffer i in
    let value := value + Math_sin (period * of_nat i) * (1 # 100) * amount in
    <[i := fitRange value (-1) 1]> buffer) buffer.

(* will result in a square wave *)
Definition squarify (buffer : list Q) (amount : Q) : list Q :=
  for_loop (length buffer) (fun i buffer =>
    let value := get buffer i in
    let value :=
      if ltb (of_nat i) (of_nat (length buffer) / 2)
      then value + (1 # 100) * amount
      else value - (1 # 100) * amount in
    <[i := fitRange value (-1) 1]> buffer) buffer.

(* will result in a single impulse *)
Definition peakify (buffer : list Q) (amount : Q) : list Q :=
  for_loop (length buffer) (fun i buffer =>
    let value := get buffer i - of_nat i * (1 # 10000) * amount in
    <[i := fitRange value (-1) 1]> buffer) buffer.

(* will result in a nothing wave *)
Definition nullify (buffer : list Q) (amount : Q) : list Q :=
  for_loop (length buffer) (fun i buffer =>
    let value := get buffer i in
    let value :=
      if gtb value 0 then value - (1 # 100) * amount
      else if ltb value 0 then value + (1 # 100) * amount
      else value in
    <[i := fitRange value (-1) 1]> buffer) buffer.

(* will shift the wave up/down *)
Definition offsettify (buffer : list Q) (amount : Q) : list Q :=
  for_loop (length buffer) (fun i buffer =>
    (* var value = buffer[i] += 0.01 * amount *)
    let value := get buffer i + (1 # 100) * amount in
    let buffer := <[i := value]> buffer in
    <[i := fitRange value (-1) 1]> buffer) buffer.

(* will result in a smoothed wave: the body of its loop, then the
   loop.  The body reads the array as the earlier iterations left it. *)
Definition smoothify_body (i : nat) (buffer : list Q) : list Q :=
  let value := get buffer i in
  let prev := get buffer ((length buffer + i - 1) mod length buffer) in
  let next := get buffer ((i + 1) mod length buffer) in
  <[i := (prev + value + next) / 3]> buffer.

Definition smoothify (buffer : list Q) : list Q :=
  for_loop (length buffer) smoothify_body buffer.

(* the same loop for a platform that stores [mean3 prev value next]
   where the rationals have [(prev + value + next) / 3]: the sum and the
   quotient rounded to binary64, the store to binary32 *)
Definition smoothify_body_with (mean3 : Q -> Q -> Q -> Q)
    (i : nat) (buffer : list Q) : list Q :=
  let value := get buffer i in
  let prev := get buffer ((length buffer + i - 1) mod length buffer) in
  let next := get buffer ((i + 1) mod length buffer) in
  <[i := mean3 prev value next]> buffer.

Definition smoothify_with (mean3 : Q -> Q -> Q -> Q) (buffer : list Q) : list Q :=
  for_loop (length buffer) (smoothify_body_with mean3) buffer.

(* will add ugly overtones wave *)
Definition noisify (buffer : list Q) (amount : Q) (calls : nat) : list Q * nat :=
  for_loop (length buffer) (fun i '(buffer, calls) =>
    let value := get buffer i + (Math_random calls * (2 # 100) * amount)
                 - (1 # 100) * amount in
    (<[i := fitRange value (-1) 1]> buffer, S calls)) (buffer, calls).

(* will result in white noise *)
Definition randomizify (buffer : list Q) (calls : nat) : list Q * nat :=
  for_loop (length buffer) (fun i '(buffer, calls) =>
    (<[i := Math_random calls * 2 - 1]> buffer, S calls)) (buffer, calls).

(** namespace for all mutation functions, which modify the buffer:
    [mutations[name](buffer, amount)]. *)
Definition mutations (kind : MutationKind)
    (buffer : list Q) (amount : Q) (calls : nat) : list Q * nat :=
  match kind with
  | Sinify => (sinify buffer amount, calls)
  | Squarify => (squarify buffer amount, calls)
  | Peakify => (peakify buffer amount, calls)
  | Nullify => (nullify buffer amount, calls)
  | Offsettify => (offsettify buffer amount, calls)
  | Smoothify => (smoothify buffer, calls)
  | Noisify => noisify buffer amount calls
  | Randomizify => randomizify buffer calls
  end.

(** [mutations[name]] as what a call of it makes of the array and of
    the number of draws, when it can be called. *)
Definition mutations_function (name : string)
    : option (list Q -> Q -> nat -> list Q * nat) :=
  match mutations_member name with
  | Operator kind => Some (mutations kind)
  | Inherited => Some (fun data _ calls => (data, calls))
  | NotCallable => None
  end.

(** *** Waveform generator *)

(** create an audio buffer: [freq] the frequency of the sound to
    generate (approximation only), [type] 'saw', 'square', 'noise' or
    'sine', defaults to 'sine'; returns the address of a new
    AudioBuffer containing one swing of the wave.  [length] is the
    quotient as the platform computes it: the source does not round it to
    an integer. *)
Definition audioBuffer (freq : Q) (type : string) : M nat :=
  rate ← context_sampleRate;
  let length := Math_div rate freq in
  buffer ← createBuffer length rate;
  data ← getChannelData buffer;
  if String.eqb type "saw" then
    setChannelData buffer
      (for_loop (trips length) (fun i data =>
         <[i := 1 - (2 * of_nat i / length)]> data) data);;
    mret buffer
  else if String.eqb type "square" then
    setChannelData buffer
      (for_loop (trips length) (fun i data =>
         if ltb (of_nat i) (length / 2) then <[i := 1]> data
         else <[i := -1]> data) data);;
    mret buffer
  else if String.eqb type "noise" then
    (* use a frequency 32 times lower for a decent buffer length *)
    buffer ← createBuffer (32 * length) rate;
    data ← getChannelData buffer;
    calls ← gets draws;
    let '(data, calls) :=
      for_loop (trips (32 * length)) (fun i '(data, calls) =>
        (<[i := Math_random calls * 2 - 1]> data, S calls)) (data, calls) in
    setChannelData buffer data;;
    modify (set_draws calls);;
    mret buffer
  else (* sine *)
    let period := 2 * Math_PI / length in
    setChannelData buffer
      (for_loop (trips length) (fun i data =>
         <[i := Math_sin (period * of_nat i)]> data) data);;
    mret buffer.

(** *** Playback *)

(** create/replace the audio source using a given buffer & start
    playing it *)
Definition newBufferSource (buffer : nat) : M unit :=
  newAudio ← createBufferSource;
  set_loop newAudio true;;
  connect_volume newAudio;;
  set_buffer newAudio buffer;;
  start newAudio;;
  old ← gets audio;
  match old with Some h => stop h | None => mret tt end;;
  modify (set_audio (Some newAudio)).

(** visualize an array of samples on a canvas: the renderer is a
    collaborator, the model records what it is given. *)
Definition drawBuffer (samples : list Q) : M unit := emit (EvDraw samples).

(** [audio.buffer]: the address of the buffer of the current source. *)
Definition audio_buffer : M nat :=
  a ← gets audio;
  h ← defined a;
  ns ← gets nodes;
  n ← defined (ns !! h);
  defined (buffer n).

(** recreates the buffer source node with the current settings from
    the UI *)
Definition updateBuffer : M unit :=
  ui ← gets inputs;
  b ← audioBuffer (freq ui) (wavetype ui);
  newBufferSource b;;
  r ← audio_buffer;
  samples ← getChannelData r;
  drawBuffer samples.

(** *** Mutation cycle *)

(** modifies the buffer according to one of the selected methods in
    the UI.  [data] is the array of the buffer that is installed, at
    address [current]; the operator writes to it. *)
Definition mutateBuffer : M unit :=
  emit EvMutate;;
  current ← audio_buffer;
  data ← getChannelData current;
  rate ← context_sampleRate;
  newBuffer ← createBuffer (of_nat (length data)) rate;
  ui ← gets inputs;
  let amount := mutation_amount ui - 20 in (* slider has range 0-40 *)
  (* run the UI-selected mutation on the buffer *)
  mutation ← defined (mutations_function (mutation ui));
  calls ← gets draws;
  let '(data, calls) := mutation data amount calls in
  setChannelData current data;;
  modify (set_draws calls);;
  (* we need to create a new buffer source, as the buffer becomes
     immutable after setting it *)
  fresh ← getChannelData newBuffer;
  setChannelData newBuffer (copyToChannel data fresh);;
  newBufferSource newBuffer;;
  drawBuffer data.

(** *** The [#mutate] click handler *)
Definition mutate_click : M unit :=
  m ← gets mutating;
  if truthy_handle m then
    clearInterval (default 0%nat m);;
    modify (set_mutating None);;
    emit (EvText "#mutate" "START")
  else
    mutateBuffer;;
    id ← setInterval CallMutateBuffer 200;
    modify (set_mutating (Some id));;
    emit (EvText "#mutate" "STOP").

(** *** INIT *)

(** [new C()]: constructing from anything but a constructor throws. *)
Definition construct (c : Value) : M Value :=
  match c with
  | VConstructor rate => mret (VContext rate)
  | _ => throw TypeError
  end.

Definition init : M unit :=
  A ← gets window_AudioContext;
  W ← gets window_webkitAudioContext;
  context ← construct (js_or A W);
  modify (set_webaudio context);;
  w ← gets webaudio;
  if strict_equal w (VString "undefined")
  then emit (EvText "#msg" "Web Audio unsupported!")
  else
    ui ← gets inputs;
    modify (set_volume (Some {| gain := 1; to_destination := false |}));;
    emit EvCreateGain;;
    modify (set_volume (Some {| gain := volume_input ui; to_destination := false |}));;
    modify (set_volume (Some {| gain := volume_input ui; to_destination := true |}));;
    (* create buffer with values from UI *)
    b ← audioBuffer (freq ui) (wavetype ui);
    newBufferSource b;;
    (* draw the current buffer to the canvas *)
    r ← audio_buffer;
    samples ← getChannelData r;
    drawBuffer samples;;
    (* don't play anything at startup *)
    emit EvSuspend.

(** *** The event loop *)

(** A task runs to its end or to an uncaught exception; either way the
    page goes on from the state the task left. *)
Definition run_task (task : M unit) (st : State) : State := final (task st).

Definition run_callback (f : Callback) : M unit :=
  match f with CallMutateBuffer => mutateBuffer end.

(** The timer [id] comes due: it fires only if it is still armed, and
    is then armed again one interval later. *)
Definition fire (id : nat) (st : State) : State :=
  match List.find (fun t => Nat.eqb (timer_id t) id) (timers st) with
  | None => st
  | Some t =>
      let rearmed :=
        map (fun u => if Nat.eqb (timer_id u) id
                      then {| timer_id := timer_id u; interval := interval u;
                              due := (due u + interval u)%nat;
                              callback := callback u |}
                      else u) (timers st) in
      run_task (run_callback (callback t))
               (set_timers rearmed (timer_count st) st)
  end.

(** One millisecond passes: the timers that come due fire in order. *)
Definition tick (st : State) : State :=
  let st := set_clock (S (clock st)) st in
  let due_now :=
    map timer_id (List.filter (fun t => Nat.eqb (due t) (clock st)) (timers st)) in
  fold_left (fun st id => fire id st) due_now st.

(** [ms] milliseconds pass with no user event. *)
Fixpoint elapse (ms : nat) (st : State) : State :=
  match ms with
  | O => st
  | S k => elapse k (tick st)
  end.

(** The user clicks [#mutate]. *)
Definition click_mutate (st : State) : State := run_task mutate_click st.

(** The number of mutation cycles begun so far. *)
Definition cycles (st : State) : nat :=
  length (List.filter (fun e => match e with EvMutate => true | _ => false end) (log st)).

End Program.

(** ** Notions of the specification *)

(** [round(x)]: the nearest integer, halves upward. *)
Definition round (x : Q) : Z := Qfloor (x + (1 # 2)).

(** The sum of [f 0], ..., [f (n - 1)]. *)
Fixpoint Qsum (f : nat -> Q) (n : nat) : Q :=
  match n with
  | O => 0
  | S k => Qsum f k + f k
  end.

(** Total variation: the sum of [|sample[i] - sample[i-1]|] over the
    indices [i] that have a predecessor, [1 <= i < n]. *)
Definition total_variation (samples : list Q) : Q :=
  Qsum (fun k => Qabs (get samples (S k) - get samples k)) (length samples - 1).

(** Total variation of the buffer as the loop it is played as: the sum
    over every index, the predecessor of index 0 being the last sample. *)
Definition circular_variation (samples : list Q) : Q :=
  let n := length samples in
  Qsum (fun i => Qabs (get samples i - get samples ((n + i - 1) mod n))) n.

(** The data-model invariant of a buffer of [n] samples. *)
Definition valid_buffer (n : nat) (buffer : list Q) : Prop :=
  length buffer = n /\ Forall in_range buffer.

(** The samples that play: those of [audio.buffer]. *)
Definition playing (st : State) : option (list Q) :=
  match audio_buffer st with
  | Ok r _ => channel <$> heap st !! r
  | Throw _ _ => None
  end.

(** One mutation cycle has taken the page from [st] to [st']: one more
    call of [mutateBuffer] has been made; the samples that play in [st']
    are what one application of the operator [kind], with the amount of the
    slider, makes of the samples that played in [st]; and one buffer and one
    source node have been made, the node looping, connected, started, with
    that buffer, and [audio] is that node. *)
Definition cycle_ran (Math_sin : Q -> Q) (Math_random : nat -> Q)
    (kind : MutationKind) (st st' : State) : Prop :=
  cycles st' = S (cycles st)
  /\ (exists data,
        playing st = Some data
        /\ playing st'
           = Some (mutations Math_sin Math_random kind data
                     (mutation_amount (inputs st) - 20) (draws st)).1
        /\ draws st'
           = (mutations Math_sin Math_random kind data
                (mutation_amount (inputs st) - 20) (draws st)).2)
  /\ length (heap st') = S (length (heap st))
  /\ length (nodes st') = S (length (nodes st))
  /\ nodes st' !! length (nodes st)
     = Some {| loop := true; connected := true;
               buffer := Some (length (heap st)); playstate := Playing |}
  /\ audio st' = Some (length (nodes st)).

(** No cycle has run between [st] and [st']: no call of [mutateBuffer]
    has been made, and the buffers, the source nodes, [audio] and the
    number of draws are the same. *)
Definition no_cycle_ran (st st' : State) : Prop :=
  cycles st' = cycles st /\ audio st' = audio st /\ nodes st' = nodes st
  /\ heap st' = heap st /\ draws st' = draws st.

(** The length that [audioBuffer] asks of the buffer it returns, for
    the quotient [length] it has computed. *)
Definition frames (type : string) (length : Q) : Q :=
  if String.eqb type "noise" then 32 * length else length.

(** The operators whose step is scaled by [amount]. *)
Definition amount_scaled : list MutationKind :=
  [Sinify; Squarify; Peakify; Nullify; Offsettify].

(** What the specification says of [offsettify]: add [0.01 * amount] to
    every sample, then clamp. *)
Definition offsettify_spec (buffer : list Q) (amount : Q) : list Q :=
  map (fun v => fitRange (v + (1 # 100) * amount) (-1) 1) buffer.

(** ** Pages that play *)

(** The page plays: the context exists, [audio] is a source node whose
    buffer is in the store, not empty and of a length that an
    [AudioBuffer] can have, the gain node exists and the selected mutation
    is one of the operators. *)
Definition ready (st : State) : Prop :=
  exists rate h n r b kind,
    webaudio st = VContext rate /\ audio st = Some h
    /\ nodes st !! h = Some n /\ buffer n = Some r
    /\ heap st !! r = Some b /\ channel b <> []
    /\ of_nat (length (channel b)) < length_limit
    /\ is_Some (volume st)
    /\ mutation_named (mutation (inputs st)) = Some kind.

(** [st'] differs from [st] at most in what playback owns: the store,
    the source nodes, [audio], the random calls made and the trace. *)
Definition same_page (st st' : State) : Prop :=
  inputs st' = inputs st /\ webaudio st' = webaudio st
  /\ volume st' = volume st /\ mutating st' = mutating st
  /\ timers st' = timers st /\ timer_count st' = timer_count st
  /\ clock st' = clock st.

(** The one timer the page arms. *)
Definition mutation_timer (id d : nat) : Timer :=
  {| timer_id := id; interval := 200; due := d; callback := CallMutateBuffer |}.

(** ** Concrete pages *)

(** A page that has just loaded, before [INIT]. *)
Definition page (ui : Inputs) (A W : Value) : State :=
  {| inputs := ui; window_AudioContext := A; window_webkitAudioContext := W;
     webaudio := VUndefined; audio := None; volume := None; mutating := None;
     heap := []; nodes := []; timers := []; timer_count := 0%nat;
     clock := 0%nat; draws := 0%nat; log := [] |}.

Definition ui_square (f : Q) : Inputs :=
  {| freq := f; wavetype := "square"; mutation := "offsettify";
     mutation_amount := 25; volume_input := 1 |}.

(** A browser with Web Audio at 44100 Hz, the page asking for a square
    wave of frequency [f]. *)
Definition page_square (f : Q) : State :=
  page (ui_square f) (VConstructor 44100) VUndefined.

(** The same page once [INIT] has run. *)
Definition ready_square (f : Q) : State :=
  run_task (init sine_reference random_reference division_reference)
    (page_square f).


(** ** Notions for the operators' long-run behaviour *)

(** The operators that add to each sample a step proportional to
    [amount], and that step per unit of amount at index [i] of a buffer of
    [n] samples. *)
Definition drifting : list MutationKind := [Sinify; Squarify; Peakify; Offsettify].

Definition drift (Math_sin : Q -> Q) (kind : MutationKind) (n i : nat) : Q :=
  match kind with
  | Sinify => Math_sin (2 * Math_PI / of_nat n * of_nat i) * (1 # 100)
  | Squarify => if ltb (of_nat i) (of_nat n / 2) then 1 # 100 else - (1 # 100)
  | Peakify => - (of_nat i * (1 # 10000))
  | Offsettify => 1 # 100
  | _ => 0
  end.

(** A sample strictly inside the range: no clamp produced it. *)
Definition inside (v : Q) : Prop := -1 < v /\ v < 1.

(** A sample between two levels. *)
Definition between (lo hi v : Q) : Prop := lo <= v /\ v <= hi.

(** ** The canvas of [drawBuffer] *)

(** The path that [drawBuffer] strokes on a canvas of [width] by
    [height]: [moveTo] the middle of the left edge, then one [lineTo] per
    sample. *)
Definition drawBuffer_path (samples : list Q) (width height : Q) : list (Q * Q) :=
  let n := length samples in
  for_loop n (fun i path =>
    let x := (of_nat i * width) / of_nat n in
    let y := height / 2 - get samples i * height / 2 in
    path ++ [(x, y)]) [(0, height / 2)].

(** ** What the user does *)

Definition set_inputs (v : Inputs) (st : State) : State :=
  {| inputs := v; window_AudioContext := window_AudioContext st;
     window_webkitAudioContext := window_webkitAudioContext st;
     webaudio := webaudio st; audio := audio st; volume := volume st;
     mutating := mutating st; heap := heap st; nodes := nodes st;
     timers := timers st; timer_count := timer_count st; clock := clock st;
     draws := draws st; log := log st |}.

(** The events of a session: a click on [#mutate]; time passing; a
    change of [#freq] or [#wavetype], which runs [updateBuffer]; a change
    of [#mutation] or of the amount slider, which runs no handler. *)
Inductive PageEvent :=
  | ClickMutate
  | Wait (ms : nat)
  | ChangeWave (f : Q) (type : string)
  | ChangeMutation (name : string) (slider : Q).

Definition handle (Math_sin : Q -> Q) (Math_random : nat -> Q)
    (Math_div : Q -> Q -> Q) (e : PageEvent) (st : State) : State :=
  match e with
  | ClickMutate => click_mutate Math_sin Math_random st
  | Wait ms => elapse Math_sin Math_random ms st
  | ChangeWave f type =>
      run_task (updateBuffer Math_sin Math_random Math_div)
        (set_inputs {| freq := f; wavetype := type;
                       mutation := mutation (inputs st);
                       mutation_amount := mutation_amount (inputs st);
                       volume_input := volume_input (inputs st) |} st)
  | ChangeMutation name slider =>
      set_inputs {| freq := freq (inputs st); wavetype := wavetype (inputs st);
                    mutation := name; mutation_amount := slider;
                    volume_input := volume_input (inputs st) |} st
  end.

Definition run_events (Math_sin : Q -> Q) (Math_random : nat -> Q)
    (Math_div : Q -> Q -> Q) (events : list PageEvent) (st : State) : State :=
  fold_left (fun st e => handle Math_sin Math_random Math_div e st) events st.

(** The page sounds: the context and the gain node exist, [audio] is a
    source node whose buffer is in the store, not empty, of a length that
    an [AudioBuffer] can have and with samples in [-1, 1], and [audio] is
    the one handle that sounds. *)
Definition sounds (st : State) : Prop :=
  exists rate h n r b,
    webaudio st = VContext rate /\ audio st = Some h
    /\ nodes st !! h = Some n /\ buffer n = Some r
    /\ heap st !! r = Some b /\ channel b <> []
    /\ of_nat (length (channel b)) < length_limit
    /\ Forall in_range (channel b)
    /\ is_Some (volume st)
    /\ sounding (log st) [] = [h].

(** The scheduler is idle, or [mutating] names the one armed timer, due
    within its interval. *)
Definition scheduled (st : State) : Prop :=
  (mutating st = None /\ timers st = [])
  \/ exists id d,
       mutating st = Some (S id) /\ timers st = [mutation_timer (S id) d]
       /\ (clock st < d)%nat /\ (d <= clock st + 200)%nat.

(** The page did nothing: no context, no gain node, no source, no
    buffer, no timer, and a trace that holds only the marks of the calls of
    [mutateBuffer]. *)
Definition silent (st : State) : Prop :=
  webaudio st = VUndefined /\ audio st = None /\ volume st = None
  /\ heap st = [] /\ nodes st = []
  /\ mutating st = None /\ timers st = []
  /\ Forall (fun e => e = EvMutate) (log st).

(** The events that leave the wave selection alone. *)
Definition keeps_wave (e : PageEvent) : bool :=
  match e with ChangeWave _ _ => false | _ => true end.

(** ** Sessions on a concrete page *)

(** A session: start, two timer cycles, another mutation, a frequency
    the context cannot play, a new wave, an inherited name for a mutation,
    stop. *)
Definition session : list PageEvent :=
  [ClickMutate; Wait 450; ChangeMutation "smoothify" 20; Wait 200;
   ChangeWave 48000 "saw"; ChangeWave 4410 "saw";
   ChangeMutation "toString" 20; Wait 200; ClickMutate].

(** A session that leaves the wave selection alone. *)
Definition mutation_session : list PageEvent :=
  [ClickMutate; Wait 450; ChangeMutation "randomizify" 3; Wait 200; ClickMutate].

(** The page once a mutation has been selected. *)
Definition ready_with (name : string) (slider : Q) : State :=
  handle sine_reference random_reference division_reference
    (ChangeMutation name slider) (ready_square 11025).

(** * Properties *)

(** ** Numbers and clamping *)

Lemma ltb_true a b : ltb a b = true <-> a < b.
Proof.
  unfold ltb. rewrite Qlt_alt. destruct (a ?= b); split; congruence.
Qed.

Lemma ltb_false a b : ltb a b = false <-> b <= a.
Proof.
  unfold ltb. rewrite Qle_alt, <- Qgt_alt, Qlt_alt.
  destruct (a ?= b) eqn:E; split; congruence.
Qed.

Lemma ltb_cases a b : (ltb a b = true /\ a < b) \/ (ltb a b = false /\ b <= a).
Proof.
  destruct (ltb a b) eqn:E; [left | right]; split; trivial.
  - now apply ltb_true.
  - now apply ltb_false.
Qed.

(** Case analysis on every comparison of the goal. *)
Ltac compare_cases :=
  repeat match goal with
  | |- context [ltb ?a ?b] =>
      let H := fresh "Hcmp" in
      destruct (ltb_cases a b) as [[-> H] | [-> H]]
  end.

Lemma fitRange_cases v lo hi :
  (v < lo /\ fitRange v lo hi = lo) \/
  (lo <= v /\ hi < v /\ fitRange v lo hi = hi) \/
  (lo <= v /\ v <= hi /\ fitRange v lo hi = v).
Proof.
  unfold fitRange, gtb. compare_cases; auto.
Qed.

Lemma fitRange_in_range v : in_range (fitRange v (-1) 1).
Proof.
  unfold in_range.
  destruct (fitRange_cases v (-1) 1) as [[? ->] | [(? & ? & ->) | (? & ? & ->)]];
    split; lra.
Qed.

Lemma fitRange_id v : in_range v -> fitRange v (-1) 1 = v.
Proof.
  intros [? ?].
  destruct (fitRange_cases v (-1) 1) as [[? ?] | [(? & ? & ?) | (? & ? & ?)]];
    trivial; lra.
Qed.

Lemma in_range_zero : in_range 0.
Proof. split; lra. Qed.

Lemma in_range_mean p v q :
  in_range p -> in_range v -> in_range q -> in_range ((p + v + q) / 3).
Proof.
  unfold in_range. intros [? ?] [? ?] [? ?].
  split.
  - apply Qle_shift_div_l; lra.
  - apply Qle_shift_div_r; lra.
Qed.

(** ** Loops and arrays *)

Lemma for_loop_S {S : Type} n (body : nat -> S -> S) s :
  for_loop (Datatypes.S n) body s = body n (for_loop n body s).
Proof.
  unfold for_loop. rewrite seq_S, fold_left_app. reflexivity.
Qed.

(** A loop invariant: [P i s] holds of the state before iteration [i]. *)
Lemma for_loop_invariant {S : Type} (P : nat -> S -> Prop) n body s :
  P 0%nat s ->
  (forall i s, (i < n)%nat -> P i s -> P (Datatypes.S i) (body i s)) ->
  P n (for_loop n body s).
Proof.
  intros H0 Hstep.
  assert (forall k, (k <= n)%nat -> P k (for_loop k body s)) as Hk.
  { induction k as [|k IH]; intros Hle.
    - exact H0.
    - rewrite for_loop_S. apply Hstep; [lia | apply IH; lia]. }
  apply Hk. lia.
Qed.

Lemma get_lookup (buffer : list Q) i v : buffer !! i = Some v -> get buffer i = v.
Proof. unfold get. now intros ->. Qed.

Lemma get_insert_eq (buffer : list Q) i v :
  (i < length buffer)%nat -> get (<[i := v]> buffer) i = v.
Proof. intros H. unfold get. now rewrite list_lookup_insert_eq. Qed.

Lemma get_insert_ne (buffer : list Q) i j v :
  i <> j -> get (<[i := v]> buffer) j = get buffer j.
Proof. intros H. unfold get. now rewrite list_lookup_insert_ne. Qed.

Lemma get_in_range (buffer : list Q) i :
  Forall in_range buffer -> in_range (get buffer i).
Proof.
  intros H. unfold get. destruct (buffer !! i) as [v|] eqn:E; simpl.
  - eapply Forall_lookup_1; eauto.
  - apply in_range_zero.
Qed.

Lemma valid_buffer_insert n buffer i v :
  valid_buffer n buffer -> in_range v -> valid_buffer n (<[i := v]> buffer).
Proof.
  intros [Hl Hr] Hv. split.
  - now rewrite length_insert.
  - now apply Forall_insert.
Qed.

(** A loop whose every iteration stores a value of [-1, 1] keeps the
    invariant. *)
Lemma clamping_loop n m (f : nat -> list Q -> Q) buffer :
  valid_buffer n buffer ->
  (forall i b, valid_buffer n b -> in_range (f i b)) ->
  valid_buffer n (for_loop m (fun i b => <[i := f i b]> b) buffer).
Proof.
  intros Hb Hf.
  apply (for_loop_invariant (fun _ b => valid_buffer n b)); trivial.
  intros i b _ Hv. apply valid_buffer_insert; auto.
Qed.

Lemma clamping_loop_random n m (f : nat -> list Q -> nat -> Q) buffer calls :
  valid_buffer n buffer ->
  (forall i b k, valid_buffer n b -> in_range (f i b k)) ->
  valid_buffer n
    (for_loop m (fun i '(b, k) => (<[i := f i b k]> b, S k)) (buffer, calls)).1.
Proof.
  intros Hb Hf.
  apply (for_loop_invariant (fun _ (s : list Q * nat) => valid_buffer n s.1)); trivial.
  intros i [b k] _ Hv. simpl in *. apply valid_buffer_insert; auto.
Qed.

(** A loop that rewrites each sample from its own value is a map over
    the array. *)
Lemma pointwise_loop (f : nat -> Q -> Q) body (buffer : list Q) :
  (forall i b, length b = length buffer -> body i b = <[i := f i (get b i)]> b) ->
  for_loop (length buffer) body buffer = imap f buffer.
Proof.
  intros Hbody.
  assert (forall k, (k <= length buffer)%nat ->
            length (for_loop k body buffer) = length buffer /\
            forall j, for_loop k body buffer !! j
                      = if decide (j < k)%nat then f j <$> buffer !! j
                        else buffer !! j) as Hk.
  { induction k as [|k IH]; intros Hle.
    - split; [reflexivity |]. intros j. case_decide; [lia | reflexivity].
    - destruct IH as [Hl Hj]; [lia |].
      rewrite for_loop_S, Hbody by exact Hl. split.
      + now rewrite length_insert.
      + intros j. destruct (decide (j = k)) as [-> | Hne].
        * rewrite list_lookup_insert_eq by lia.
          case_decide; [| lia].
          unfold get. rewrite Hj. case_decide; [lia |].
          destruct (lookup_lt_is_Some_2 buffer k) as [v Hv]; [lia |].
          now rewrite Hv.
        * rewrite list_lookup_insert_ne by congruence.
          rewrite Hj. repeat case_decide; trivial; lia. }
  destruct (Hk (length buffer)) as [Hl Hj]; [lia |].
  apply list_eq. intros j. rewrite Hj, list_lookup_imap.
  case_decide; trivial.
  rewrite lookup_ge_None_2 by lia. reflexivity.
Qed.

Lemma imap_fixes (f : nat -> Q -> Q) (buffer : list Q) :
  (forall i v, buffer !! i = Some v -> f i v == v) ->
  Forall2 Qeq (imap f buffer) buffer.
Proof.
  intros Hf. apply Forall2_lookup. intros i. rewrite list_lookup_imap.
  destruct (buffer !! i) as [v|] eqn:E; simpl; constructor. now apply Hf.
Qed.

Lemma in_range_Qeq v w : v == w -> in_range w -> in_range v.
Proof. unfold in_range. intros E [? ?]. split; lra. Qed.

Lemma fitRange_fixes v w : v == w -> in_range w -> fitRange v (-1) 1 == w.
Proof.
  intros E H. rewrite fitRange_id; trivial. eapply in_range_Qeq; eauto.
Qed.

(** ** Lengths and trip counts *)

Lemma of_nat_lt i j : (i < j)%nat <-> of_nat i < of_nat j.
Proof. unfold of_nat. rewrite <- Zlt_Qlt. lia. Qed.

Lemma of_nat_le i j : (i <= j)%nat <-> of_nat i <= of_nat j.
Proof. unfold of_nat. rewrite <- Zle_Qle. lia. Qed.

Lemma trips_spec bound i : (i < trips bound)%nat <-> of_nat i < bound.
Proof.
  unfold trips, of_nat. 
  pose proof (Qle_ceiling bound) as Hc. pose proof (Qceiling_lt bound) as Hl.
  replace (Qceiling bound - 1)%Z with (Qceiling bound + -1)%Z in Hl by lia.
  rewrite inject_Z_plus in Hl. change (inject_Z (-1)) with (-1) in Hl.
  split; intros H.
  - assert (Z.of_nat i + 1 <= Qceiling bound)%Z as Hz by lia.
    rewrite Zle_Qle, inject_Z_plus in Hz. change (inject_Z 1) with 1 in Hz.
    lra.
  - assert (inject_Z (Z.of_nat i) < inject_Z (Qceiling bound)) as Hz by lra.
    rewrite <- Zlt_Qlt in Hz. lia.
Qed.

Lemma truncate_nonneg x : 0 <= x -> truncate x = Qfloor x /\ (0 <= Qfloor x)%Z.
Proof.
  intros H. unfold truncate.
  destruct (Qle_bool 0 x) eqn:E.
  - split; [reflexivity |]. apply Qfloor_resp_le in H. exact H.
  - apply Qle_bool_iff in H. congruence.
Qed.

(** Below 2^32 the conversion drops the fraction and that is all. *)
Lemma ToLength_floor x :
  0 <= x -> x < length_limit -> ToLength x = Z.to_nat (Qfloor x).
Proof.
  intros H0 H1. unfold ToLength.
  destruct (truncate_nonneg x H0) as [-> Hf].
  rewrite Z.mod_small; [reflexivity |]. split; [exact Hf |].
  pose proof (Qfloor_le x) as Hle.
  assert (inject_Z (Qfloor x) < inject_Z 4294967296) as Hq
    by (change (inject_Z 4294967296) with length_limit; lra).
  now rewrite <- Zlt_Qlt in Hq.
Qed.

Lemma ToLength_spec x i : 0 <= x -> (i < ToLength x)%nat -> of_nat i + 1 <= x.
Proof.
  intros H0. unfold ToLength, of_nat.
  destruct (truncate_nonneg x H0) as [-> Hf]. intros H.
  pose proof (Qfloor_le x) as Hle.
  pose proof (Z.mod_le (Qfloor x) 4294967296 Hf ltac:(lia)) as Hm.
  assert (Z.of_nat i + 1 <= Qfloor x)%Z as Hz by lia.
  rewrite Zle_Qle, inject_Z_plus in Hz. change (inject_Z 1) with 1 in Hz. lra.
Qed.

Lemma of_nat_nonneg k : 0 <= of_nat k.
Proof. change 0 with (of_nat 0). apply of_nat_le. lia. Qed.

Lemma ToLength_ge x k :
  of_nat k <= x -> x < length_limit -> (k <= ToLength x)%nat.
Proof.
  intros H H1. pose proof (of_nat_nonneg k).
  rewrite ToLength_floor by (trivial; lra). unfold of_nat in H.
  apply Qfloor_resp_le in H. rewrite Qfloor_Z in H. lia.
Qed.

(** A number strictly between -1 and 1 converts to 0. *)
Lemma ToLength_zero x : 0 <= x -> x < 1 -> ToLength x = 0%nat.
Proof.
  intros H0 H1. rewrite ToLength_floor; [| exact H0 | unfold length_limit; lra].
  destruct (truncate_nonneg x H0) as [_ Hz].
  pose proof (Qfloor_le x) as Hle.
  assert (inject_Z (Qfloor x) < inject_Z 1) as Hq
    by (change (inject_Z 1) with 1; lra).
  rewrite <- Zlt_Qlt in Hq. lia.
Qed.

(** ** Loops that fill an array *)

Lemma for_loop_ext {S : Type} n (body body' : nat -> S -> S) s :
  (forall i s, (i < n)%nat -> body i s = body' i s) ->
  for_loop n body s = for_loop n body' s.
Proof.
  intros H. induction n as [|n IH]; [reflexivity |].
  rewrite !for_loop_S, IH by (intros; apply H; lia). apply H. lia.
Qed.

Lemma fill_loop_length (g : nat -> Q) m (data : list Q) :
  length (for_loop m (fun i d => <[i := g i]> d) data) = length data.
Proof.
  induction m as [|m IH]; [reflexivity |].
  now rewrite for_loop_S, length_insert.
Qed.

Lemma fill_loop_lookup (g : nat -> Q) m (data : list Q) j :
  (j < m)%nat -> (j < length data)%nat ->
  for_loop m (fun i d => <[i := g i]> d) data !! j = Some (g j).
Proof.
  induction m as [|m IH]; intros Hm Hj; [lia |].
  rewrite for_loop_S. destruct (decide (j = m)) as [-> | Hne].
  - apply list_lookup_insert_eq. now rewrite fill_loop_length.
  - rewrite list_lookup_insert_ne by congruence. apply IH; lia.
Qed.

Lemma fill_loop_valid n (g : nat -> Q) m (data : list Q) :
  valid_buffer n data ->
  (forall i, (i < m)%nat -> in_range (g i)) ->
  valid_buffer n (for_loop m (fun i d => <[i := g i]> d) data).
Proof.
  intros Hd Hg.
  apply (for_loop_invariant (fun _ b => valid_buffer n b)); trivial.
  intros i b Hi Hv. apply valid_buffer_insert; auto.
Qed.

Lemma zeros_valid n : valid_buffer n (replicate n 0).
Proof.
  split; [apply length_replicate |].
  apply Forall_replicate, in_range_zero.
Qed.

(** ** The store *)

Lemma lookup_snoc {A} (l : list A) x : (l ++ [x]) !! length l = Some x.
Proof. apply list_lookup_middle. reflexivity. Qed.

Lemma lookup_snoc_at {A} (l : list A) x k :
  k = length l -> (l ++ [x]) !! k = Some x.
Proof. intros ->. apply lookup_snoc. Qed.

Lemma alter_snoc {A} (f : A -> A) (l : list A) x :
  alter f (length l) (l ++ [x]) = l ++ [f x].
Proof.
  apply list_eq. intros j. destruct (decide (j = length l)) as [-> | Hne].
  - now rewrite list_lookup_alter_eq, !lookup_snoc.
  - rewrite list_lookup_alter_ne by congruence.
    destruct (decide (j < length l)%nat).
    + now rewrite !lookup_app_l by lia.
    + rewrite !lookup_ge_None_2; trivial; rewrite length_app; simpl; lia.
Qed.

Lemma ToLength_of_nat n :
  of_nat n < length_limit -> ToLength (of_nat n) = n.
Proof.
  intros H. rewrite ToLength_floor by (trivial; apply of_nat_nonneg).
  unfold of_nat. rewrite Qfloor_Z. lia.
Qed.

Lemma copyToChannel_same_length (source : list Q) n :
  length source = n -> copyToChannel source (replicate n 0) = source.
Proof.
  intros H. unfold copyToChannel. rewrite length_replicate.
  rewrite take_ge, drop_ge by (rewrite ?length_replicate; lia).
  apply app_nil_r.
Qed.

(** ** Sums and absolute values *)

Lemma Qabs_cases x : (0 <= x /\ Qabs x == x) \/ (x < 0 /\ Qabs x == - x).
Proof.
  destruct (Qlt_le_dec x 0) as [H | H].
  - right. split; trivial. apply Qabs_neg. lra.
  - left. split; trivial. now apply Qabs_pos.
Qed.

(** Case analysis on the sign under every absolute value of the goal. *)
Ltac abs_cases :=
  repeat match goal with
  | |- context [Qabs ?x] =>
      let H := fresh "Habs" in
      let a := fresh "a" in
      destruct (Qabs_cases x) as [[? H] | [? H]];
      revert H; generalize (Qabs x); intros a H
  end.

Lemma mean_times_three p v q : 3 * ((p + v + q) / 3) == p + v + q.
Proof. field. Qed.

(** Replacing a sample by the mean of itself and its two neighbours does
    not lengthen the path through the three. *)
Lemma mean_step_le p v q :
  Qabs ((p + v + q) / 3 - p) + Qabs (q - (p + v + q) / 3)
  <= Qabs (v - p) + Qabs (q - v).
Proof.
  pose proof (mean_times_three p v q) as Hm.
  revert Hm. generalize ((p + v + q) / 3). intros m Hm.
  abs_cases; lra.
Qed.

Lemma Qsum_ext f g n :
  (forall k, (k < n)%nat -> f k == g k) -> Qsum f n == Qsum g n.
Proof.
  induction n as [|n IH]; intros H; simpl; [reflexivity |].
  rewrite IH by (intros; apply H; lia). rewrite (H n) by lia. reflexivity.
Qed.

(** Two sums that differ at one index. *)
Lemma Qsum_diff1 f g n i :
  (i < n)%nat -> (forall k, (k < n)%nat -> k <> i -> f k == g k) ->
  Qsum g n - Qsum f n == g i - f i.
Proof.
  induction n as [|n IH]; intros Hi H; [lia |]. simpl.
  destruct (decide (i = n)) as [-> | Hne].
  - rewrite (Qsum_ext f g n) by (intros; apply H; lia). ring.
  - specialize (IH ltac:(lia) ltac:(intros; apply H; lia)).
    pose proof (H n ltac:(lia) ltac:(lia)) as Hn. lra.
Qed.

(** Two sums that differ at two indices. *)
Lemma Qsum_diff2 f g n i j :
  (i < n)%nat -> (j < n)%nat -> i <> j ->
  (forall k, (k < n)%nat -> k <> i -> k <> j -> f k == g k) ->
  Qsum g n - Qsum f n == (g i - f i) + (g j - f j).
Proof.
  induction n as [|n IH]; intros Hi Hj Hij H; [lia |]. simpl.
  destruct (decide (i = n)) as [-> | Hi'].
  - pose proof (Qsum_diff1 f g n j ltac:(lia) ltac:(intros; apply H; lia)). lra.
  - destruct (decide (j = n)) as [-> | Hj'].
    + pose proof (Qsum_diff1 f g n i ltac:(lia) ltac:(intros; apply H; lia)). lra.
    + specialize (IH ltac:(lia) ltac:(lia) Hij ltac:(intros; apply H; lia)).
      pose proof (H n ltac:(lia) ltac:(lia) ltac:(lia)) as Hn. lra.
Qed.

(** ** Circular neighbours *)

Lemma prev_index n i :
  (i < n)%nat ->
  ((n + i - 1) mod n = if decide (i = 0) then n - 1 else i - 1)%nat.
Proof.
  intros Hi. case_decide.
  - subst i. rewrite Nat.add_0_r. apply Nat.mod_small. lia.
  - replace (n + i - 1)%nat with ((i - 1) + 1 * n)%nat by lia.
    rewrite Nat.Div0.mod_add. apply Nat.mod_small. lia.
Qed.

Lemma next_index n i :
  (i < n)%nat ->
  ((i + 1) mod n = if decide (i + 1 = n) then 0 else i + 1)%nat.
Proof.
  intros Hi. case_decide as H.
  - rewrite H. apply Nat.Div0.mod_same.
  - apply Nat.mod_small. lia.
Qed.

(** ** One store into a loop buffer *)

(** Storing [m] at index [i] changes the circular variation by the two
    terms that touch index [i]. *)
Lemma circular_variation_insert (b : list Q) i m :
  (2 <= length b)%nat -> (i < length b)%nat ->
  circular_variation (<[i := m]> b) - circular_variation b
  == (Qabs (m - get b ((length b + i - 1) mod length b))
      + Qabs (get b ((i + 1) mod length b) - m))
     - (Qabs (get b i - get b ((length b + i - 1) mod length b))
        + Qabs (get b ((i + 1) mod length b) - get b i)).
Proof.
  intros Hn Hi. unfold circular_variation. rewrite length_insert.
  set (n := length b) in *.
  assert ((n + i - 1) mod n <> i)%nat as Hp
    by (rewrite prev_index by lia; case_decide; lia).
  assert ((i + 1) mod n <> i)%nat as Hq
    by (rewrite next_index by lia; case_decide; lia).
  assert ((i + 1) mod n < n)%nat as Hqn by (apply Nat.mod_upper_bound; lia).
  assert ((n + (i + 1) mod n - 1) mod n = i)%nat as Hpq.
  { rewrite prev_index by exact Hqn. rewrite next_index by lia.
    repeat case_decide; lia. }
  rewrite (Qsum_diff2 _ _ n i ((i + 1) mod n)); try lia.
  - rewrite Hpq.
    rewrite get_insert_eq by exact Hi.
    rewrite !(get_insert_ne b i) by congruence.
    ring.
  - intros k Hk Hki Hkq.
    rewrite !(get_insert_ne b i); [reflexivity | | congruence].
    intros E. apply Hkq.
    rewrite prev_index in E by lia. rewrite next_index by lia.
    repeat case_decide; lia.
Qed.

Lemma smoothify_body_length i b : length (smoothify_body i b) = length b.
Proof. unfold smoothify_body. apply length_insert. Qed.

Lemma circular_variation_short (b : list Q) :
  (length b < 2)%nat -> circular_variation b == 0.
Proof.
  intros H. unfold circular_variation.
  destruct b as [|x [|y b]]; simpl in H; try lia.
  - reflexivity.
  - change (0 + Qabs (x - x) == 0). abs_cases; lra.
Qed.

(** An iteration of [smoothify] never adds circular variation. *)
Lemma smoothify_body_le i b :
  (i < length b)%nat ->
  circular_variation (smoothify_body i b) <= circular_variation b.
Proof.
  intros Hi. destruct (decide (2 <= length b)%nat) as [Hn | Hn].
  - pose proof (circular_variation_insert b i
      ((get b ((length b + i - 1) mod length b) + get b i
        + get b ((i + 1) mod length b)) / 3) Hn Hi) as H.
    pose proof (mean_step_le (get b ((length b + i - 1) mod length b)) (get b i)
                  (get b ((i + 1) mod length b))) as Hle.
    unfold smoothify_body. lra.
  - rewrite !circular_variation_short;
      rewrite ?smoothify_body_length; lra || lia.
Qed.

(** ** The iterations of [smoothify], one after the other *)

Lemma steps_length k b : length (for_loop k smoothify_body b) = length b.
Proof.
  induction k as [|k IH]; [reflexivity |].
  now rewrite for_loop_S, smoothify_body_length.
Qed.

(** The samples not reached yet are as they were. *)
Lemma steps_untouched k b j :
  (k <= j)%nat -> get (for_loop k smoothify_body b) j = get b j.
Proof.
  induction k as [|k IH]; intros Hj; [reflexivity |].
  rewrite for_loop_S. unfold smoothify_body at 1.
  rewrite get_insert_ne by lia. apply IH. lia.
Qed.

(** The samples passed stay as the loop left them. *)
Lemma steps_frozen k k' b j :
  (j < k)%nat -> (k <= k')%nat ->
  get (for_loop k' smoothify_body b) j = get (for_loop k smoothify_body b) j.
Proof.
  intros Hj Hk. induction k' as [|k' IH]; [lia |].
  destruct (decide (k = S k')) as [-> | Hne]; [reflexivity |].
  rewrite for_loop_S. unfold smoothify_body at 1.
  rewrite get_insert_ne by lia. apply IH. lia.
Qed.

Lemma steps_le k b :
  (k <= length b)%nat ->
  circular_variation (for_loop k smoothify_body b) <= circular_variation b.
Proof.
  induction k as [|k IH]; intros Hk; [apply Qle_refl |].
  rewrite for_loop_S.
  eapply Qle_trans; [apply smoothify_body_le | apply IH; lia].
  rewrite steps_length. lia.
Qed.

(** [smoothify] never increases the circular variation. *)
Lemma smoothify_le b : circular_variation (smoothify b) <= circular_variation b.
Proof. unfold smoothify. now apply steps_le. Qed.

(** ** Rounding *)

Lemma two_pow (z : Z) : (0 <= z)%Z -> inject_Z (2 ^ z) == 2 ^ z.
Proof. intros. now apply (Zpower_Qpower 2 z). Qed.

Lemma two_pow_pos (z : Z) : 0 < 2 ^ z.
Proof. apply Qpower_0_lt. reflexivity. Qed.

Lemma two_pow_add (a b : Z) : 2 ^ (a + b) == 2 ^ a * 2 ^ b.
Proof. apply Qpower_plus. intros H; discriminate H. Qed.

Lemma two_pow_le (a b : Z) : (a <= b)%Z -> 2 ^ a <= 2 ^ b.
Proof. intros. apply Qpower_le_compat_l; [assumption | lra]. Qed.

Lemma Qdiv_lt_cross a b c d : 0 < b -> 0 < d -> a * d < c * b -> a / b < c / d.
Proof.
  intros Hb Hd H. apply Qlt_shift_div_r; [exact Hb |].
  assert (c / d * b == c * b / d) as -> by (field; lra).
  now apply Qlt_shift_div_l.
Qed.

Lemma Qdiv_le_cross a b c d : 0 < b -> 0 < d -> a * d <= c * b -> a / b <= c / d.
Proof.
  intros Hb Hd H. apply Qle_shift_div_r; [exact Hb |].
  assert (c / d * b == c * b / d) as -> by (field; lra).
  now apply Qle_shift_div_l.
Qed.

Lemma exponent_spec x :
  0 < x -> 2 ^ exponent x <= x /\ x < 2 ^ (exponent x + 1).
Proof.
  intros Hx. destruct x as [n d]. unfold exponent. simpl Qnum. simpl Qden.
  assert (0 < n)%Z as Hn by (unfold Qlt in Hx; simpl in Hx; lia).
  destruct (Z.log2_spec n Hn) as [Hn1 Hn2].
  destruct (Z.log2_spec (Z.pos d) ltac:(lia)) as [Hd1 Hd2].
  pose proof (Z.log2_nonneg n) as Hln.
  pose proof (Z.log2_nonneg (Z.pos d)) as Hld.
  set (ln := Z.log2 n) in *. set (ld := Z.log2 (Z.pos d)) in *.
  assert (~ (2 : Q) == 0) as H2 by (intros H; discriminate H).
  assert (n # d == inject_Z n / inject_Z (Z.pos d)) as Hq by apply Qmake_Qdiv.
  assert (0 < inject_Z (Z.pos d)) as Hdp by reflexivity.
  assert (2 ^ ln <= inject_Z n) as A1
    by (rewrite <- two_pow by lia; now rewrite <- Zle_Qle).
  assert (inject_Z n < 2 ^ (ln + 1)) as A2.
  { rewrite <- two_pow by lia. rewrite <- Zlt_Qlt.
    now replace (ln + 1)%Z with (Z.succ ln) by lia. }
  assert (2 ^ ld <= inject_Z (Z.pos d)) as B1
    by (rewrite <- two_pow by lia; now rewrite <- Zle_Qle).
  assert (inject_Z (Z.pos d) < 2 ^ (ld + 1)) as B2.
  { rewrite <- two_pow by lia. rewrite <- Zlt_Qlt.
    now replace (ld + 1)%Z with (Z.succ ld) by lia. }
  assert (0 < 2 ^ ld) as Pd by (apply Qpower_0_lt; reflexivity).
  assert (0 < 2 ^ (ld + 1)) as Pd1 by (apply Qpower_0_lt; reflexivity).
  assert (0 < 2 ^ ln) as Pn by (apply Qpower_0_lt; reflexivity).
  assert (2 ^ (ln - ld + 1) == 2 ^ (ln + 1) / 2 ^ ld) as E1.
  { replace (ln - ld + 1)%Z with (ln + 1 - ld)%Z by lia.
    now apply Qpower_minus. }
  assert (2 ^ (ln - ld - 1) == 2 ^ ln / 2 ^ (ld + 1)) as E2.
  { replace (ln - ld - 1)%Z with (ln - (ld + 1))%Z by lia.
    now apply Qpower_minus. }
  assert (n # d < 2 ^ (ln - ld + 1)) as Up.
  { rewrite Hq, E1. apply Qdiv_lt_cross; [exact Hdp | exact Pd |]. nra. }
  assert (2 ^ (ln - ld - 1) <= n # d) as Lo.
  { rewrite Hq, E2. apply Qdiv_le_cross; [exact Pd1 | exact Hdp |]. nra. }
  destruct (Qle_bool (2 ^ (ln - ld)) (n # d)) eqn:E.
  - apply Qle_bool_iff in E. split; assumption.
  - assert (~ 2 ^ (ln - ld) <= n # d) as N
      by (intros H; apply Qle_bool_iff in H; congruence).
    apply Qnot_le_lt in N.
    replace (ln - ld - 1 + 1)%Z with (ln - ld)%Z by lia. split; assumption.
Qed.

Lemma nearest_even_ge x k : inject_Z k <= x -> (k <= nearest_even x)%Z.
Proof.
  intros H. apply Qfloor_resp_le in H. rewrite Qfloor_Z in H.
  unfold nearest_even. destruct (Qcompare _ _); [destruct (Z.even _) | |]; lia.
Qed.

Lemma nearest_even_le x k : x <= inject_Z k -> (nearest_even x <= k)%Z.
Proof.
  intros H. pose proof (Qfloor_resp_le _ _ H) as Hf. rewrite Qfloor_Z in Hf.
  unfold nearest_even.
  destruct (Z.eq_dec (Qfloor x) k) as [E | E].
  - pose proof (Qfloor_le x) as Hl. rewrite E in Hl.
    assert (x - inject_Z (Qfloor x) == 0) as Hz by (rewrite E; lra).
    assert (Qcompare (x - inject_Z (Qfloor x)) (1 # 2) = Lt) as ->.
    { apply Qlt_alt. rewrite Hz. reflexivity. }
    lia.
  - destruct (Qcompare _ _); [destruct (Z.even _) | |]; lia.
Qed.

(** The rounding of a positive number. *)
Lemma rounded_positive p x :
  0 < x ->
  rounded p x
  == inject_Z (nearest_even (x / 2 ^ (exponent x - p + 1)))
     * 2 ^ (exponent x - p + 1).
Proof.
  intros H. unfold rounded. destruct x as [n d].
  destruct n as [| n | n]; try (unfold Qlt in H; simpl in H; lia).
  simpl Qnum. cbv zeta. apply Qred_correct.
Qed.

Lemma rounded_opp p x : rounded p (- x) == - rounded p x.
Proof.
  destruct x as [n d]. destruct n as [| n | n].
  - reflexivity.
  - change (- (Z.pos n # d)) with (Z.neg n # d).
    unfold rounded. simpl Qnum. cbv zeta.
    change (- (Z.neg n # d)) with (Z.pos n # d).
    etransitivity; [apply Qred_correct |].
    apply Qopp_comp. symmetry. apply Qred_correct.
  - change (- (Z.neg n # d)) with (Z.pos n # d).
    unfold rounded. simpl Qnum. cbv zeta.
    change (- (Z.neg n # d)) with (Z.pos n # d).
    etransitivity; [apply Qred_correct |].
    etransitivity; [| apply Qopp_comp; symmetry; apply Qred_correct].
    ring.
Qed.

Lemma rounded_zero p x : x == 0 -> rounded p x == 0.
Proof.
  intros H. unfold rounded. destruct x as [n d].
  destruct n; [reflexivity | |]; unfold Qeq in H; simpl in H; lia.
Qed.

(** Where a positive number and its rounding lie. *)
Lemma rounded_frame p x :
  (0 < p)%Z -> 0 < x ->
  let e := exponent x in
  let ulp := 2 ^ (e - p + 1) in
  let n := nearest_even (x / ulp) in
  0 < ulp /\ 2 ^ e == inject_Z (2 ^ (p - 1)) * ulp
  /\ 2 ^ (e + 1) == inject_Z (2 ^ p) * ulp
  /\ inject_Z (2 ^ (p - 1)) <= x / ulp /\ x / ulp < inject_Z (2 ^ p)
  /\ (2 ^ (p - 1) <= n <= 2 ^ p)%Z
  /\ rounded p x == inject_Z n * ulp.
Proof.
  intros Hp Hx e ulp n.
  destruct (exponent_spec x Hx) as [Hlo Hhi]. fold e in Hlo, Hhi.
  assert (0 < ulp) as Hu by apply two_pow_pos.
  assert (2 ^ e == inject_Z (2 ^ (p - 1)) * ulp) as E1.
  { rewrite two_pow by lia. unfold ulp. rewrite <- two_pow_add.
    now replace (p - 1 + (e - p + 1))%Z with e by lia. }
  assert (2 ^ (e + 1) == inject_Z (2 ^ p) * ulp) as E2.
  { rewrite two_pow by lia. unfold ulp. rewrite <- two_pow_add.
    now replace (p + (e - p + 1))%Z with (e + 1)%Z by lia. }
  assert (inject_Z (2 ^ (p - 1)) <= x / ulp) as Y1.
  { apply Qle_shift_div_l; [exact Hu |]. now rewrite <- E1. }
  assert (x / ulp < inject_Z (2 ^ p)) as Y2.
  { apply Qlt_shift_div_r; [exact Hu |]. now rewrite <- E2. }
  split; [exact Hu |]. split; [exact E1 |]. split; [exact E2 |].
  split; [exact Y1 |]. split; [exact Y2 |].
  split.
  - split; [now apply nearest_even_ge |].
    apply nearest_even_le. lra.
  - now apply rounded_positive.
Qed.

Lemma representable_opp p x : representable p x -> representable p (- x).
Proof.
  intros (m & e & Hm & Hx). exists (- m)%Z, e. split; [lia |].
  rewrite Hx, inject_Z_opp. ring.
Qed.

Lemma representable_zero p : (0 <= p)%Z -> representable p 0.
Proof.
  intros Hp. exists 0%Z, 0%Z. split; [| reflexivity].
  pose proof (Z.pow_pos_nonneg 2 p ltac:(lia) Hp). simpl. lia.
Qed.

Lemma representable_comp p x y : x == y -> representable p x -> representable p y.
Proof. intros E (m & e & Hm & Hx). exists m, e. split; [exact Hm |]. now rewrite <- E. Qed.

(** The numbers of a format that lie in the binade of [x], or above,
    are multiples of its unit in the last place. *)
Lemma representable_multiple p c u :
  (0 < p)%Z -> representable p c -> 2 ^ (u + p - 1) <= Qabs c ->
  exists k : Z, c == inject_Z k * 2 ^ u.
Proof.
  intros Hp (m & e & Hm & Hc) Hlo.
  assert (u <= e)%Z as He.
  { destruct (Z_le_gt_dec u e) as [H | H]; [exact H | exfalso].
    assert (Qabs c < 2 ^ (u + p - 1)); [| lra].
    rewrite Hc, Qabs_Qmult.
    rewrite (Qabs_pos (2 ^ e)) by (apply Qlt_le_weak, two_pow_pos).
    assert (Qabs (inject_Z m) == inject_Z (Z.abs m)) as -> by reflexivity.
    assert (inject_Z (Z.abs m) <= inject_Z (2 ^ p - 1)) as Hm'
      by (rewrite <- Zle_Qle; lia).
    assert (inject_Z (2 ^ p - 1) < 2 ^ p) as Hm''.
    { rewrite <- two_pow by lia. rewrite <- Zlt_Qlt. lia. }
    assert (2 ^ e <= 2 ^ (u - 1)) as He' by (apply two_pow_le; lia).
    assert (2 ^ (u + p - 1) == 2 ^ p * 2 ^ (u - 1)) as ->.
    { rewrite <- two_pow_add. now replace (p + (u - 1))%Z with (u + p - 1)%Z by lia. }
    pose proof (two_pow_pos e). pose proof (two_pow_pos (u - 1)).
    pose proof (two_pow_pos p).
    assert (0 <= inject_Z (Z.abs m)) by (change 0 with (inject_Z 0); rewrite <- Zle_Qle; lia).
    nra. }
  exists (m * 2 ^ (e - u))%Z.
  rewrite Hc, inject_Z_mult, two_pow by lia.
  rewrite <- Qmult_assoc, <- two_pow_add.
  now replace (e - u + u)%Z with e by lia.
Qed.

(** Rounding does not cross a number of the format. *)
Lemma rounded_ge p c x :
  (0 < p)%Z -> representable p c -> c <= x -> c <= rounded p x.
Proof.
  intros Hp Hc Hle.
  destruct (Q_dec x 0) as [[Hx | Hx] | Hx].
  - (* x < 0 *)
    assert (0 < - x) as Hx' by lra.
    assert (rounded p x == - rounded p (- x)) as ->.
    { rewrite rounded_opp. ring. }
    destruct (rounded_frame p (- x) Hp Hx') as (Hu & E1 & E2 & Y1 & Y2 & Hn & Hr).
    cbv zeta in *. rewrite Hr.
    set (e := exponent (- x)) in *. set (ulp := 2 ^ (e - p + 1)) in *.
    destruct (exponent_spec (- x) Hx') as [Hlo Hhi]. fold e in Hlo, Hhi.
    destruct (representable_multiple p c (e - p + 1) Hp Hc) as [k Hk].
    { replace (e - p + 1 + p - 1)%Z with e by lia.
      rewrite Qabs_neg by lra. lra. }
    fold ulp in Hk. rewrite Hk.
    assert (- x / ulp <= inject_Z (- k)) as Hy.
    { apply Qle_shift_div_r; [exact Hu |]. rewrite inject_Z_opp. lra. }
    apply nearest_even_le in Hy.
    rewrite Zle_Qle, inject_Z_opp in Hy. nra.
  - (* 0 < x *)
    destruct (rounded_frame p x Hp Hx) as (Hu & E1 & E2 & Y1 & Y2 & Hn & Hr).
    cbv zeta in *. rewrite Hr.
    set (e := exponent x) in *. set (ulp := 2 ^ (e - p + 1)) in *.
    destruct (exponent_spec x Hx) as [Hlo Hhi]. fold e in Hlo, Hhi.
    assert (2 ^ e <= inject_Z (nearest_even (x / ulp)) * ulp) as Hbig.
    { rewrite E1. destruct Hn as [Hn _]. rewrite Zle_Qle in Hn. nra. }
    destruct (Qlt_le_dec c (2 ^ e)) as [Hsmall | Hlarge]; [lra |].
    destruct (representable_multiple p c (e - p + 1) Hp Hc) as [k Hk].
    { replace (e - p + 1 + p - 1)%Z with e by lia.
      pose proof (two_pow_pos e). rewrite Qabs_pos by lra. exact Hlarge. }
    fold ulp in Hk. rewrite Hk.
    assert (inject_Z k <= x / ulp) as Hy.
    { apply Qle_shift_div_l; [exact Hu |]. lra. }
    apply nearest_even_ge in Hy. rewrite Zle_Qle in Hy. nra.
  - rewrite (rounded_zero p x Hx). lra.
Qed.

Lemma rounded_le p c x :
  (0 < p)%Z -> representable p c -> x <= c -> rounded p x <= c.
Proof.
  intros Hp Hc Hle.
  assert (- c <= rounded p (- x)) as H.
  { apply rounded_ge; [exact Hp | now apply representable_opp | lra]. }
  rewrite rounded_opp in H. lra.
Qed.

Lemma rounded_fixes p c : (0 < p)%Z -> representable p c -> rounded p c == c.
Proof.
  intros Hp Hc. apply Qle_antisym.
  - apply rounded_le; trivial. lra.
  - apply rounded_ge; trivial. lra.
Qed.

Lemma rounded_representable p x : (0 < p)%Z -> representable p (rounded p x).
Proof.
  intros Hp.
  assert (forall y, 0 < y -> representable p (rounded p y)) as Hpos.
  { intros y Hy.
    destruct (rounded_frame p y Hp Hy) as (Hu & E1 & E2 & Y1 & Y2 & Hn & Hr).
    cbv zeta in *.
    set (e := exponent y) in *. set (n := nearest_even _) in *.
    destruct (Z.eq_dec n (2 ^ p)%Z) as [E | E].
    - exists 1%Z, (e + 1)%Z. split.
      + pose proof (proj1 (Z.pow_gt_1 2 p ltac:(lia)) Hp). simpl. lia.
      + rewrite Hr, E, E2. ring.
    - exists n, (e - p + 1)%Z. split; [| exact Hr].
      pose proof (Z.pow_pos_nonneg 2 (p - 1) ltac:(lia) ltac:(lia)). lia. }
  destruct (Q_dec x 0) as [[Hx | Hx] | Hx].
  - assert (rounded p x == - rounded p (- x)) as E
      by (rewrite rounded_opp; ring).
    apply (representable_comp p (- rounded p (- x))); [now symmetry |].
    apply representable_opp, Hpos. lra.
  - now apply Hpos.
  - apply (representable_comp p 0); [symmetry; now apply rounded_zero |].
    apply representable_zero. lia.
Qed.

Lemma representable_weaken p p' x :
  (p <= p')%Z -> representable p x -> representable p' x.
Proof.
  intros Hp (m & e & Hm & Hx). exists m, e. split; [| exact Hx].
  pose proof (Z.pow_le_mono_r 2 p p' ltac:(lia) Hp). lia.
Qed.

Lemma representable_scale p j k x :
  (0 <= p)%Z -> (0 <= j)%Z -> (Z.abs k <= 2 ^ j)%Z -> representable p x ->
  representable (p + j) (inject_Z k * x).
Proof.
  intros Hp Hj Hk (m & e & Hm & Hx). exists (k * m)%Z, e. split.
  - rewrite Z.abs_mul, Z.pow_add_r by lia.
    pose proof (Z.abs_nonneg k). pose proof (Z.abs_nonneg m). nia.
  - rewrite Hx, inject_Z_mult. ring.
Qed.

Lemma is_binary32_representable x : is_binary32 x <-> representable 24 x.
Proof.
  unfold is_binary32, binary32. split; intros H.
  - apply (representable_comp 24 (rounded 24 x)); [exact H |].
    apply rounded_representable. lia.
  - apply rounded_fixes; [lia | exact H].
Qed.

(** What is stored lies between the least and the greatest of the
    three samples, and is a binary32 number. *)
Lemma mean3_stored_between p v q :
  is_binary32 p -> is_binary32 v -> is_binary32 q ->
  is_binary32 (mean3_stored p v q)
  /\ Qmin p (Qmin v q) <= mean3_stored p v q
  /\ mean3_stored p v q <= Qmax p (Qmax v q).
Proof.
  intros Hp Hv Hq.
  split.
  { apply is_binary32_representable. apply rounded_representable. lia. }
  apply is_binary32_representable in Hp, Hv, Hq.
  assert (forall c, representable 24 c ->
            representable 53 c /\ representable 53 (2 * c)
            /\ representable 53 (3 * c)) as Hrep.
  { intros c Hc.
    assert (24 <= 53)%Z as H1 by (intros H; discriminate H).
    assert (24 + 2 <= 53)%Z as H2 by (intros H; discriminate H).
    assert (0 <= 24)%Z as H3 by (intros H; discriminate H).
    assert (0 <= 2)%Z as H4 by (intros H; discriminate H).
    split; [apply (representable_weaken 24); [exact H1 | exact Hc] |].
    change 2 with (inject_Z 2). change 3 with (inject_Z 3).
    split; apply (representable_weaken (24 + 2)); try exact H2;
      apply representable_scale; trivial; intros H; discriminate H. }
  assert (forall c, representable 24 c -> c <= p -> c <= v -> c <= q ->
            c <= mean3_stored p v q) as Hlow.
  { intros c Hc H1 H2 H3. destruct (Hrep c Hc) as (R1 & R2 & R3).
    unfold mean3_stored, binary32, binary64.
    apply rounded_ge; [lia | exact Hc |].
    apply rounded_ge; [lia | exact R1 |].
    apply Qle_shift_div_l; [reflexivity |].
    assert (3 * c <= rounded 53 (rounded 53 (p + v) + q)) as H; [| lra].
    apply rounded_ge; [lia | exact R3 |].
    assert (2 * c <= rounded 53 (p + v)) as H'; [| lra].
    apply rounded_ge; [lia | exact R2 |]. lra. }
  assert (forall c, representable 24 c -> p <= c -> v <= c -> q <= c ->
            mean3_stored p v q <= c) as Hhigh.
  { intros c Hc H1 H2 H3. destruct (Hrep c Hc) as (R1 & R2 & R3).
    unfold mean3_stored, binary32, binary64.
    apply rounded_le; [lia | exact Hc |].
    apply rounded_le; [lia | exact R1 |].
    apply Qle_shift_div_r; [reflexivity |].
    assert (rounded 53 (rounded 53 (p + v) + q) <= 3 * c) as H; [| lra].
    apply rounded_le; [lia | exact R3 |].
    assert (rounded 53 (p + v) <= 2 * c) as H'; [| lra].
    apply rounded_le; [lia | exact R2 |]. lra. }
  split.
  - destruct (Q.min_spec v q) as [[? E1] | [? E1]],
      (Q.min_spec p (Qmin v q)) as [[? E2] | [? E2]];
      rewrite E2, ?E1; apply Hlow; trivial; lra.
  - destruct (Q.max_spec v q) as [[? E1] | [? E1]],
      (Q.max_spec p (Qmax v q)) as [[? E2] | [? E2]];
      rewrite E2, ?E1; apply Hhigh; trivial; lra.
Qed.

(** Rounding never takes a number that is 1 or more below 1. *)
Lemma rounded_whole precision x :
  (0 < precision)%Z -> 1 <= x -> 1 <= rounded precision x.
Proof.
  intros Hp Hx.
  assert (0 < x) as H0 by lra.
  destruct (exponent_spec x H0) as [Hlo Hhi].
  unfold rounded.
  destruct x as [n d]. simpl Qnum.
  destruct n as [| n | n]; try (unfold Qlt in H0; simpl in H0; lia).
  set (x := Z.pos n # d) in *. set (e := exponent x) in *. cbv zeta.
  rewrite Qred_correct.
  assert (~ (2 : Q) == 0) as H2 by (intros H; discriminate H).
  assert (0 <= e)%Z as He.
  { assert (2 ^ 0 < 2 ^ (e + 1)) as H
      by (change (2 ^ 0) with 1; lra).
    apply (Qpower_lt_compat_l_inv 2 0 (e + 1)) in H; [lia | reflexivity]. }
  set (ulp := 2 ^ (e - precision + 1)).
  assert (0 < ulp) as Hu by (apply Qpower_0_lt; reflexivity).
  assert (2 ^ e == 2 ^ (precision - 1) * ulp) as E.
  { unfold ulp. rewrite <- Qpower_plus by exact H2.
    now replace (precision - 1 + (e - precision + 1))%Z with e by lia. }
  assert (inject_Z (2 ^ (precision - 1)) <= x / ulp) as Hy.
  { rewrite two_pow by lia. apply Qle_shift_div_l; [exact Hu |].
    now rewrite <- E. }
  apply nearest_even_ge in Hy. rewrite Zle_Qle, two_pow in Hy by lia.
  assert (1 <= 2 ^ e) as H1 by (apply Qpower_1_le; [lra | exact He]).
  assert (0 < 2 ^ (precision - 1)) by (apply Qpower_0_lt; reflexivity).
  nra.
Qed.

Lemma division_binary64_whole a b :
  0 < b -> b <= a -> 1 <= division_binary64 a b.
Proof.
  intros Hb Ha. unfold division_binary64, binary64.
  apply rounded_whole; [lia |]. apply Qle_shift_div_l; lra.
Qed.


(** The same for a platform that rounds what it stores, as long as the
    value stored lies between the least and the greatest of the three
    samples it is made of, for samples of a kind [P] that the store keeps. *)
Lemma between_step_le p v q w :
  Qmin p (Qmin v q) <= w -> w <= Qmax p (Qmax v q) ->
  Qabs (w - p) + Qabs (q - w) <= Qabs (v - p) + Qabs (q - v).
Proof.
  intros Hlo Hhi.
  destruct (Q.min_spec v q) as [[? ?] | [? ?]],
    (Q.min_spec p (Qmin v q)) as [[? ?] | [? ?]],
    (Q.max_spec v q) as [[? ?] | [? ?]],
    (Q.max_spec p (Qmax v q)) as [[? ?] | [? ?]];
    abs_cases; lra.
Qed.

Lemma get_Forall (P : Q -> Prop) (b : list Q) j :
  Forall P b -> (j < length b)%nat -> P (get b j).
Proof.
  intros H Hj. destruct (lookup_lt_is_Some_2 b j Hj) as [v Hv].
  unfold get. rewrite Hv. simpl. eapply Forall_lookup_1; eauto.
Qed.

Lemma smoothify_body_with_length mean3 i b :
  length (smoothify_body_with mean3 i b) = length b.
Proof. unfold smoothify_body_with. apply length_insert. Qed.

Lemma smoothify_body_with_le (P : Q -> Prop) mean3 i b :
  (forall p v q, P p -> P v -> P q ->
     P (mean3 p v q)
     /\ Qmin p (Qmin v q) <= mean3 p v q
     /\ mean3 p v q <= Qmax p (Qmax v q)) ->
  Forall P b -> (i < length b)%nat ->
  Forall P (smoothify_body_with mean3 i b)
  /\ circular_variation (smoothify_body_with mean3 i b) <= circular_variation b.
Proof.
  intros Hmean Hb Hi.
  assert (P (get b ((length b + i - 1) mod length b))) as Hp
    by (apply get_Forall; [exact Hb | apply Nat.mod_upper_bound; lia]).
  assert (P (get b i)) as Hv by now apply get_Forall.
  assert (P (get b ((i + 1) mod length b))) as Hq
    by (apply get_Forall; [exact Hb | apply Nat.mod_upper_bound; lia]).
  destruct (Hmean _ _ _ Hp Hv Hq) as (Hw & Hlo & Hhi).
  split; [unfold smoothify_body_with; now apply Forall_insert |].
  destruct (decide (2 <= length b)%nat) as [Hn | Hn].
  - pose proof (circular_variation_insert b i
      (mean3 (get b ((length b + i - 1) mod length b)) (get b i)
         (get b ((i + 1) mod length b))) Hn Hi) as H.
    pose proof (between_step_le _ _ _ _ Hlo Hhi) as Hle.
    unfold smoothify_body_with. lra.
  - rewrite !circular_variation_short;
      rewrite ?smoothify_body_with_length; lra || lia.
Qed.

Lemma steps_with_length mean3 k b :
  length (for_loop k (smoothify_body_with mean3) b) = length b.
Proof.
  induction k as [|k IH]; [reflexivity |].
  now rewrite for_loop_S, smoothify_body_with_length.
Qed.

Lemma smoothify_with_le (P : Q -> Prop) mean3 b :
  (forall p v q, P p -> P v -> P q ->
     P (mean3 p v q)
     /\ Qmin p (Qmin v q) <= mean3 p v q
     /\ mean3 p v q <= Qmax p (Qmax v q)) ->
  Forall P b ->
  Forall P (smoothify_with mean3 b)
  /\ circular_variation (smoothify_with mean3 b) <= circular_variation b.
Proof.
  intros Hmean Hb. unfold smoothify_with.
  assert (forall k, (k <= length b)%nat ->
            Forall P (for_loop k (smoothify_body_with mean3) b)
            /\ circular_variation (for_loop k (smoothify_body_with mean3) b)
               <= circular_variation b) as Hk.
  { induction k as [|k IH]; intros Hk; [split; [exact Hb | apply Qle_refl] |].
    rewrite for_loop_S. destruct (IH ltac:(lia)) as [HP Hle].
    destruct (smoothify_body_with_le P mean3 k
                (for_loop k (smoothify_body_with mean3) b) Hmean HP)
      as [HP' Hle']; [rewrite steps_with_length; lia |].
    split; [exact HP' | lra]. }
  apply Hk. lia.
Qed.

Lemma smoothify_with_iter (P : Q -> Prop) mean3 b k :
  (forall p v q, P p -> P v -> P q ->
     P (mean3 p v q)
     /\ Qmin p (Qmin v q) <= mean3 p v q
     /\ mean3 p v q <= Qmax p (Qmax v q)) ->
  Forall P b ->
  Forall P (Nat.iter k (smoothify_with mean3) b)
  /\ circular_variation (Nat.iter k (smoothify_with mean3) b)
     <= circular_variation b.
Proof.
  intros Hmean Hb. induction k as [|k [HP Hle]]; [split; [exact Hb | apply Qle_refl] |].
  simpl. destruct (smoothify_with_le P mean3 _ Hmean HP) as [HP' Hle'].
  split; [exact HP' | lra].
Qed.

(** The mean of the rationals lies between the three. *)
Lemma mean_between p v q :
  Qmin p (Qmin v q) <= (p + v + q) / 3 /\ (p + v + q) / 3 <= Qmax p (Qmax v q).
Proof.
  pose proof (mean_times_three p v q) as Hm.
  revert Hm. generalize ((p + v + q) / 3). intros m Hm.
  destruct (Q.min_spec v q) as [[? ?] | [? ?]],
    (Q.min_spec p (Qmin v q)) as [[? ?] | [? ?]],
    (Q.max_spec v q) as [[? ?] | [? ?]],
    (Q.max_spec p (Qmax v q)) as [[? ?] | [? ?]];
    split; lra.
Qed.

(** [smoothify] is the loop that stores the exact mean. *)
Lemma smoothify_exact b :
  smoothify b = smoothify_with (fun p v q => (p + v + q) / 3) b.
Proof. reflexivity. Qed.

Lemma step_value b j :
  (j < length b)%nat ->
  get (for_loop (S j) smoothify_body b) j
  = (get (for_loop j smoothify_body b) ((length b + j - 1) mod length b)
     + get (for_loop j smoothify_body b) j
     + get (for_loop j smoothify_body b) ((j + 1) mod length b)) / 3.
Proof.
  intros Hj. rewrite for_loop_S. unfold smoothify_body.
  rewrite get_insert_eq by (rewrite steps_length; exact Hj).
  now rewrite steps_length.
Qed.

(** What [smoothify] computes: each sample becomes the mean of itself,
    of its successor as it was, and of its predecessor as the loop left
    it; the first sample sees the old last one, the last sample the new
    first one. *)
Lemma smoothify_recurrence b k :
  (2 <= length b)%nat -> (k < length b)%nat ->
  3 * get (smoothify b) k
  == (if decide (k = 0)%nat then get b (length b - 1)
      else get (smoothify b) (k - 1))
     + get b k
     + (if decide (k + 1 = length b)%nat then get (smoothify b) 0
        else get b (k + 1)).
Proof.
  intros Hn Hk. unfold smoothify.
  rewrite (steps_frozen (S k) (length b) b k) by lia.
  rewrite step_value by exact Hk. rewrite mean_times_three.
  rewrite prev_index, next_index by exact Hk.
  rewrite (steps_untouched k b k) by lia.
  assert (get (for_loop k smoothify_body b)
              (if decide (k = 0)%nat then (length b - 1)%nat else (k - 1)%nat)
          = if decide (k = 0)%nat then get b (length b - 1)
            else get (for_loop (length b) smoothify_body b) (k - 1)) as ->.
  { case_decide.
    - apply steps_untouched. lia.
    - symmetry. apply steps_frozen; lia. }
  assert (get (for_loop k smoothify_body b)
              (if decide (k + 1 = length b)%nat then 0%nat else (k + 1)%nat)
          = if decide (k + 1 = length b)%nat
            then get (for_loop (length b) smoothify_body b) 0
            else get b (k + 1)) as ->.
  { case_decide.
    - symmetry. apply steps_frozen; lia.
    - apply steps_untouched. lia. }
  reflexivity.
Qed.

(** Unfolding of the sequencing of computations. *)
Ltac run :=
  unfold mbind, M_bind, bind, mret, M_ret, ret, gets, modify, emit, throw,
         defined; simpl.

Section Properties.

Variable Math_sin : Q -> Q.
Variable Math_random : nat -> Q.
Variable Math_div : Q -> Q -> Q.

(** What is assumed of the two functions.  ECMAScript fixes
    [Math.sin(0) = 0] and the range of [Math.random]; that the approximated
    sine stays within [-1, 1] holds of every implementation. *)
Hypothesis Math_sin_range : forall x, in_range (Math_sin x).
Hypothesis Math_sin_zero : forall x, x == 0 -> Math_sin x == 0.
Hypothesis Math_random_range : forall k, 0 <= Math_random k /\ Math_random k < 1.

(** What is assumed of the division, and holds of the correctly
    rounded quotient of two binary64 numbers: it is 1 or more when the
    dividend is not below the positive divisor, and it lies in [0, 1) when
    the positive dividend is below the divisor (no quotient of two such
    numbers is within half a unit in the last place of 1). *)
Hypothesis Math_div_whole : forall a b, 0 < b -> b <= a -> 1 <= Math_div a b.
Hypothesis Math_div_fraction :
  forall a b, 0 < a -> a < b -> 0 <= Math_div a b /\ Math_div a b < 1.

(** ** The clamp invariant of the mutation operators *)

Lemma sinify_valid buffer amount :
  Forall in_range buffer ->
  valid_buffer (length buffer) (sinify Math_sin buffer amount).
Proof.
  intros H. unfold sinify. apply clamping_loop; [now split |].
  intros. apply fitRange_in_range.
Qed.

Lemma squarify_valid buffer amount :
  Forall in_range buffer -> valid_buffer (length buffer) (squarify buffer amount).
Proof.
  intros H. unfold squarify. apply clamping_loop; [now split |].
  intros. apply fitRange_in_range.
Qed.

Lemma peakify_valid buffer amount :
  Forall in_range buffer -> valid_buffer (length buffer) (peakify buffer amount).
Proof.
  intros H. unfold peakify. apply clamping_loop; [now split |].
  intros. apply fitRange_in_range.
Qed.

Lemma nullify_valid buffer amount :
  Forall in_range buffer -> valid_buffer (length buffer) (nullify buffer amount).
Proof.
  intros H. unfold nullify. apply clamping_loop; [now split |].
  intros. apply fitRange_in_range.
Qed.

Lemma offsettify_valid buffer amount :
  Forall in_range buffer -> valid_buffer (length buffer) (offsettify buffer amount).
Proof.
  intros H. unfold offsettify.
  apply (for_loop_invariant (fun _ b => valid_buffer (length buffer) b));
    [now split |].
  intros i b _ [Hl Hr]. split.
  - now rewrite !length_insert.
  - rewrite list_insert_insert_eq. apply Forall_insert; trivial.
    apply fitRange_in_range.
Qed.

Lemma smoothify_valid buffer :
  Forall in_range buffer -> valid_buffer (length buffer) (smoothify buffer).
Proof.
  intros H. unfold smoothify, smoothify_body. apply clamping_loop; [now split |].
  intros i b [_ Hb]. apply in_range_mean; now apply get_in_range.
Qed.

Lemma noisify_valid buffer amount calls :
  Forall in_range buffer ->
  valid_buffer (length buffer) (noisify Math_random buffer amount calls).1.
Proof.
  intros H. unfold noisify.
  apply (clamping_loop_random (length buffer) (length buffer)
           (fun i b k => fitRange (get b i + Math_random k * (2 # 100) * amount
                                   - (1 # 100) * amount) (-1) 1));
    [now split |].
  intros. apply fitRange_in_range.
Qed.

Lemma randomizify_valid buffer calls :
  Forall in_range buffer ->
  valid_buffer (length buffer) (randomizify Math_random buffer calls).1.
Proof.
  intros H. unfold randomizify.
  apply (clamping_loop_random (length buffer) (length buffer)
           (fun i b k => Math_random k * 2 - 1));
    [now split |].
  intros i b k _. destruct (Math_random_range k). split; lra.
Qed.

(** C1.  Every mutation operator, applied with any amount to a buffer
    whose samples all lie in [-1, 1], leaves a buffer of the same length
    whose samples all lie in [-1, 1]. *)
Theorem mutations_keep_length_and_range kind buffer amount calls :
  Forall in_range buffer ->
  length (mutations Math_sin Math_random kind buffer amount calls).1
    = length buffer
  /\ Forall in_range (mutations Math_sin Math_random kind buffer amount calls).1.
Proof.
  intros H.
  change (valid_buffer (length buffer)
            (mutations Math_sin Math_random kind buffer amount calls).1).
  destruct kind; simpl.
  - now apply sinify_valid.
  - now apply squarify_valid.
  - now apply peakify_valid.
  - now apply nullify_valid.
  - now apply offsettify_valid.
  - now apply smoothify_valid.
  - now apply noisify_valid.
  - now apply randomizify_valid.
Qed.

(** ** [offsettify] *)

Lemma offsettify_is_map buffer amount :
  offsettify buffer amount = offsettify_spec buffer amount.
Proof.
  unfold offsettify, offsettify_spec.
  rewrite (pointwise_loop (fun _ v => fitRange (v + (1 # 100) * amount) (-1) 1)).
  - apply list_eq. intros j. now rewrite list_lookup_imap, list_lookup_fmap.
  - intros i b _. apply list_insert_insert_eq.
Qed.

(** C7.  [offsettify] with amount [a] adds [0.01 * a] to every sample
    and then clamps it into [-1, 1]; with amount 5 a sample [v] of
    [-1, 1] becomes [v + 0.05], or 1.0 where that would exceed it. *)
Theorem offsettify_adds_then_clamps buffer amount :
  offsettify buffer amount = offsettify_spec buffer amount
  /\ forall i v, buffer !! i = Some v -> in_range v ->
       exists w, offsettify buffer 5 !! i = Some w
                 /\ w == Qmin 1 (v + (5 # 100)).
Proof.
  split; [apply offsettify_is_map |].
  intros i v Hv [Hlo Hhi]. rewrite offsettify_is_map. unfold offsettify_spec.
  rewrite list_lookup_fmap, Hv. simpl. eexists; split; [reflexivity |].
  destruct (fitRange_cases (v + (1 # 100) * 5) (-1) 1)
    as [[? ->] | [(? & ? & ->) | (? & ? & ->)]].
  - lra.
  - rewrite Q.min_l; lra.
  - rewrite Q.min_r; lra.
Qed.

(** ** Amount 0 *)

Lemma sinify_zero buffer :
  Forall in_range buffer -> Forall2 Qeq (sinify Math_sin buffer 0) buffer.
Proof.
  intros H. unfold sinify.
  rewrite (pointwise_loop (fun i v =>
    fitRange (v + Math_sin (2 * Math_PI / of_nat (length buffer) * of_nat i)
                  * (1 # 100) * 0) (-1) 1)) by reflexivity.
  apply imap_fixes. intros i v Hv. apply fitRange_fixes; [lra |].
  eapply Forall_lookup_1; eauto.
Qed.

Lemma squarify_zero buffer :
  Forall in_range buffer -> Forall2 Qeq (squarify buffer 0) buffer.
Proof.
  intros H. unfold squarify.
  rewrite (pointwise_loop (fun i v =>
    fitRange (if ltb (of_nat i) (of_nat (length buffer) / 2)
              then v + (1 # 100) * 0 else v - (1 # 100) * 0) (-1) 1)).
  - apply imap_fixes. intros i v Hv. apply fitRange_fixes.
    + destruct (ltb _ _); lra.
    + eapply Forall_lookup_1; eauto.
  - intros i b Hl. now rewrite Hl.
Qed.

Lemma peakify_zero buffer :
  Forall in_range buffer -> Forall2 Qeq (peakify buffer 0) buffer.
Proof.
  intros H. unfold peakify.
  rewrite (pointwise_loop (fun i v =>
    fitRange (v - of_nat i * (1 # 10000) * 0) (-1) 1)) by reflexivity.
  apply imap_fixes. intros i v Hv. apply fitRange_fixes; [lra |].
  eapply Forall_lookup_1; eauto.
Qed.

Lemma nullify_zero buffer :
  Forall in_range buffer -> Forall2 Qeq (nullify buffer 0) buffer.
Proof.
  intros H. unfold nullify.
  rewrite (pointwise_loop (fun i v =>
    fitRange (if gtb v 0 then v - (1 # 100) * 0
              else if ltb v 0 then v + (1 # 100) * 0 else v) (-1) 1))
    by reflexivity.
  apply imap_fixes. intros i v Hv. apply fitRange_fixes.
  - destruct (gtb v 0); [lra |]. destruct (ltb v 0); lra.
  - eapply Forall_lookup_1; eauto.
Qed.

Lemma offsettify_zero buffer :
  Forall in_range buffer -> Forall2 Qeq (offsettify buffer 0) buffer.
Proof.
  intros H. rewrite offsettify_is_map. unfold offsettify_spec.
  apply Forall2_fmap_l, Forall_Forall2_diag.
  eapply Forall_impl; [exact H |]. intros v Hv. simpl.
  apply fitRange_fixes; [lra | exact Hv].
Qed.

(** C10.  With amount 0 each of [sinify], [squarify], [peakify],
    [nullify] and [offsettify] leaves every sample of a buffer with
    samples in [-1, 1] unchanged. *)
Theorem amount_zero_is_identity kind buffer calls :
  In kind amount_scaled ->
  Forall in_range buffer ->
  Forall2 Qeq (mutations Math_sin Math_random kind buffer 0 calls).1 buffer.
Proof.
  intros Hk H. unfold amount_scaled in Hk. simpl in Hk.
  destruct Hk as [<- | [<- | [<- | [<- | [<- | []]]]]]; simpl.
  - now apply sinify_zero.
  - now apply squarify_zero.
  - now apply peakify_zero.
  - now apply nullify_zero.
  - now apply offsettify_zero.
Qed.

(** ** The generator *)

(** The samples [audioBuffer] leaves in the buffer it returns, by
    wave type, [length] being the quotient [sampleRate / freq] as the
    platform computes it. *)
Lemma audioBuffer_saw st rate freq :
  webaudio st = VContext rate -> ToLength (Math_div rate freq) <> 0%nat ->
  exists st',
    audioBuffer Math_sin Math_random Math_div freq "saw" st = Ok (length (heap st)) st'
    /\ heap st' !! length (heap st) = Some
         {| sampleRate := rate;
            channel := for_loop (trips (Math_div rate freq)) (fun i data =>
                         <[i := 1 - (2 * of_nat i / (Math_div rate freq))]> data)
                         (replicate (ToLength (Math_div rate freq)) 0) |}.
Proof.
  intros Hw Hn.
  unfold audioBuffer, context_sampleRate, createBuffer, getChannelData,
    setChannelData.
  run. rewrite Hw. simpl.
  destruct (Nat.eqb_spec (ToLength (Math_div rate freq)) 0); [contradiction |].
  simpl. rewrite lookup_snoc. simpl.
  eexists. split; [reflexivity |]. simpl.
  rewrite alter_snoc. apply lookup_snoc.
Qed.

Lemma audioBuffer_square st rate freq :
  webaudio st = VContext rate -> ToLength (Math_div rate freq) <> 0%nat ->
  exists st',
    audioBuffer Math_sin Math_random Math_div freq "square" st = Ok (length (heap st)) st'
    /\ heap st' !! length (heap st) = Some
         {| sampleRate := rate;
            channel := for_loop (trips (Math_div rate freq)) (fun i data =>
                         <[i := if ltb (of_nat i) (Math_div rate freq / 2)
                                then 1 else -1]> data)
                         (replicate (ToLength (Math_div rate freq)) 0) |}.
Proof.
  intros Hw Hn.
  unfold audioBuffer, context_sampleRate, createBuffer, getChannelData,
    setChannelData.
  run. rewrite Hw. simpl.
  destruct (Nat.eqb_spec (ToLength (Math_div rate freq)) 0); [contradiction |].
  simpl. rewrite lookup_snoc. simpl.
  eexists. split; [reflexivity |]. simpl.
  rewrite alter_snoc, lookup_snoc. simpl. do 2 f_equal.
  apply for_loop_ext. intros i d _. now destruct (ltb _ _).
Qed.

Lemma audioBuffer_noise st rate freq :
  webaudio st = VContext rate -> ToLength (Math_div rate freq) <> 0%nat ->
  ToLength (32 * Math_div rate freq) <> 0%nat ->
  exists st',
    audioBuffer Math_sin Math_random Math_div freq "noise" st
      = Ok (S (length (heap st))) st'
    /\ heap st' !! S (length (heap st)) = Some
         {| sampleRate := rate;
            channel := (for_loop (trips (32 * Math_div rate freq))
                          (fun i '(data, calls) =>
                             (<[i := Math_random calls * 2 - 1]> data, S calls))
                          (replicate (ToLength (32 * Math_div rate freq)) 0,
                           draws st)).1 |}.
Proof.
  intros Hw Hn Hn'.
  unfold audioBuffer, context_sampleRate, createBuffer, getChannelData,
    setChannelData.
  run. rewrite Hw. simpl.
  destruct (Nat.eqb_spec (ToLength (Math_div rate freq)) 0); [contradiction |].
  simpl. rewrite lookup_snoc. simpl.
  destruct (Nat.eqb_spec (ToLength (32 * Math_div rate freq)) 0); [contradiction |].
  simpl.
  set (h1 := heap st ++ [ _ ]).
  assert (length h1 = S (length (heap st))) as Hlen
    by (unfold h1; rewrite length_app; simpl; lia).
  rewrite lookup_snoc. simpl.
  destruct (for_loop _ _ _) as [data calls] eqn:E.
  rewrite <- Hlen.
  eexists. split; [reflexivity |]. simpl.
  rewrite alter_snoc, lookup_snoc. reflexivity.
Qed.

Lemma audioBuffer_sine st rate freq type :
  webaudio st = VContext rate -> ToLength (Math_div rate freq) <> 0%nat ->
  String.eqb type "saw" = false -> String.eqb type "square" = false ->
  String.eqb type "noise" = false ->
  exists st',
    audioBuffer Math_sin Math_random Math_div freq type st = Ok (length (heap st)) st'
    /\ heap st' !! length (heap st) = Some
         {| sampleRate := rate;
            channel := for_loop (trips (Math_div rate freq)) (fun i data =>
                         <[i := Math_sin (2 * Math_PI / (Math_div rate freq) * of_nat i)]>
                           data)
                         (replicate (ToLength (Math_div rate freq)) 0) |}.
Proof.
  intros Hw Hn E1 E2 E3.
  unfold audioBuffer, context_sampleRate, createBuffer, getChannelData,
    setChannelData.
  run. rewrite Hw. simpl.
  destruct (Nat.eqb_spec (ToLength (Math_div rate freq)) 0); [contradiction |].
  simpl. rewrite lookup_snoc. simpl. rewrite E1, E2, E3.
  eexists. split; [reflexivity |]. simpl.
  rewrite alter_snoc. apply lookup_snoc.
Qed.

Lemma period_fits rate freq :
  0 < freq -> freq <= rate -> Math_div rate freq < length_limit ->
  1 <= Math_div rate freq /\ ToLength (Math_div rate freq) <> 0%nat.
Proof.
  intros Hf Hr Hl. pose proof (Math_div_whole rate freq Hf Hr) as H1.
  split; [exact H1 |].
  assert (of_nat 1 <= Math_div rate freq) as H
    by (change (of_nat 1) with 1; exact H1).
  apply ToLength_ge in H; trivial. lia.
Qed.

Lemma period_fits_noise rate freq :
  0 < freq -> freq <= rate -> 32 * Math_div rate freq < length_limit ->
  ToLength (Math_div rate freq) <> 0%nat
  /\ ToLength (32 * Math_div rate freq) <> 0%nat.
Proof.
  intros Hf Hr Hl. pose proof (Math_div_whole rate freq Hf Hr) as H1.
  split.
  - apply period_fits; trivial. lra.
  - assert (of_nat 1 <= 32 * Math_div rate freq) as H
      by (change (of_nat 1) with 1; lra).
    apply ToLength_ge in H; trivial. lia.
Qed.

Lemma random_sample_in_range k : in_range (Math_random k * 2 - 1).
Proof. destruct (Math_random_range k). split; lra. Qed.

Lemma saw_sample_in_range length i :
  of_nat i < length -> in_range (1 - 2 * of_nat i / length).
Proof.
  intros Hi.
  pose proof (of_nat_nonneg i) as H0.
  assert (0 < length) as Hl by lra.
  assert (0 <= 2 * of_nat i / length) by (apply Qle_shift_div_l; lra).
  assert (2 * of_nat i / length <= 2) by (apply Qle_shift_div_r; lra).
  split; lra.
Qed.

(** The loop of the noise branch keeps the length of the array. *)
Lemma random_fill_loop (g : nat -> Q) m (data : list Q) calls :
  (for_loop m (fun i '(d, c) => (<[i := g c]> d, S c)) (data, calls)).2
  = (calls + m)%nat
  /\ length (for_loop m (fun i '(d, c) => (<[i := g c]> d, S c)) (data, calls)).1
     = length data
  /\ forall j, (j < m)%nat -> (j < length data)%nat ->
       (for_loop m (fun i '(d, c) => (<[i := g c]> d, S c)) (data, calls)).1 !! j
       = Some (g (calls + j)%nat).
Proof.
  induction m as [|m IH].
  - simpl. split; [lia |]. split; [reflexivity |]. intros; lia.
  - rewrite for_loop_S. destruct IH as (E2 & El & Ej).
    destruct (for_loop m _ _) as [d c]. simpl in *. subst c.
    split; [lia |]. split; [now rewrite length_insert |].
    intros j Hj Hjl. destruct (decide (j = m)) as [-> | Hne].
    + apply list_lookup_insert_eq. lia.
    + rewrite list_lookup_insert_ne by congruence. apply Ej; lia.
Qed.

(** C2, as the code has it.  For every wave type and every positive
    frequency [f <= sampleRate / 2], [audioBuffer] returns a buffer whose
    length is the quotient [sampleRate / f], as the platform computes it,
    with its fraction dropped (for noise: 32 times that quotient, with its
    fraction dropped), as long as that length is below 2^32; and every
    sample of the buffer lies in [-1, 1]. *)
Theorem audioBuffer_length_and_range st rate freq type :
  webaudio st = VContext rate ->
  0 < freq -> freq <= rate / 2 ->
  frames type (Math_div rate freq) < length_limit ->
  exists r st' b,
    audioBuffer Math_sin Math_random Math_div freq type st = Ok r st'
    /\ heap st' !! r = Some b
    /\ length (channel b)
       = Z.to_nat (Qfloor (frames type (Math_div rate freq)))
    /\ Forall in_range (channel b).
Proof.
  intros Hw Hf Hr Hl.
  assert (freq <= rate) as Hr'.
  { unfold Qdiv in Hr. change (/ 2) with (1 # 2) in Hr. lra. }
  pose proof (Math_div_whole rate freq Hf Hr') as H1.
  unfold frames in *.
  destruct (String.eqb type "noise") eqn:E3.
  { apply String.eqb_eq in E3. subst type.
    destruct (period_fits_noise rate freq Hf Hr' Hl) as [Hn Hn'].
    destruct (audioBuffer_noise st rate freq Hw Hn Hn') as (st' & Hrun & Hb).
    eexists _, st', _. split; [exact Hrun |]. split; [exact Hb |]. simpl.
    destruct (random_fill_loop (fun c => Math_random c * 2 - 1)
                (trips (32 * Math_div rate freq))
                (replicate (ToLength (32 * Math_div rate freq)) 0) (draws st))
      as (_ & Hlen & _).
    split.
    - rewrite Hlen, length_replicate. apply ToLength_floor; trivial. lra.
    - apply (clamping_loop_random (ToLength (32 * Math_div rate freq)) _
                (fun i b k => Math_random k * 2 - 1));
        [apply zeros_valid |].
      intros. apply random_sample_in_range. }
  destruct (period_fits rate freq Hf Hr' Hl) as [_ Hn].
  assert (ToLength (Math_div rate freq)
          = Z.to_nat (Qfloor (Math_div rate freq))) as Hfloor
    by (apply ToLength_floor; trivial; lra).
  destruct (String.eqb type "saw") eqn:E1.
  { apply String.eqb_eq in E1. subst type.
    destruct (audioBuffer_saw st rate freq Hw Hn) as (st' & Hrun & Hb).
    eexists _, st', _. split; [exact Hrun |]. split; [exact Hb |]. simpl.
    rewrite <- Hfloor.
    apply fill_loop_valid; [apply zeros_valid |].
    intros i Hi. apply saw_sample_in_range. now apply trips_spec. }
  destruct (String.eqb type "square") eqn:E2.
  { apply String.eqb_eq in E2. subst type.
    destruct (audioBuffer_square st rate freq Hw Hn) as (st' & Hrun & Hb).
    eexists _, st', _. split; [exact Hrun |]. split; [exact Hb |]. simpl.
    rewrite <- Hfloor.
    apply fill_loop_valid; [apply zeros_valid |].
    intros i Hi. destruct (ltb _ _); split; lra. }
  destruct (audioBuffer_sine st rate freq type Hw Hn E1 E2 E3)
    as (st' & Hrun & Hb).
  eexists _, st', _. split; [exact Hrun |]. split; [exact Hb |]. simpl.
  rewrite <- Hfloor.
  apply fill_loop_valid; [apply zeros_valid |].
  intros. apply Math_sin_range.
Qed.

(** The samples of a generated square buffer. *)
Lemma audioBuffer_square_samples st rate freq :
  webaudio st = VContext rate ->
  0 < freq -> freq <= rate -> Math_div rate freq < length_limit ->
  exists r st' b,
    audioBuffer Math_sin Math_random Math_div freq "square" st = Ok r st'
    /\ heap st' !! r = Some b
    /\ length (channel b) = ToLength (Math_div rate freq)
    /\ forall i, (i < length (channel b))%nat ->
         (of_nat i < Math_div rate freq / 2 -> channel b !! i = Some 1)
         /\ (Math_div rate freq / 2 <= of_nat i -> channel b !! i = Some (-1)).
Proof.
  intros Hw Hf Hr Hl.
  destruct (period_fits rate freq Hf Hr Hl) as [H1 Hn].
  destruct (audioBuffer_square st rate freq Hw Hn) as (st' & Hrun & Hb).
  eexists _, st', _. split; [exact Hrun |]. split; [exact Hb |]. simpl.
  split; [now rewrite fill_loop_length, length_replicate |].
  intros i Hi. rewrite fill_loop_length, length_replicate in Hi.
  rewrite fill_loop_lookup.
  - split; intros Hh.
    + apply ltb_true in Hh. now rewrite Hh.
    + apply ltb_false in Hh. now rewrite Hh.
  - apply trips_spec. apply ToLength_spec in Hi; lra.
  - now rewrite length_replicate.
Qed.

(** C6, as the code has it.  A generated square buffer holds +1 at
    every index [i < length / 2] and -1 at every other index, where
    [length] is the quotient [sampleRate / freq] that the source computes
    and compares with, not the number of samples; a generated sine buffer
    holds 0 at index 0.  The quotient is below 2^32. *)
Theorem square_halves_and_sine_start st rate freq :
  webaudio st = VContext rate ->
  0 < freq -> freq <= rate -> Math_div rate freq < length_limit ->
  (exists r st' b,
     audioBuffer Math_sin Math_random Math_div freq "square" st = Ok r st'
     /\ heap st' !! r = Some b
     /\ forall i, (i < length (channel b))%nat ->
          (of_nat i < Math_div rate freq / 2 -> channel b !! i = Some 1)
          /\ (Math_div rate freq / 2 <= of_nat i -> channel b !! i = Some (-1)))
  /\ (exists r st' b v,
       audioBuffer Math_sin Math_random Math_div freq "sine" st = Ok r st'
       /\ heap st' !! r = Some b
       /\ channel b !! 0%nat = Some v /\ v == 0).
Proof.
  intros Hw Hf Hr Hl.
  destruct (period_fits rate freq Hf Hr Hl) as [H1 Hn].
  split.
  - destruct (audioBuffer_square_samples st rate freq Hw Hf Hr Hl)
      as (r & st' & b & Hrun & Hb & _ & Hs).
    exists r, st', b. auto.
  - destruct (audioBuffer_sine st rate freq "sine" Hw Hn) as (st' & Hrun & Hb);
      try reflexivity.
    eexists _, st', _, _. split; [exact Hrun |]. split; [exact Hb |]. simpl.
    split.
    + apply fill_loop_lookup.
      * apply trips_spec. change (of_nat 0) with 0. lra.
      * rewrite length_replicate. lia.
    + apply Math_sin_zero. change (of_nat 0) with 0. lra.
Qed.

(** ** [smoothify] *)

(** C8, as the code has it.  An application of [smoothify] never
    increases the circular total variation of a buffer, the sum of
    [|sample[i] - sample[i-1]|] over every index, index 0 taking the last
    sample as its predecessor.  This holds of the loop as the platform
    runs it on the binary32 samples of a [Float32Array], the sums and the
    quotient rounded to binary64 and the store to binary32
    ([smoothify_with mean3_stored]), the samples staying binary32 numbers;
    and it holds of the loop with the mean of the rationals ([smoothify]).
    It holds of every such buffer, the square ones included, and of every
    number of applications. *)
Theorem smoothify_never_increases_circular_variation b k :
  Forall is_binary32 b ->
  (Forall is_binary32 (Nat.iter k (smoothify_with mean3_stored) b)
   /\ circular_variation (Nat.iter (S k) (smoothify_with mean3_stored) b)
      <= circular_variation (Nat.iter k (smoothify_with mean3_stored) b)
   /\ circular_variation (Nat.iter k (smoothify_with mean3_stored) b)
      <= circular_variation b)
  /\ (circular_variation (Nat.iter (S k) smoothify b)
      <= circular_variation (Nat.iter k smoothify b)
      /\ circular_variation (Nat.iter k smoothify b) <= circular_variation b).
Proof.
  intros Hb. split.
  - destruct (smoothify_with_iter is_binary32 mean3_stored b k
                mean3_stored_between Hb) as [HP Hle].
    split; [exact HP |]. split; [| exact Hle].
    simpl. now apply (smoothify_with_le is_binary32 mean3_stored _
                        mean3_stored_between).
  - split; [simpl; apply smoothify_le |].
    induction k as [|k IH]; [apply Qle_refl |].
    simpl. eapply Qle_trans; [apply smoothify_le | exact IH].
Qed.

(** ** Installing a buffer *)

Lemma sounding_app t1 t2 active :
  sounding (t1 ++ t2) active = sounding t2 (sounding t1 active).
Proof.
  revert active. induction t1 as [|e t1 IH]; intros active; [reflexivity |].
  destruct e; simpl; apply IH.
Qed.

Lemma newBufferSource_run st b g :
  volume st = Some g ->
  (forall old, audio st = Some old -> (old < length (nodes st))%nat) ->
  exists st',
    newBufferSource b st = Ok tt st'
    /\ audio st' = Some (length (nodes st))
    /\ log st' = log st
         ++ [EvCreateSource (length (nodes st)); EvLoop (length (nodes st));
             EvConnect (length (nodes st)); EvSetBuffer (length (nodes st)) b;
             EvStart (length (nodes st))]
         ++ match audio st with Some old => [EvStop old] | None => [] end
    /\ nodes st' !! length (nodes st)
       = Some {| loop := true; connected := true; buffer := Some b;
                 playstate := Playing |}
    /\ heap st' = heap st /\ draws st' = draws st /\ same_page st st'.
Proof.
  intros Hv Hold.
  unfold newBufferSource, createBufferSource, set_loop, connect_volume,
    set_buffer, start, stop, update_node.
  run. rewrite Hv. simpl.
  destruct (audio st) as [old|] eqn:Ha; simpl.
  - eexists. split; [reflexivity |]. simpl. rewrite <- !app_assoc. simpl.
    repeat split; trivial.
    rewrite !alter_snoc. simpl.
    rewrite list_lookup_alter_ne by (specialize (Hold old eq_refl); lia).
    apply lookup_snoc.
  - eexists. split; [reflexivity |]. simpl. rewrite <- !app_assoc. simpl.
    repeat split; trivial.
    rewrite !alter_snoc. simpl. apply lookup_snoc.
Qed.

Lemma mutations_length kind buffer amount calls :
  length (mutations Math_sin Math_random kind buffer amount calls).1
  = length buffer.
Proof.
  assert (forall n (f : nat -> list Q -> Q) (b : list Q),
            length (for_loop n (fun i b => <[i := f i b]> b) b) = length b) as H1.
  { intros n f b. induction n as [|n IH]; [reflexivity |].
    now rewrite for_loop_S, length_insert. }
  assert (forall n (f : nat -> list Q -> nat -> Q) (b : list Q) k,
            length (for_loop n (fun i '(b, k) => (<[i := f i b k]> b, S k)) (b, k)).1
            = length b) as H2.
  { intros n f b k. induction n as [|n IH]; [reflexivity |].
    rewrite for_loop_S. destruct (for_loop n _ _) as [b' k'].
    simpl in *. now rewrite length_insert. }
  destruct kind; simpl.
  - apply H1.
  - apply (H1 _ (fun i b => fitRange _ (-1) 1)).
  - apply H1.
  - apply (H1 _ (fun i b => fitRange _ (-1) 1)).
  - unfold offsettify.
    rewrite (for_loop_ext _ _
               (fun i b => <[i := fitRange (get b i + (1 # 100) * amount) (-1) 1]> b)).
    + apply H1.
    + intros. apply list_insert_insert_eq.
  - apply H1.
  - apply (H2 _ (fun i b k =>
                   fitRange (get b i + Math_random k * (2 # 100) * amount
                             - (1 # 100) * amount) (-1) 1)).
  - apply (H2 _ (fun i b k => Math_random k * 2 - 1)).
Qed.


(** ** A mutation cycle *)

Lemma playing_same st st' :
  audio st' = audio st -> nodes st' = nodes st -> heap st' = heap st ->
  playing st' = playing st.
Proof.
  intros Ea En Eh. unfold playing, audio_buffer. run. rewrite Ea.
  destruct (audio st) as [a|]; simpl; [| reflexivity]. rewrite En.
  destruct (nodes st !! a) as [na|]; simpl; [| reflexivity].
  destruct (buffer na); simpl; [| reflexivity]. now rewrite Eh.
Qed.

Lemma playing_lookup st h n r b :
  audio st = Some h -> nodes st !! h = Some n -> buffer n = Some r ->
  heap st !! r = Some b -> playing st = Some (channel b).
Proof.
  intros Ha Hn Hb Hh. unfold playing, audio_buffer. run.
  rewrite Ha. simpl. rewrite Hn. simpl. rewrite Hb. simpl. now rewrite Hh.
Qed.

Lemma newBufferSource_nodes st b st' :
  newBufferSource b st = Ok tt st' ->
  length (nodes st') = S (length (nodes st)).
Proof.
  unfold newBufferSource, createBufferSource, set_loop, connect_volume,
    set_buffer, start, stop, update_node.
  run. destruct (volume st); simpl; [| discriminate].
  destruct (audio st); simpl; intros H; inversion H; simpl;
    rewrite ?length_alter, length_app; simpl; lia.
Qed.

Lemma mutations_member_operator name kind :
  mutation_named name = Some kind -> mutations_member name = Operator kind.
Proof. unfold mutations_member. now intros ->. Qed.

(** A cycle in which the call [mutations[name](data, amount)] returns:
    [step] is what the call makes of the array and of the number of
    draws. *)
Lemma mutateBuffer_step st rate h n r b
    (step : list Q -> Q -> nat -> list Q * nat) :
  webaudio st = VContext rate -> audio st = Some h ->
  nodes st !! h = Some n -> buffer n = Some r ->
  heap st !! r = Some b -> channel b <> [] ->
  of_nat (length (channel b)) < length_limit ->
  is_Some (volume st) ->
  mutations_function Math_sin Math_random (mutation (inputs st)) = Some step ->
  length (step (channel b) (mutation_amount (inputs st) - 20) (draws st)).1
  = length (channel b) ->
  exists st',
    mutateBuffer Math_sin Math_random st = Ok tt st'
    /\ heap st'
       = alter (fun o => {| sampleRate := sampleRate o;
                            channel := (step (channel b)
                                          (mutation_amount (inputs st) - 20)
                                          (draws st)).1 |}) r (heap st)
         ++ [ {| sampleRate := rate;
                 channel := (step (channel b)
                               (mutation_amount (inputs st) - 20) (draws st)).1 |} ]
    /\ audio st' = Some (length (nodes st))
    /\ nodes st' !! length (nodes st)
       = Some {| loop := true; connected := true;
                 buffer := Some (length (heap st)); playstate := Playing |}
    /\ cycles st' = S (cycles st)
    /\ same_page st st'
    /\ length (nodes st') = S (length (nodes st))
    /\ draws st'
       = (step (channel b) (mutation_amount (inputs st) - 20) (draws st)).2
    /\ (forall active,
          sounding (log st') active
          = filter (fun k => k <> h) (sounding (log st) active ++ [length (nodes st)])).
Proof.
  intros Hw Ha Hn Hb Hh Hne Hlim [g Hv] Hstep Hlen.
  pose proof (lookup_lt_Some _ _ _ Hh) as Hr.
  pose proof (lookup_lt_Some _ _ _ Hn) as Hhlt.
  unfold mutateBuffer, audio_buffer, getChannelData, context_sampleRate,
    createBuffer, setChannelData, drawBuffer.
  run. rewrite Ha. simpl. rewrite Hn. simpl. rewrite Hb. simpl.
  rewrite Hh. simpl. rewrite Hw. simpl.
  rewrite ToLength_of_nat by exact Hlim.
  destruct (Nat.eqb_spec (length (channel b)) 0) as [E | _].
  { destruct (channel b); [congruence | discriminate]. }
  simpl.
  rewrite Hstep. simpl.
  destruct (step (channel b) (mutation_amount (inputs st) - 20) (draws st))
    as [data calls].
  simpl in Hlen. simpl.
  rewrite alter_app_l by exact Hr.
  rewrite (lookup_app_r (alter _ r (heap st))) by (rewrite length_alter; lia).
  rewrite length_alter, Nat.sub_diag. simpl.
  rewrite copyToChannel_same_length by exact Hlen.
  match goal with
  | |- context [newBufferSource ?nb ?X] =>
      destruct (newBufferSource_run X nb g) as
        (st2 & Hrun & Ha2 & Hl2 & Hn2 & Hh2 & Hd2 & Hs2);
        [exact Hv
        | simpl; intros old Ho; rewrite Ha in Ho; inversion Ho; subst; exact Hhlt |];
      pose proof (newBufferSource_nodes X nb st2 Hrun) as Hnodes
  end.
  rewrite Hrun. simpl in *.
  eexists. split; [reflexivity |]. simpl.
  rewrite Hh2.
  rewrite <- (length_alter (fun o => {| sampleRate := sampleRate o;
                                         channel := data |}) (heap st) r) at 1.
  rewrite alter_snoc. simpl.
  split; [reflexivity |].
  split; [exact Ha2 |].
  split; [exact Hn2 |].
  split.
  { unfold cycles. simpl. rewrite Hl2, Ha. simpl.
    rewrite !List.filter_app, !length_app. simpl. lia. }
  split.
  { destruct Hs2 as (? & ? & ? & ? & ? & ? & ?). repeat split; assumption. }
  split; [exact Hnodes |]. split; [exact Hd2 |].
  intros active. rewrite sounding_app, Hl2, Ha, !sounding_app. reflexivity.
Qed.

Lemma mutateBuffer_run st rate h n r b kind :
  webaudio st = VContext rate -> audio st = Some h ->
  nodes st !! h = Some n -> buffer n = Some r ->
  heap st !! r = Some b -> channel b <> [] ->
  of_nat (length (channel b)) < length_limit ->
  is_Some (volume st) ->
  mutation_named (mutation (inputs st)) = Some kind ->
  exists st',
    mutateBuffer Math_sin Math_random st = Ok tt st'
    /\ heap st'
       = alter (fun o => {| sampleRate := sampleRate o;
                            channel := (mutations Math_sin Math_random kind (channel b)
                                          (mutation_amount (inputs st) - 20)
                                          (draws st)).1 |}) r (heap st)
         ++ [ {| sampleRate := rate;
                 channel := (mutations Math_sin Math_random kind (channel b)
                               (mutation_amount (inputs st) - 20) (draws st)).1 |} ]
    /\ audio st' = Some (length (nodes st))
    /\ nodes st' !! length (nodes st)
       = Some {| loop := true; connected := true;
                 buffer := Some (length (heap st)); playstate := Playing |}
    /\ cycles st' = S (cycles st)
    /\ same_page st st'
    /\ length (nodes st') = S (length (nodes st))
    /\ draws st'
       = (mutations Math_sin Math_random kind (channel b)
            (mutation_amount (inputs st) - 20) (draws st)).2.
Proof.
  intros Hw Ha Hn Hb Hh Hne Hlim Hv Hk.
  destruct (mutateBuffer_step st rate h n r b (mutations Math_sin Math_random kind)
              Hw Ha Hn Hb Hh Hne Hlim Hv)
    as (st' & H1 & H2 & H3 & H4 & H5 & H6 & H7 & H8 & _).
  - unfold mutations_function.
    now rewrite (mutations_member_operator _ kind Hk).
  - apply mutations_length.
  - exists st'. auto 10.
Qed.

(** C3, as the code has it.  A mutation cycle applies the selected
    operator to the samples of the installed buffer, in place; it then
    copies the mutated samples into a buffer made in that cycle, of the
    same length and, made as the installed buffer was at the sample rate of
    the context, of the same sample rate; and it installs that copy.  After
    the cycle the two buffers are equal. *)
Theorem mutateBuffer_mutates_in_place_then_copies st rate h n r b kind :
  webaudio st = VContext rate -> audio st = Some h ->
  nodes st !! h = Some n -> buffer n = Some r ->
  heap st !! r = Some b -> channel b <> [] ->
  of_nat (length (channel b)) < length_limit ->
  sampleRate b = rate ->
  is_Some (volume st) ->
  mutation_named (mutation (inputs st)) = Some kind ->
  exists st' data,
    mutateBuffer Math_sin Math_random st = Ok tt st'
    /\ data = (mutations Math_sin Math_random kind (channel b)
                 (mutation_amount (inputs st) - 20) (draws st)).1
    /\ heap st' !! r = Some {| sampleRate := sampleRate b; channel := data |}
    /\ heap st !! length (heap st) = None
    /\ heap st' !! length (heap st)
       = Some {| sampleRate := sampleRate b; channel := data |}
    /\ length data = length (channel b)
    /\ audio_buffer st' = Ok (length (heap st)) st'.
Proof.
  intros Hw Ha Hn Hb Hh Hne Hlim Hrate Hv Hk.
  destruct (mutateBuffer_run st rate h n r b kind Hw Ha Hn Hb Hh Hne Hlim Hv Hk)
    as (st' & Hrun & Hheap & Ha' & Hn' & _).
  pose proof (lookup_lt_Some _ _ _ Hh) as Hr.
  exists st', (mutations Math_sin Math_random kind (channel b)
                 (mutation_amount (inputs st) - 20) (draws st)).1.
  split; [exact Hrun |]. split; [reflexivity |].
  split; [| split; [| split; [| split]]].
  - rewrite Hheap, lookup_app_l by (rewrite length_alter; exact Hr).
    now rewrite list_lookup_alter_eq, Hh.
  - apply lookup_ge_None_2. lia.
  - rewrite Hheap, Hrate. apply lookup_snoc_at. now rewrite length_alter.
  - apply mutations_length.
  - unfold audio_buffer. run. rewrite Ha'. simpl. rewrite Hn'. reflexivity.
Qed.

(** ** The swap of playback handles *)

(** The previous source node ends as a stopped one. *)
Lemma newBufferSource_stops_old st b old n st' :
  is_Some (volume st) -> audio st = Some old -> nodes st !! old = Some n ->
  newBufferSource b st = Ok tt st' ->
  nodes st' !! old
  = Some {| loop := loop n; connected := connected n; buffer := buffer n;
            playstate := Finished |}.
Proof.
  intros [g Hv] Ha Hn.
  pose proof (lookup_lt_Some _ _ _ Hn) as Hlt.
  unfold newBufferSource, createBufferSource, set_loop, connect_volume,
    set_buffer, start, stop, update_node.
  run. rewrite Hv. simpl. rewrite Ha. simpl.
  intros H. inversion H. subst st'. simpl.
  rewrite !alter_snoc. simpl.
  now rewrite list_lookup_alter_eq, lookup_app_l, Hn by exact Hlt.
Qed.

(** C4.  Every install appends to the trace: the creation of the new
    handle, its set-up as a looping source of the buffer, its start and
    then at once, as the last event, the stop of the previous handle if
    there is one; the new handle, playing, becomes [audio] and the
    previous one is left stopped.  If a handle sounded before the install,
    a handle sounds after each of these events; and the new handle sounds
    when the install ends. *)
Theorem install_starts_new_then_stops_old st b :
  is_Some (volume st) ->
  (forall old, audio st = Some old -> (old < length (nodes st))%nat) ->
  exists st' events,
    newBufferSource b st = Ok tt st'
    /\ events
       = [EvCreateSource (length (nodes st)); EvLoop (length (nodes st));
          EvConnect (length (nodes st)); EvSetBuffer (length (nodes st)) b;
          EvStart (length (nodes st))]
         ++ match audio st with Some old => [EvStop old] | None => [] end
    /\ log st' = log st ++ events
    /\ audio st' = Some (length (nodes st))
    /\ nodes st' !! length (nodes st)
       = Some {| loop := true; connected := true; buffer := Some b;
                 playstate := Playing |}
    /\ (forall old n, audio st = Some old -> nodes st !! old = Some n ->
          playstate <$> nodes st' !! old = Some Finished)
    /\ (sounding (log st) [] <> [] ->
        forall k, sounding (log st ++ take k events) [] <> [])
    /\ length (nodes st) ∈ sounding (log st') [].
Proof.
  intros [g Hv] Hold.
  destruct (newBufferSource_run st b g Hv Hold)
    as (st' & Hrun & Ha & Hl & Hnew & _).
  eexists st', _. split; [exact Hrun |]. split; [reflexivity |].
  split; [exact Hl |]. split; [exact Ha |]. split; [exact Hnew |].
  split.
  { intros old n Ho Hn.
    now rewrite (newBufferSource_stops_old st b old n st'
                   (ex_intro _ g Hv) Ho Hn Hrun). }
  assert (forall (active : list nat) k,
            active <> [] ->
            sounding
              (take k ([EvCreateSource (length (nodes st));
                        EvLoop (length (nodes st));
                        EvConnect (length (nodes st));
                        EvSetBuffer (length (nodes st)) b;
                        EvStart (length (nodes st))]
                       ++ match audio st with
                          | Some old => [EvStop old]
                          | None => []
                          end))
              active <> []) as Hprefix.
  { intros active k Hne.
    do 5 (destruct k as [|k]; [exact Hne |]). simpl.
    destruct (audio st) as [old|] eqn:Eo.
    - destruct k as [|k]; simpl.
      + destruct active; [congruence | discriminate].
      + rewrite take_nil. simpl. rewrite filter_app.
        rewrite (filter_cons_True _ (length (nodes st)) []).
        * destruct (filter _ active); discriminate.
        * specialize (Hold old eq_refl). lia.
    - rewrite take_nil. simpl. destruct active; [congruence | discriminate]. }
  split.
  - intros Hne k. rewrite sounding_app. now apply Hprefix.
  - rewrite Hl, sounding_app. simpl.
    destruct (audio st) as [old|] eqn:Eo; simpl.
    + rewrite filter_app. apply elem_of_app. right.
      rewrite (filter_cons_True _ (length (nodes st)) []).
      * apply list_elem_of_here.
      * specialize (Hold old eq_refl). lia.
    + apply elem_of_app. right. apply list_elem_of_here.
Qed.

(** ** The scheduler *)

Lemma audio_buffer_same st st' r :
  audio st' = audio st -> nodes st' = nodes st ->
  audio_buffer st = Ok r st -> audio_buffer st' = Ok r st'.
Proof.
  intros Ea En. unfold audio_buffer. run. rewrite Ea.
  destruct (audio st) as [a|]; simpl; [| discriminate]. rewrite En.
  destruct (nodes st !! a) as [na|]; simpl; [| discriminate].
  destruct (buffer na); simpl; [| discriminate].
  intros E. inversion E. reflexivity.
Qed.

Lemma ready_same st st' :
  ready st -> inputs st' = inputs st -> webaudio st' = webaudio st ->
  audio st' = audio st -> nodes st' = nodes st -> heap st' = heap st ->
  volume st' = volume st -> ready st'.
Proof.
  intros (rate & h & n & r & b & kind & Hw & Ha & Hn & Hb & Hh & Hne & Hlim
          & Hv & Hk) Ei Ew Ea En Eh Ev.
  exists rate, h, n, r, b, kind. rewrite Ei, Ew, Ea, En, Eh, Ev. auto 10.
Qed.

(** One cycle on a page that plays. *)
Lemma mutateBuffer_cycle st kind :
  ready st -> mutation_named (mutation (inputs st)) = Some kind ->
  exists st',
    mutateBuffer Math_sin Math_random st = Ok tt st'
    /\ ready st' /\ same_page st st'
    /\ cycle_ran Math_sin Math_random kind st st'.
Proof.
  intros (rate & h & n & r & b & kind' & Hw & Ha & Hn & Hb & Hh & Hne & Hlim
          & Hv & Hk') Hk.
  rewrite Hk in Hk'. inversion Hk'; subst kind'.
  destruct (mutateBuffer_run st rate h n r b kind Hw Ha Hn Hb Hh Hne Hlim Hv Hk)
    as (st' & Hrun & Hheap & Ha' & Hn' & Hc & Hs & Hnl & Hd).
  pose proof (mutations_length kind (channel b)
                (mutation_amount (inputs st) - 20) (draws st)) as Hlen.
  assert (heap st' !! length (heap st)
          = Some {| sampleRate := rate;
                    channel := (mutations Math_sin Math_random kind (channel b)
                                  (mutation_amount (inputs st) - 20)
                                  (draws st)).1 |}) as Hnew.
  { rewrite Hheap. apply lookup_snoc_at. now rewrite length_alter. }
  exists st'. split; [exact Hrun |].
  split.
  { destruct Hs as (Hi & Hw' & Hv' & _).
    eexists rate, _, _, _, _, kind.
    split; [congruence |]. split; [exact Ha' |]. split; [exact Hn' |].
    split; [reflexivity |]. split; [exact Hnew |].
    split.
    { simpl. intros E. apply (f_equal length) in E.
      rewrite Hlen in E. destruct (channel b); [congruence | discriminate]. }
    split; [simpl; now rewrite Hlen |].
    split; [now rewrite Hv' |]. now rewrite Hi. }
  split; [exact Hs |]. split; [exact Hc |].
  split.
  { exists (channel b). split; [now apply (playing_lookup st h n r b) |].
    split; [| exact Hd].
    now rewrite (playing_lookup st' _ _ _ _ Ha' Hn' eq_refl Hnew). }
  split; [rewrite Hheap, length_app, length_alter; simpl; lia |].
  split; [exact Hnl |]. split; [exact Hn' | exact Ha'].
Qed.

Lemma no_cycle_ran_refl st : no_cycle_ran st st.
Proof. repeat split. Qed.

Lemma no_cycle_ran_trans st1 st2 st3 :
  no_cycle_ran st1 st2 -> no_cycle_ran st2 st3 -> no_cycle_ran st1 st3.
Proof.
  intros (? & ? & ? & ? & ?) (? & ? & ? & ? & ?). repeat split; congruence.
Qed.

(** What happens around a cycle without touching the sound leaves it
    the cycle that ran. *)
Lemma cycle_ran_between kind st0 st1 st2 st3 :
  no_cycle_ran st0 st1 -> inputs st1 = inputs st0 ->
  cycle_ran Math_sin Math_random kind st1 st2 ->
  no_cycle_ran st2 st3 ->
  cycle_ran Math_sin Math_random kind st0 st3.
Proof.
  intros (Ec & Ea & En & Eh & Ed) Ei
         (Hc & (data & Hp & Hp' & Hd) & Hh & Hn & Hnew & Ha)
         (Ec' & Ea' & En' & Eh' & Ed').
  unfold cycle_ran.
  rewrite Ec', Ea', En', Eh', Ed', <- Ec, <- Ei, <- En, <- Eh, <- Ed.
  split; [exact Hc |].
  split.
  { exists data. rewrite <- (playing_same st0 st1 Ea En Eh).
    rewrite (playing_same st2 st3 Ea' En' Eh'). auto. }
  auto.
Qed.

(** The click that starts the scheduler. *)
Lemma click_start st kind :
  ready st -> mutating st = None -> timers st = [] ->
  mutation_named (mutation (inputs st)) = Some kind ->
  ready (click_mutate Math_sin Math_random st)
  /\ inputs (click_mutate Math_sin Math_random st) = inputs st
  /\ mutating (click_mutate Math_sin Math_random st) = Some (S (timer_count st))
  /\ timers (click_mutate Math_sin Math_random st)
     = [mutation_timer (S (timer_count st)) (clock st + 200)]
  /\ clock (click_mutate Math_sin Math_random st) = clock st
  /\ cycle_ran Math_sin Math_random kind st
       (click_mutate Math_sin Math_random st).
Proof.
  intros Hr Hm Ht Hk.
  destruct (mutateBuffer_cycle st kind Hr Hk) as (st1 & Hrun & Hr1 & Hs1 & Hc1).
  destruct Hs1 as (Hi & Hw & Hv & Hm1 & Ht1 & Htc1 & Hcl1).
  unfold click_mutate, run_task, mutate_click, setInterval. run.
  rewrite Hm. simpl. rewrite Hrun. simpl.
  split; [eapply ready_same; [exact Hr1 | reflexivity ..] |].
  split; [exact Hi |].
  rewrite Ht1, Ht, Htc1, Hcl1.
  split; [reflexivity |]. split; [reflexivity |]. split; [reflexivity |].
  eapply cycle_ran_between;
    [apply no_cycle_ran_refl | reflexivity | exact Hc1 |].
  repeat split.
  unfold cycles. simpl. rewrite List.filter_app, length_app. simpl. lia.
Qed.

(** A millisecond in which the timer does not come due. *)
Lemma tick_quiet st id d :
  timers st = [mutation_timer id d] -> S (clock st) <> d ->
  tick Math_sin Math_random st = set_clock (S (clock st)) st.
Proof.
  intros Ht Hd. unfold tick. simpl. rewrite Ht. simpl.
  destruct (Nat.eqb_spec d (S (clock st))); [congruence | reflexivity].
Qed.

(** The millisecond in which it does: the callback is [mutateBuffer],
    run on the page as the timer finds it, and the timer is armed again. *)
Lemma tick_fire st id d kind :
  ready st -> mutation_named (mutation (inputs st)) = Some kind ->
  timers st = [mutation_timer id d] -> S (clock st) = d ->
  ready (tick Math_sin Math_random st)
  /\ inputs (tick Math_sin Math_random st) = inputs st
  /\ timers (tick Math_sin Math_random st) = [mutation_timer id (d + 200)]
  /\ clock (tick Math_sin Math_random st) = S (clock st)
  /\ mutating (tick Math_sin Math_random st) = mutating st
  /\ cycle_ran Math_sin Math_random kind st (tick Math_sin Math_random st).
Proof.
  intros Hr Hk Ht Hd. subst d. unfold tick. simpl. rewrite Ht. simpl.
  rewrite Nat.eqb_refl. simpl.
  unfold fire. simpl. rewrite Ht. simpl. rewrite Nat.eqb_refl. simpl.
  match goal with
  | |- context [run_task _ ?X] =>
      destruct (mutateBuffer_cycle X kind) as (st1 & Hrun & Hr1 & Hs1 & Hc1);
        [eapply ready_same; [exact Hr | reflexivity ..] | exact Hk |]
  end.
  destruct Hs1 as (Hi & _ & _ & Hm1 & Ht1 & _ & Hcl1).
  unfold run_task. rewrite Hrun. simpl in *.
  split; [exact Hr1 |]. split; [exact Hi |].
  split; [exact Ht1 |]. split; [exact Hcl1 |]. split; [exact Hm1 |].
  eapply cycle_ran_between; [| | exact Hc1 | apply no_cycle_ran_refl].
  - repeat split.
  - reflexivity.
Qed.

Lemma elapse_S ms : forall st,
  elapse Math_sin Math_random (S ms) st
  = tick Math_sin Math_random (elapse Math_sin Math_random ms st).
Proof.
  induction ms as [|ms IH]; intros st; [reflexivity |].
  cbn [elapse] in *. now rewrite <- IH.
Qed.

(** The 200th millisecond, and the others. *)
Lemma period_step t :
  ((S t mod 200 = 0)%nat -> (S t / 200 = S (t / 200))%nat
                            /\ (S t = 200 * S (t / 200))%nat)
  /\ ((S t mod 200 <> 0)%nat -> (S t / 200 = t / 200)%nat
                                /\ (S t <> 200 * S (t / 200))%nat).
Proof.
  pose proof (Nat.div_mod_eq t 200) as H1.
  pose proof (Nat.div_mod_eq (S t) 200) as H2.
  pose proof (Nat.mod_upper_bound t 200 ltac:(lia)) as B1.
  pose proof (Nat.mod_upper_bound (S t) 200 ltac:(lia)) as B2.
  generalize dependent (t / 200)%nat. intros q H1.
  generalize dependent (S t / 200)%nat. intros q' H2.
  generalize dependent (t mod 200)%nat. intros r H1 B1.
  generalize dependent (S t mod 200)%nat. intros r' H2 B2.
  split; intros H; split; lia.
Qed.

(** While the timer is armed the page plays, the timer is due at the
    end of the current period of 200 ms, and as many cycles have run as
    periods have begun. *)
Lemma elapse_armed kind st t :
  ready st -> mutating st = None -> timers st = [] ->
  mutation_named (mutation (inputs st)) = Some kind ->
  ready (elapse Math_sin Math_random t (click_mutate Math_sin Math_random st))
  /\ inputs (elapse Math_sin Math_random t (click_mutate Math_sin Math_random st))
     = inputs st
  /\ timers (elapse Math_sin Math_random t (click_mutate Math_sin Math_random st))
     = [mutation_timer (S (timer_count st)) (clock st + 200 * S (t / 200))]
  /\ clock (elapse Math_sin Math_random t (click_mutate Math_sin Math_random st))
     = (clock st + t)%nat
  /\ mutating (elapse Math_sin Math_random t (click_mutate Math_sin Math_random st))
     = Some (S (timer_count st))
  /\ cycles (elapse Math_sin Math_random t (click_mutate Math_sin Math_random st))
     = (cycles st + S (t / 200))%nat.
Proof.
  intros Hr Hm Ht Hk.
  destruct (click_start st kind Hr Hm Ht Hk)
    as (Hr1 & Hi1 & Hm1 & Ht1 & Hcl1 & Hc1 & _).
  induction t as [|t IH].
  - cbn [elapse]. rewrite Nat.div_small by lia.
    split; [exact Hr1 |]. split; [exact Hi1 |].
    split; [rewrite Ht1; do 2 f_equal; lia |].
    split; [lia |]. split; [exact Hm1 |]. lia.
  - destruct IH as (Hrt & Hit & Htt & Hct & Hmt & Hcyt).
    rewrite elapse_S.
    set (s := elapse Math_sin Math_random t
                (click_mutate Math_sin Math_random st)) in *.
    destruct (period_step t) as [Hfire Hquiet].
    destruct (Nat.eq_dec (S t mod 200)%nat 0%nat) as [E | E].
    + destruct (Hfire E) as [Ediv Edue].
      destruct (tick_fire s _ _ kind Hrt ltac:(now rewrite Hit) Htt
                  ltac:(lia))
        as (Hr' & Hi' & Ht' & Hc' & Hm' & Hcy' & _).
      rewrite Ediv.
      split; [exact Hr' |]. split; [congruence |].
      split; [rewrite Ht'; do 2 f_equal; lia |].
      split; [lia |]. split; [congruence |]. lia.
    + destruct (Hquiet E) as [Ediv Edue].
      rewrite (tick_quiet s _ _ Htt ltac:(lia)), Ediv.
      split; [eapply ready_same; [exact Hrt | reflexivity ..] |].
      split; [exact Hit |].
      split; [exact Htt |].
      split; [simpl; lia |]. split; [exact Hmt |].
      exact Hcyt.
Qed.

(** The click that stops the scheduler. *)
Lemma click_stop st id d :
  mutating st = Some (S id) -> timers st = [mutation_timer (S id) d] ->
  mutating (click_mutate Math_sin Math_random st) = None
  /\ timers (click_mutate Math_sin Math_random st) = []
  /\ no_cycle_ran st (click_mutate Math_sin Math_random st).
Proof.
  intros Hm Ht. unfold click_mutate, run_task, mutate_click, clearInterval. run.
  rewrite Hm. simpl. rewrite Ht.
  split; [reflexivity |]. split.
  - rewrite filter_cons_False; [reflexivity |]. simpl. intros H. now apply H.
  - repeat split.
    unfold cycles. simpl. rewrite List.filter_app, length_app. simpl. lia.
Qed.

(** With no timer armed, time passes and nothing runs. *)
Lemma elapse_idle ms : forall st,
  timers st = [] ->
  timers (elapse Math_sin Math_random ms st) = []
  /\ mutating (elapse Math_sin Math_random ms st) = mutating st
  /\ no_cycle_ran st (elapse Math_sin Math_random ms st).
Proof.
  induction ms as [|ms IH]; intros st Ht; [repeat split; trivial |].
  cbn [elapse]. unfold tick. simpl. rewrite Ht. simpl.
  apply (IH (set_clock (S (clock st)) st)). exact Ht.
Qed.

(** C5.  Starting the scheduler on a page that plays runs one mutation
    cycle at once and arms a timer of 200 ms.  From then on, [t]
    milliseconds after the start, one cycle has run for every period of 200
    ms begun: the millisecond that completes a period runs one cycle, and no
    other millisecond runs any.  A stop, at any time [t] after the start,
    disarms the timer, after which no cycle runs however long one waits;
    with [t = 0], stopped right after the start, exactly one cycle has run.
    A cycle that runs mutates and installs ([cycle_ran]): the samples that
    play after it are what one application of the selected operator makes of
    the samples that played before it, in a buffer made by the cycle, on a
    source node made and started by the cycle, which [audio] then holds. *)
Theorem scheduler_start_tick_stop st kind :
  ready st -> mutating st = None -> timers st = [] ->
  mutation_named (mutation (inputs st)) = Some kind ->
  cycle_ran Math_sin Math_random kind st (click_mutate Math_sin Math_random st)
  /\ timers (click_mutate Math_sin Math_random st)
     = [mutation_timer (S (timer_count st)) (clock st + 200)]
  /\ (forall t,
        cycles (elapse Math_sin Math_random t
                  (click_mutate Math_sin Math_random st))
        = (cycles st + S (t / 200))%nat
        /\ ((S t mod 200 = 0)%nat ->
            cycle_ran Math_sin Math_random kind
              (elapse Math_sin Math_random t
                 (click_mutate Math_sin Math_random st))
              (elapse Math_sin Math_random (S t)
                 (click_mutate Math_sin Math_random st)))
        /\ ((S t mod 200 <> 0)%nat ->
            no_cycle_ran
              (elapse Math_sin Math_random t
                 (click_mutate Math_sin Math_random st))
              (elapse Math_sin Math_random (S t)
                 (click_mutate Math_sin Math_random st))))
  /\ (forall t ms,
        timers (click_mutate Math_sin Math_random
                  (elapse Math_sin Math_random t
                     (click_mutate Math_sin Math_random st))) = []
        /\ mutating (elapse Math_sin Math_random ms
                       (click_mutate Math_sin Math_random
                          (elapse Math_sin Math_random t
                             (click_mutate Math_sin Math_random st)))) = None
        /\ no_cycle_ran
             (elapse Math_sin Math_random t
                (click_mutate Math_sin Math_random st))
             (elapse Math_sin Math_random ms
                (click_mutate Math_sin Math_random
                   (elapse Math_sin Math_random t
                      (click_mutate Math_sin Math_random st))))).
Proof.
  intros Hr Hm Ht Hk.
  destruct (click_start st kind Hr Hm Ht Hk)
    as (Hr1 & Hi1 & Hm1 & Ht1 & Hcl1 & Hc1).
  split; [exact Hc1 |]. split; [exact Ht1 |].
  split.
  - intros t.
    destruct (elapse_armed kind st t Hr Hm Ht Hk)
      as (Hrt & Hit & Htt & Hct & Hmt & Hcyt).
    split; [exact Hcyt |].
    rewrite elapse_S.
    destruct (period_step t) as [Hfire Hquiet].
    split; intros E.
    + destruct (Hfire E) as [Ediv Edue].
      now destruct (tick_fire _ _ _ kind Hrt ltac:(now rewrite Hit) Htt
                      ltac:(lia)) as (_ & _ & _ & _ & _ & Hcy).
    + destruct (Hquiet E) as [Ediv Edue].
      rewrite (tick_quiet _ _ _ Htt ltac:(lia)). repeat split.
  - intros t ms.
    destruct (elapse_armed kind st t Hr Hm Ht Hk)
      as (Hrt & Hit & Htt & Hct & Hmt & Hcyt).
    destruct (click_stop _ _ _ Hmt Htt) as (Hm2 & Ht2 & Hn2).
    split; [exact Ht2 |].
    destruct (elapse_idle ms _ Ht2) as (_ & Hm3 & Hn3).
    split; [congruence |].
    eapply no_cycle_ran_trans; eassumption.
Qed.

(** ** INIT without Web Audio *)

(** The test of [INIT] never succeeds: what [new] returns is a context,
    and a context is not the string ['undefined']. *)
Lemma unsupported_test_is_false c st v st' :
  construct c st = Ok v st' -> strict_equal v (VString "undefined") = false.
Proof.
  destruct c; unfold construct; run; intros H; inversion H; reflexivity.
Qed.

(** C9, what the code does.  In a browser with neither [AudioContext]
    nor [webkitAudioContext], [INIT] throws a [TypeError] at [new] and
    leaves the page as it found it: no gain node, no buffer, no source
    node, and no message. *)
Theorem init_without_web_audio_throws ui :
  init Math_sin Math_random Math_div (page ui VUndefined VUndefined)
  = Throw TypeError (page ui VUndefined VUndefined).
Proof. reflexivity. Qed.

End Properties.

(** * The model run on concrete pages *)

(** The reference platform functions are as ECMAScript promises. *)
Lemma sine_reference_range x : in_range (sine_reference x).
Proof. apply fitRange_in_range. Qed.

Lemma sine_reference_zero x : x == 0 -> sine_reference x == 0.
Proof.
  intros H. unfold sine_reference. apply fitRange_fixes; [| apply in_range_zero].
  rewrite H. reflexivity.
Qed.

Lemma random_reference_range k :
  0 <= random_reference k /\ random_reference k < 1.
Proof.
  unfold random_reference, Qle, Qlt. simpl.
  pose proof (Nat.mod_upper_bound (k * 37 + 11) 100 ltac:(lia)). lia.
Qed.

Lemma division_reference_whole a b :
  0 < b -> b <= a -> 1 <= division_reference a b.
Proof. intros. unfold division_reference. apply Qle_shift_div_l; lra. Qed.

Lemma division_reference_fraction a b :
  0 < a -> a < b -> 0 <= division_reference a b /\ division_reference a b < 1.
Proof.
  intros. unfold division_reference.
  split; [apply Qle_shift_div_l; lra | apply Qlt_shift_div_r; lra].
Qed.

(** The page that asks for a square wave, once [INIT] has run, plays. *)
Lemma ready_square_ready : ready (ready_square 11025).
Proof.
  exists 44100, 0%nat,
    {| loop := true; connected := true; buffer := Some 0%nat;
       playstate := Playing |},
    0%nat, {| sampleRate := 44100; channel := [1; 1; -1; -1] |}, Offsettify.
  repeat split; try (vm_compute; reflexivity).
  - discriminate.
  - eexists. vm_compute. reflexivity.
Qed.

(** ** Instances of the theorems *)

Lemma mutations_keep_length_and_range_witness :
  Forall in_range [1; -1; 1 # 2]
  /\ length (mutations sine_reference random_reference Noisify
               [1; -1; 1 # 2] 30 0).1 = length [1; -1; 1 # 2]
  /\ Forall in_range (mutations sine_reference random_reference Noisify
                        [1; -1; 1 # 2] 30 0).1.
Proof.
  assert (Forall in_range [1; -1; 1 # 2]) as H
    by (repeat constructor; unfold Qle; simpl; lia).
  split; [exact H |].
  apply (mutations_keep_length_and_range sine_reference random_reference
           random_reference_range Noisify [1; -1; 1 # 2] 30 0 H).
Defined.

Lemma offsettify_adds_then_clamps_witness :
  [0; 98 # 100] !! 1%nat = Some (98 # 100) /\ in_range (98 # 100)
  /\ exists w, offsettify [0; 98 # 100] 5 !! 1%nat = Some w
               /\ w == Qmin 1 ((98 # 100) + (5 # 100)).
Proof.
  assert (in_range (98 # 100)) as H by (split; unfold Qle; simpl; lia).
  split; [reflexivity |]. split; [exact H |].
  apply (proj2 (offsettify_adds_then_clamps [0; 98 # 100] 5) 1%nat (98 # 100)
           eq_refl H).
Defined.

Lemma amount_zero_is_identity_witness :
  In Nullify amount_scaled /\ Forall in_range [1; - (1 # 2); 0]
  /\ Forall2 Qeq (mutations sine_reference random_reference Nullify
                    [1; - (1 # 2); 0] 0 0).1 [1; - (1 # 2); 0].
Proof.
  assert (In Nullify amount_scaled) as Hk by (simpl; auto).
  assert (Forall in_range [1; - (1 # 2); 0]) as H
    by (repeat constructor; unfold Qle; simpl; lia).
  split; [exact Hk |]. split; [exact H |].
  apply (amount_zero_is_identity sine_reference random_reference Nullify
           [1; - (1 # 2); 0] 0 Hk H).
Defined.

Lemma audioBuffer_length_and_range_witness :
  webaudio (ready_square 440) = VContext 44100
  /\ 0 < freq_rounded_up /\ freq_rounded_up <= 44100 / 2
  /\ frames "saw" (division_binary64 44100 freq_rounded_up) < length_limit
  /\ exists r st' b,
       audioBuffer sine_reference random_reference division_binary64
         freq_rounded_up "saw" (ready_square 440) = Ok r st'
       /\ heap st' !! r = Some b
       /\ length (channel b)
          = Z.to_nat (Qfloor (frames "saw"
                                (division_binary64 44100 freq_rounded_up)))
       /\ Forall in_range (channel b).
Proof.
  assert (webaudio (ready_square 440) = VContext 44100) as Hw by reflexivity.
  assert (0 < freq_rounded_up) as Hf by reflexivity.
  assert (freq_rounded_up <= 44100 / 2) as Hr by (vm_compute; discriminate).
  assert (frames "saw" (division_binary64 44100 freq_rounded_up) < length_limit)
    as Hl by (vm_compute; reflexivity).
  split; [exact Hw |]. split; [exact Hf |]. split; [exact Hr |].
  split; [exact Hl |].
  apply (audioBuffer_length_and_range sine_reference random_reference
           division_binary64 sine_reference_range random_reference_range
           division_binary64_whole
           (ready_square 440) 44100 freq_rounded_up "saw" Hw Hf Hr Hl).
Defined.

Lemma square_halves_and_sine_start_witness :
  webaudio (ready_square 440) = VContext 44100
  /\ 0 < freq_rounded_down /\ freq_rounded_down <= 44100
  /\ division_binary64 44100 freq_rounded_down < length_limit
  /\ (exists r st' b,
        audioBuffer sine_reference random_reference division_binary64
          freq_rounded_down "square" (ready_square 440) = Ok r st'
        /\ heap st' !! r = Some b
        /\ forall i, (i < length (channel b))%nat ->
             (of_nat i < division_binary64 44100 freq_rounded_down / 2 ->
              channel b !! i = Some 1)
             /\ (division_binary64 44100 freq_rounded_down / 2 <= of_nat i ->
                 channel b !! i = Some (-1)))
  /\ (exists r st' b v,
        audioBuffer sine_reference random_reference division_binary64
          freq_rounded_down "sine" (ready_square 440) = Ok r st'
        /\ heap st' !! r = Some b
        /\ channel b !! 0%nat = Some v /\ v == 0).
Proof.
  assert (webaudio (ready_square 440) = VContext 44100) as Hw by reflexivity.
  assert (0 < freq_rounded_down) as Hf by reflexivity.
  assert (freq_rounded_down <= 44100) as Hr by (vm_compute; discriminate).
  assert (division_binary64 44100 freq_rounded_down < length_limit) as Hl
    by (vm_compute; reflexivity).
  split; [exact Hw |]. split; [exact Hf |]. split; [exact Hr |].
  split; [exact Hl |].
  apply (square_halves_and_sine_start sine_reference random_reference
           division_binary64 sine_reference_zero division_binary64_whole
           (ready_square 440) 44100 freq_rounded_down Hw Hf Hr Hl).
Defined.

Lemma mutateBuffer_mutates_in_place_then_copies_witness :
  exists st' data,
    mutateBuffer sine_reference random_reference (ready_square 11025) = Ok tt st'
    /\ data = (mutations sine_reference random_reference Offsettify
                 [1; 1; -1; -1] (25 - 20) 0).1
    /\ heap st' !! 0%nat = Some {| sampleRate := 44100; channel := data |}
    /\ heap (ready_square 11025) !! length (heap (ready_square 11025)) = None
    /\ heap st' !! length (heap (ready_square 11025))
       = Some {| sampleRate := 44100; channel := data |}
    /\ length data = length [1; 1; -1; -1]
    /\ audio_buffer st' = Ok (length (heap (ready_square 11025))) st'.
Proof.
  apply (mutateBuffer_mutates_in_place_then_copies
           sine_reference random_reference (ready_square 11025) 44100 0%nat
           {| loop := true; connected := true; buffer := Some 0%nat;
              playstate := Playing |}
           0%nat {| sampleRate := 44100; channel := [1; 1; -1; -1] |} Offsettify).
  - vm_compute. reflexivity.
  - vm_compute. reflexivity.
  - vm_compute. reflexivity.
  - reflexivity.
  - vm_compute. reflexivity.
  - discriminate.
  - reflexivity.
  - reflexivity.
  - eexists. vm_compute. reflexivity.
  - vm_compute. reflexivity.
Defined.

Lemma install_starts_new_then_stops_old_witness :
  exists st' events,
    newBufferSource 0 (ready_square 11025) = Ok tt st'
    /\ events = [EvCreateSource 1; EvLoop 1; EvConnect 1; EvSetBuffer 1 0;
                 EvStart 1; EvStop 0]
    /\ log st' = log (ready_square 11025) ++ events
    /\ audio st' = Some 1%nat
    /\ nodes st' !! 1%nat
       = Some {| loop := true; connected := true; buffer := Some 0%nat;
                 playstate := Playing |}
    /\ (forall old n, audio (ready_square 11025) = Some old ->
          nodes (ready_square 11025) !! old = Some n ->
          playstate <$> nodes st' !! old = Some Finished)
    /\ (sounding (log (ready_square 11025)) [] <> [] ->
        forall k, sounding (log (ready_square 11025) ++ take k events) [] <> [])
    /\ 1%nat ∈ sounding (log st') [].
Proof.
  apply (install_starts_new_then_stops_old (ready_square 11025) 0).
  - eexists. vm_compute. reflexivity.
  - intros old H. vm_compute in H. inversion H. vm_compute. lia.
Defined.

Lemma scheduler_start_tick_stop_witness :
  cycle_ran sine_reference random_reference Offsettify (ready_square 11025)
    (click_mutate sine_reference random_reference (ready_square 11025))
  /\ timers (click_mutate sine_reference random_reference (ready_square 11025))
     = [mutation_timer (S (timer_count (ready_square 11025)))
          (clock (ready_square 11025) + 200)]
  /\ (forall t,
        cycles (elapse sine_reference random_reference t
                  (click_mutate sine_reference random_reference
                     (ready_square 11025)))
        = (cycles (ready_square 11025) + S (t / 200))%nat
        /\ ((S t mod 200 = 0)%nat ->
            cycle_ran sine_reference random_reference Offsettify
              (elapse sine_reference random_reference t
                 (click_mutate sine_reference random_reference
                    (ready_square 11025)))
              (elapse sine_reference random_reference (S t)
                 (click_mutate sine_reference random_reference
                    (ready_square 11025))))
        /\ ((S t mod 200 <> 0)%nat ->
            no_cycle_ran
              (elapse sine_reference random_reference t
                 (click_mutate sine_reference random_reference
                    (ready_square 11025)))
              (elapse sine_reference random_reference (S t)
                 (click_mutate sine_reference random_reference
                    (ready_square 11025)))))
  /\ (forall t ms,
        timers (click_mutate sine_reference random_reference
                  (elapse sine_reference random_reference t
                     (click_mutate sine_reference random_reference
                        (ready_square 11025)))) = []
        /\ mutating (elapse sine_reference random_reference ms
                       (click_mutate sine_reference random_reference
                          (elapse sine_reference random_reference t
                             (click_mutate sine_reference random_reference
                                (ready_square 11025))))) = None
        /\ no_cycle_ran
             (elapse sine_reference random_reference t
                (click_mutate sine_reference random_reference
                   (ready_square 11025)))
             (elapse sine_reference random_reference ms
                (click_mutate sine_reference random_reference
                   (elapse sine_reference random_reference t
                      (click_mutate sine_reference random_reference
                         (ready_square 11025)))))).
Proof.
  apply (scheduler_start_tick_stop sine_reference random_reference
           (ready_square 11025) Offsettify
           ready_square_ready eq_refl eq_refl eq_refl).
Defined.

Lemma smoothify_never_increases_circular_variation_witness :
  Forall is_binary32 [1; 1; 1; -1; -1; -1]
  /\ (Forall is_binary32
        (Nat.iter 1 (smoothify_with mean3_stored) [1; 1; 1; -1; -1; -1])
      /\ circular_variation
           (Nat.iter 2 (smoothify_with mean3_stored) [1; 1; 1; -1; -1; -1])
         <= circular_variation
              (Nat.iter 1 (smoothify_with mean3_stored) [1; 1; 1; -1; -1; -1])
      /\ circular_variation
           (Nat.iter 1 (smoothify_with mean3_stored) [1; 1; 1; -1; -1; -1])
         <= circular_variation [1; 1; 1; -1; -1; -1])
  /\ (circular_variation (Nat.iter 2 smoothify [1; 1; 1; -1; -1; -1])
      <= circular_variation (Nat.iter 1 smoothify [1; 1; 1; -1; -1; -1])
      /\ circular_variation (Nat.iter 1 smoothify [1; 1; 1; -1; -1; -1])
         <= circular_variation [1; 1; 1; -1; -1; -1]).
Proof.
  assert (Forall is_binary32 [1; 1; 1; -1; -1; -1]) as H
    by (repeat constructor; vm_compute; reflexivity).
  split; [exact H |].
  apply (smoothify_never_increases_circular_variation
           [1; 1; 1; -1; -1; -1] 1 H).
Defined.

(** ** Where the code departs from the specification *)

(** C2.  At 44100 Hz a frequency of 600 Hz gives 73.5 samples per
    period: the buffer has 73 samples, not the rounded 74. *)
Lemma generated_length_is_not_rounded :
  0 < 600 /\ 600 <= 44100 / 2
  /\ exists r st' b,
       audioBuffer sine_reference random_reference division_reference 600 "square" (ready_square 600)
         = Ok r st'
       /\ heap st' !! r = Some b
       /\ length (channel b) = 73%nat
       /\ round (44100 / 600) = 74%Z.
Proof.
  split; [reflexivity |]. split; [unfold Qle; simpl; lia |].
  eexists _, _, _. split; [vm_compute; reflexivity |].
  split; [vm_compute; reflexivity |]. split; reflexivity.
Qed.

(** C6.  At 44100 Hz and 440 Hz the buffer has 100 samples and the
    period is 100.227...: index 50 is not below half the number of
    samples, yet it holds +1. *)
Lemma square_sample_at_half_is_high :
  exists r st' b,
    audioBuffer sine_reference random_reference division_reference 440 "square" (ready_square 440)
      = Ok r st'
    /\ heap st' !! r = Some b
    /\ length (channel b) = 100%nat
    /\ of_nat 100 / 2 <= of_nat 50
    /\ channel b !! 50%nat = Some 1.
Proof.
  eexists _, _, _. split; [vm_compute; reflexivity |].
  split; [vm_compute; reflexivity |]. split; [reflexivity |].
  split; [unfold Qle; simpl; lia | reflexivity].
Qed.

(** C3.  The buffer that plays, at address 0, holds 1, 1, -1, -1; one
    mutation cycle with [offsettify] and amount 5 leaves -0.95 in its last
    two samples: the operator wrote into the installed buffer. *)
Lemma mutation_writes_into_installed_buffer :
  exists st',
    audio_buffer (ready_square 11025) = Ok 0%nat (ready_square 11025)
    /\ channel <$> heap (ready_square 11025) !! 0%nat = Some [1; 1; -1; -1]
    /\ mutateBuffer sine_reference random_reference (ready_square 11025)
       = Ok tt st'
    /\ channel <$> heap st' !! 0%nat
       = Some [1; 1; - (95 # 100); - (95 # 100)].
Proof.
  eexists. split; [vm_compute; reflexivity |].
  split; [vm_compute; reflexivity |].
  split; vm_compute; reflexivity.
Qed.

(** C8.  The square buffer of six samples has total variation 2, and
    one application of [smoothify] raises it to 1774/729; the square buffer
    generated at 17640 Hz is 1, 1, whose variation, 0 however it is summed,
    no application reduces; and with the sums, the division and the store
    rounded as the platform rounds them, the square buffer of 100 samples
    generated at 440 Hz has a circular variation of 4 that stays 4 through
    the first 18 applications, though the first one already changes the
    buffer, and drops only with the 19th. *)
Lemma smoothify_square_variation_not_reduced :
  (exists r st' b,
     audioBuffer sine_reference random_reference division_reference 7350 "square" (ready_square 7350)
       = Ok r st'
     /\ heap st' !! r = Some b
     /\ channel b = [1; 1; 1; -1; -1; -1]
     /\ total_variation (channel b) == 2
     /\ total_variation (smoothify (channel b)) == 1774 # 729)
  /\ (exists r st' b,
        17640 <= 44100 / 2
        /\ audioBuffer sine_reference random_reference division_reference 17640 "square"
             (ready_square 17640) = Ok r st'
        /\ heap st' !! r = Some b
        /\ channel b = [1; 1]
        /\ total_variation (channel b) == 0
        /\ total_variation (smoothify (channel b)) == 0
        /\ circular_variation (channel b) == 0
        /\ circular_variation (smoothify (channel b)) == 0)
  /\ (exists r st' b,
        audioBuffer sine_reference random_reference division_binary64 440 "square"
          (ready_square 440) = Ok r st'
        /\ heap st' !! r = Some b
        /\ length (channel b) = 100%nat
        /\ circular_variation (channel b) == 4
        /\ smoothify_with mean3_stored (channel b) <> channel b
        /\ circular_variation (Nat.iter 18 (smoothify_with mean3_stored) (channel b))
           == 4
        /\ circular_variation (Nat.iter 19 (smoothify_with mean3_stored) (channel b))
           == 33554431 # 8388608).
Proof.
  split; [| split].
  - eexists _, _, _. split; [vm_compute; reflexivity |].
    split; [vm_compute; reflexivity |]. split; [reflexivity |].
    split; vm_compute; reflexivity.
  - eexists _, _, _. split; [unfold Qle; simpl; lia |].
    split; [vm_compute; reflexivity |].
    split; [vm_compute; reflexivity |]. split; [reflexivity |].
    repeat split; vm_compute; reflexivity.
  - eexists _, _, _. split; [vm_compute; reflexivity |].
    split; [vm_compute; reflexivity |]. split; [reflexivity |].
    split; [vm_compute; reflexivity |].
    split; [vm_compute; discriminate |].
    split; vm_compute; reflexivity.
Qed.

(** ** Where the arithmetic of the platform decides

    The theorems on the generator speak of the quotient as the platform
    computes it.  At the two frequencies below the binary64 quotient and the
    quotient of the rationals have different integer parts, or fall on
    different sides of an index, and the model run with the binary64
    division gives what the code gives. *)

(** At 1336.3636363636365 Hz the quotient of the rationals is just
    below 33 and the binary64 quotient is 33: the buffer has 33 samples. *)
Lemma quotient_rounded_up :
  Qfloor (division_reference 44100 freq_rounded_up) = 32%Z
  /\ division_binary64 44100 freq_rounded_up = 33
  /\ exists r st' b,
       audioBuffer sine_reference random_reference division_binary64
         freq_rounded_up "saw" (ready_square 440) = Ok r st'
       /\ heap st' !! r = Some b
       /\ length (channel b) = 33%nat.
Proof.
  split; [vm_compute; reflexivity |]. split; [vm_compute; reflexivity |].
  eexists _, _, _. split; [vm_compute; reflexivity |].
  split; [vm_compute; reflexivity |]. reflexivity.
Qed.

(** At 319.5652173913043 Hz the quotient of the rationals is just above
    138 and the binary64 quotient is 138: half of it is 69, and index 69 of
    the square buffer holds -1. *)
Lemma quotient_rounded_down :
  138 < division_reference 44100 freq_rounded_down
  /\ division_binary64 44100 freq_rounded_down = 138
  /\ exists r st' b,
       audioBuffer sine_reference random_reference division_binary64
         freq_rounded_down "square" (ready_square 440) = Ok r st'
       /\ heap st' !! r = Some b
       /\ length (channel b) = 138%nat
       /\ channel b !! 68%nat = Some 1
       /\ channel b !! 69%nat = Some (-1).
Proof.
  split; [vm_compute; reflexivity |]. split; [vm_compute; reflexivity |].
  eexists _, _, _. split; [vm_compute; reflexivity |].
  split; [vm_compute; reflexivity |]. repeat split.
Qed.

(** * Further properties of the code *)

(** ** [fitRange] *)

(** X1.  For bounds in order, [fitRange] is the projection onto
    [min, max]: its result lies within the bounds, a value within the
    bounds is returned as it is, fitting twice is fitting once, and the
    order of two values is kept. *)
Theorem fitRange_projects v w lo hi :
  lo <= hi ->
  between lo hi (fitRange v lo hi)
  /\ (between lo hi v -> fitRange v lo hi = v)
  /\ fitRange (fitRange v lo hi) lo hi = fitRange v lo hi
  /\ (v <= w -> fitRange v lo hi <= fitRange w lo hi).
Proof.
  intros Hb. unfold between.
  destruct (fitRange_cases v lo hi) as [[? Ev] | [(? & ? & Ev) | (? & ? & Ev)]];
    rewrite Ev.
  all: repeat split; try lra.
  all: try (intros [? ?]; lra).
  all: try (destruct (fitRange_cases lo lo hi) as [[? E] | [(? & ? & E) | (? & ? & E)]];
            rewrite E; trivial; lra).
  all: try (destruct (fitRange_cases hi lo hi) as [[? E] | [(? & ? & E) | (? & ? & E)]];
            rewrite E; trivial; lra).
  all: try exact Ev.
  all: intros Hvw;
    destruct (fitRange_cases w lo hi) as [[? E] | [(? & ? & E) | (? & ? & E)]];
    rewrite E; lra.
Qed.

(** X2.  The bounds are not checked: with [max < min] the result is
    [min] for a value below [min] and [max] for every other value, never
    the value itself unless it is one of the two. *)
Theorem fitRange_inverted_bounds v lo hi :
  hi < lo ->
  (v < lo -> fitRange v lo hi = lo) /\ (lo <= v -> fitRange v lo hi = hi).
Proof.
  intros Hb.
  destruct (fitRange_cases v lo hi) as [[? Ev] | [(? & ? & Ev) | (? & ? & Ev)]];
    rewrite Ev; split; intros; trivial; lra.
Qed.

(** ** Clamped drift *)

Lemma fitRange_wd v v' lo hi : v == v' -> fitRange v lo hi == fitRange v' lo hi.
Proof.
  intros E.
  destruct (fitRange_cases v lo hi) as [[? ->] | [(? & ? & ->) | (? & ? & ->)]];
  destruct (fitRange_cases v' lo hi) as [[? ->] | [(? & ? & ->) | (? & ? & ->)]];
    lra.
Qed.

Section Drift.

Variable Math_sin : Q -> Q.
Variable Math_random : nat -> Q.

Hypothesis Math_sin_range : forall x, in_range (Math_sin x).
Hypothesis Math_sin_zero : forall x, x == 0 -> Math_sin x == 0.
Hypothesis Math_random_range : forall k, 0 <= Math_random k /\ Math_random k < 1.

(** Each drifting operator is a map: it sends the sample [v] at index
    [i] to [v] plus its drift times the amount, clamped. *)
Lemma drifting_form kind (b : list Q) a calls :
  In kind drifting ->
  exists f,
    (mutations Math_sin Math_random kind b a calls).1 = imap f b
    /\ forall i v,
         f i v == fitRange (v + drift Math_sin kind (length b) i * a) (-1) 1.
Proof.
  intros Hk. unfold drifting in Hk. simpl in Hk.
  destruct Hk as [<- | [<- | [<- | [<- | []]]]]; simpl.
  - exists (fun i v =>
      fitRange (v + Math_sin (2 * Math_PI / of_nat (length b) * of_nat i)
                    * (1 # 100) * a) (-1) 1).
    split.
    + unfold sinify. apply pointwise_loop. reflexivity.
    + intros i v. apply fitRange_wd. ring.
  - exists (fun i v =>
      fitRange (if ltb (of_nat i) (of_nat (length b) / 2)
                then v + (1 # 100) * a else v - (1 # 100) * a) (-1) 1).
    split.
    + unfold squarify. apply pointwise_loop. intros i b' ->. reflexivity.
    + intros i v. apply fitRange_wd. destruct (ltb _ _); ring.
  - exists (fun i v => fitRange (v - of_nat i * (1 # 10000) * a) (-1) 1).
    split.
    + unfold peakify. apply pointwise_loop. reflexivity.
    + intros i v. apply fitRange_wd. ring.
  - exists (fun _ v => fitRange (v + (1 # 100) * a) (-1) 1). split.
    + unfold offsettify. apply pointwise_loop.
      intros i b' _. apply list_insert_insert_eq.
    + intros i v. reflexivity.
Qed.

Lemma drifting_lookup kind (b : list Q) a calls i v :
  In kind drifting -> b !! i = Some v ->
  exists w,
    (mutations Math_sin Math_random kind b a calls).1 !! i = Some w
    /\ w == fitRange (v + drift Math_sin kind (length b) i * a) (-1) 1.
Proof.
  intros Hk Hv. destruct (drifting_form kind b a calls Hk) as (f & -> & Hf).
  exists (f i v). split; [| apply Hf].
  now rewrite list_lookup_imap, Hv.
Qed.


(** X4.  A drifting operator is undone by the opposite amount wherever
    it did not clamp: if no sample of the result lies on a bound, applying
    the operator to the result with [- a] gives the buffer back. *)
Theorem drifting_undo kind (b : list Q) a calls :
  In kind drifting -> Forall in_range b ->
  Forall inside (mutations Math_sin Math_random kind b a calls).1 ->
  Forall2 Qeq
    (mutations Math_sin Math_random kind
       (mutations Math_sin Math_random kind b a calls).1 (- a) calls).1
    b.
Proof.
  intros Hk Hb Hin. apply Forall2_same_length_lookup. split.
  - now rewrite !mutations_length.
  - intros i x v Hx Hv.
    assert (in_range v) as Hr by (eapply Forall_lookup_1; eauto).
    destruct (drifting_lookup kind b a calls i v Hk Hv) as (w & Hw & Ew).
    destruct (drifting_lookup kind _ (- a) calls i w Hk Hw) as (w' & Hw' & Ew').
    rewrite Hw' in Hx. inversion Hx; subst x. rewrite Ew'.
    rewrite mutations_length.
    pose proof (Forall_lookup_1 _ _ _ _ Hin Hw) as [Hlo Hhi].
    destruct Hr as [? ?].
    destruct (fitRange_cases (v + drift Math_sin kind (length b) i * a) (-1) 1)
      as [[? E] | [(? & ? & E) | (? & ? & E)]]; rewrite E in Ew; try lra.
    apply fitRange_fixes; [| split; assumption].
    rewrite Ew. ring.
Qed.

(** X6.  [sinify] and [peakify] never change the first sample: at
    index 0 the step of both is 0 times the amount, whatever the amount and
    however often they are applied. *)
Theorem first_sample_is_kept kind (b : list Q) a calls k v :
  In kind [Sinify; Peakify] -> b !! 0%nat = Some v -> in_range v ->
  exists w,
    Nat.iter k (fun b => (mutations Math_sin Math_random kind b a calls).1) b
      !! 0%nat = Some w
    /\ w == v.
Proof.
  intros Hk Hv Hr.
  assert (In kind drifting) as Hd.
  { simpl in Hk. destruct Hk as [<- | [<- | []]]; simpl; auto. }
  assert (forall n, drift Math_sin kind n 0 * a == 0) as Hzero.
  { intros n. simpl in Hk. destruct Hk as [<- | [<- | []]]; simpl.
    - rewrite Math_sin_zero; [ring |]. change (of_nat 0) with 0. ring.
    - change (of_nat 0) with 0. ring. }
  induction k as [|k IH]; [exists v; split; [exact Hv | reflexivity] |].
  destruct IH as (w & Hw & Ew).
  destruct (drifting_lookup kind _ a calls 0%nat w Hd Hw) as (w' & Hw' & Ew').
  exists w'. split; [exact Hw' |]. rewrite Ew'.
  apply fitRange_fixes; [| exact Hr]. rewrite Hzero, Ew. ring.
Qed.

End Drift.

(** ** Operators that do not drift *)

Lemma get_lookup_lt (b : list Q) i :
  (i < length b)%nat -> b !! i = Some (get b i).
Proof.
  intros H. destruct (lookup_lt_is_Some_2 b i H) as [v Hv].
  now rewrite (get_lookup _ _ _ Hv).
Qed.

(** X9.  [smoothify] never overshoots: if every sample lies between
    two levels, so does every sample of the result, and the length is
    kept.  A level buffer is therefore left level. *)
Theorem smoothify_stays_between lo hi (b : list Q) :
  Forall (between lo hi) b ->
  length (smoothify b) = length b /\ Forall (between lo hi) (smoothify b).
Proof.
  intros Hb. unfold smoothify.
  apply (for_loop_invariant
           (fun _ b' => length b' = length b /\ Forall (between lo hi) b'));
    [now split |].
  intros i b' Hi [Hl Hf]. unfold smoothify_body. split.
  - now rewrite length_insert.
  - apply Forall_insert; [exact Hf |].
    assert (forall j, (j < length b')%nat -> between lo hi (get b' j)) as Hget.
    { intros j Hj. eapply Forall_lookup_1; [exact Hf |].
      now apply get_lookup_lt. }
    destruct (Hget ((length b' + i - 1) mod length b')%nat) as [? ?];
      [apply Nat.mod_upper_bound; lia |].
    destruct (Hget i) as [? ?]; [lia |].
    destruct (Hget ((i + 1) mod length b')%nat) as [? ?];
      [apply Nat.mod_upper_bound; lia |].
    split.
    + apply Qle_shift_div_l; lra.
    + apply Qle_shift_div_r; lra.
Qed.

(** X10.  [smoothify] filters in place.  Sample [k] of the result is a
    third of the sum of: the result's sample [k - 1] (for [k = 0], the old
    last sample), the old sample [k], and the old sample [k + 1] (for the
    last index, the result's first sample). *)
Theorem smoothify_filters_in_place (b : list Q) k :
  (2 <= length b)%nat -> (k < length b)%nat ->
  3 * get (smoothify b) k
  == (if decide (k = 0)%nat then get b (length b - 1)
      else get (smoothify b) (k - 1))
     + get b k
     + (if decide (k + 1 = length b)%nat then get (smoothify b) 0
        else get b (k + 1)).
Proof. apply smoothify_recurrence. Qed.

(** ** Operators that draw random numbers *)

(** A loop that rewrites each sample from its own value and one draw. *)
Lemma random_pointwise_loop (f : nat -> Q -> nat -> Q) (b : list Q) calls :
  for_loop (length b)
    (fun i '(b', c) => (<[i := f i (get b' i) c]> b', S c)) (b, calls)
  = (imap (fun i v => f i v (calls + i)%nat) b, (calls + length b)%nat).
Proof.
  assert (forall k, (k <= length b)%nat ->
            exists b',
              for_loop k (fun i '(b', c) => (<[i := f i (get b' i) c]> b', S c))
                (b, calls) = (b', (calls + k)%nat)
              /\ length b' = length b
              /\ forall j, b' !! j
                           = if decide (j < k)%nat
                             then (fun v => f j v (calls + j)%nat) <$> b !! j
                             else b !! j) as Hk.
  { induction k as [|k IH]; intros Hle.
    - exists b. split; [now rewrite Nat.add_0_r |]. split; [reflexivity |].
      intros j. case_decide; [lia | reflexivity].
    - destruct IH as (b' & E & Hl & Hj); [lia |].
      rewrite for_loop_S, E. eexists. split.
      + f_equal. lia.
      + split; [now rewrite length_insert |].
        intros j. destruct (decide (j = k)) as [-> | Hne].
        * rewrite list_lookup_insert_eq by lia. case_decide; [| lia].
          unfold get. rewrite Hj. case_decide; [lia |].
          destruct (lookup_lt_is_Some_2 b k) as [v Hv]; [lia |].
          now rewrite Hv.
        * rewrite list_lookup_insert_ne by congruence.
          rewrite Hj. repeat case_decide; trivial; lia. }
  destruct (Hk (length b)) as (b' & E & Hl & Hj); [lia |].
  rewrite E. f_equal. apply list_eq. intros j.
  rewrite Hj, list_lookup_imap. case_decide; trivial.
  rewrite lookup_ge_None_2 by lia. reflexivity.
Qed.

Section Noise.

Variable Math_sin : Q -> Q.
Variable Math_random : nat -> Q.

Hypothesis Math_random_range : forall k, 0 <= Math_random k /\ Math_random k < 1.

(** X11.  [randomizify] keeps nothing of the buffer but its length:
    sample [i] becomes [2 * r - 1] for the [i]-th draw [r] made, and one
    draw is made per sample. *)
Theorem randomizify_replaces_everything (b : list Q) calls :
  randomizify Math_random b calls
  = (imap (fun i _ => Math_random (calls + i)%nat * 2 - 1) b,
     (calls + length b)%nat).
Proof.
  unfold randomizify.
  apply (random_pointwise_loop (fun _ _ c => Math_random c * 2 - 1)).
Qed.

Lemma noisify_form (b : list Q) a calls :
  noisify Math_random b a calls
  = (imap (fun i v =>
             fitRange (v + Math_random (calls + i)%nat * (2 # 100) * a
                       - (1 # 100) * a) (-1) 1) b,
     (calls + length b)%nat).
Proof.
  unfold noisify.
  apply (random_pointwise_loop
           (fun _ v c => fitRange (v + Math_random c * (2 # 100) * a
                                   - (1 # 100) * a) (-1) 1)).
Qed.

(** X12.  [noisify] moves a sample of [-1, 1] by at most [0.01 * |a|],
    and makes one draw per sample. *)
Theorem noisify_jitter_is_bounded (b : list Q) a calls i v :
  b !! i = Some v -> in_range v ->
  (noisify Math_random b a calls).2 = (calls + length b)%nat
  /\ exists w,
       (noisify Math_random b a calls).1 !! i = Some w
       /\ Qabs (w - v) <= (1 # 100) * Qabs a.
Proof.
  intros Hv [Hlo Hhi]. rewrite noisify_form. simpl. split; [reflexivity |].
  rewrite list_lookup_imap, Hv. simpl. eexists. split; [reflexivity |].
  destruct (Math_random_range (calls + i)) as [Hr0 Hr1].
  set (r := Math_random (calls + i)) in *.
  assert (Qabs (r * (2 # 100) * a - (1 # 100) * a) <= (1 # 100) * Qabs a) as He.
  { destruct (Qabs_cases a) as [[Ha Ea] | [Ha Ea]]; rewrite Ea.
    - assert (0 <= r * a) by (apply Qmult_le_0_compat; lra).
      assert (0 <= (1 - r) * a) by (apply Qmult_le_0_compat; lra).
      abs_cases; lra.
    - assert (0 <= r * (- a)) by (apply Qmult_le_0_compat; lra).
      assert (0 <= (1 - r) * (- a)) by (apply Qmult_le_0_compat; lra).
      abs_cases; lra. }
  assert (Qabs (fitRange (v + r * (2 # 100) * a - (1 # 100) * a) (-1) 1 - v)
          <= Qabs (r * (2 # 100) * a - (1 # 100) * a)) as Hc.
  { destruct (fitRange_cases (v + r * (2 # 100) * a - (1 # 100) * a) (-1) 1)
      as [[? ->] | [(? & ? & ->) | (? & ? & ->)]]; abs_cases; lra. }
  eapply Qle_trans; [exact Hc | exact He].
Qed.

End Noise.

(** ** The generator *)

Lemma ToLength_limit x : of_nat (ToLength x) < length_limit.
Proof.
  unfold ToLength, of_nat, length_limit.
  pose proof (Z.mod_pos_bound (truncate x) 4294967296 ltac:(lia)) as [H0 H1].
  rewrite Z2Nat.id by exact H0.
  change 4294967296 with (inject_Z 4294967296). now rewrite <- Zlt_Qlt.
Qed.

Section Generator.

Variable Math_sin : Q -> Q.
Variable Math_random : nat -> Q.
Variable Math_div : Q -> Q -> Q.

Hypothesis Math_div_whole : forall a b, 0 < b -> b <= a -> 1 <= Math_div a b.
Hypothesis Math_div_fraction :
  forall a b, 0 < a -> a < b -> 0 <= Math_div a b /\ Math_div a b < 1.

(** X13.  A generated saw buffer is a ramp: its length is the computed
    quotient [sampleRate / freq] with the fraction dropped, and sample [i]
    is [1 - 2 * i / length] for that quotient, so the first sample is 1 and
    every sample lies in [-1, 1]. *)
Theorem saw_is_a_ramp st rate freq :
  webaudio st = VContext rate -> 0 < freq -> freq <= rate ->
  Math_div rate freq < length_limit ->
  exists r st' b,
    audioBuffer Math_sin Math_random Math_div freq "saw" st = Ok r st'
    /\ heap st' !! r = Some b
    /\ length (channel b) = Z.to_nat (Qfloor (Math_div rate freq))
    /\ (exists v, channel b !! 0%nat = Some v /\ v == 1)
    /\ forall i, (i < length (channel b))%nat ->
         exists v, channel b !! i = Some v
                   /\ v == 1 - 2 * of_nat i / Math_div rate freq
                   /\ in_range v.
Proof.
  intros Hw Hf Hr Hl.
  destruct (period_fits Math_div Math_div_whole rate freq Hf Hr Hl) as [H1 Hn].
  destruct (audioBuffer_saw Math_sin Math_random Math_div st rate freq Hw Hn)
    as (st' & Hrun & Hb).
  eexists _, st', _. split; [exact Hrun |]. split; [exact Hb |]. simpl.
  split.
  { rewrite fill_loop_length, length_replicate. apply ToLength_floor; lra. }
  split.
  { eexists. split.
    - apply fill_loop_lookup; [| rewrite length_replicate; lia].
      apply trips_spec. change (of_nat 0) with 0. lra.
    - change (of_nat 0) with 0. field. lra. }
  intros i Hi. rewrite fill_loop_length, length_replicate in Hi.
  assert (of_nat i < Math_div rate freq) as Hlt
    by (apply ToLength_spec in Hi; lra).
  eexists. split.
  { apply fill_loop_lookup; [now apply trips_spec | now rewrite length_replicate]. }
  split; [reflexivity |]. now apply saw_sample_in_range.
Qed.

(** X14.  A frequency above the sample rate asks for a buffer of no
    samples: [audioBuffer] throws a [NotSupportedError], whatever the wave
    type, and changes nothing. *)
Theorem audioBuffer_refuses_short_period st rate freq type :
  webaudio st = VContext rate -> 0 < rate -> rate < freq ->
  audioBuffer Math_sin Math_random Math_div freq type st = Throw NotSupportedError st.
Proof.
  intros Hw Hr Hf.
  destruct (Math_div_fraction rate freq Hr Hf) as [H0 H1].
  pose proof (ToLength_zero _ H0 H1) as Hz.
  unfold audioBuffer, context_sampleRate, createBuffer. run.
  rewrite Hw. simpl. rewrite Hz. reflexivity.
Qed.

(** X15.  Noise costs two buffers and a draw per iteration: the buffer
    made first stays in the store, all zeros; the one returned has 32 times
    the computed quotient [sampleRate / freq] samples, fraction dropped, and
    holds [2 * r - 1] for the draws [r] in order; and the loop, bounded by
    the unrounded length, makes as many draws as it has iterations. *)
Theorem noise_allocates_twice st rate freq :
  webaudio st = VContext rate -> 0 < freq -> freq <= rate ->
  32 * Math_div rate freq < length_limit ->
  exists st' b,
    audioBuffer Math_sin Math_random Math_div freq "noise" st
      = Ok (S (length (heap st))) st'
    /\ length (heap st') = (length (heap st) + 2)%nat
    /\ heap st' !! length (heap st)
       = Some {| sampleRate := rate;
                 channel := replicate (Z.to_nat (Qfloor (Math_div rate freq))) 0 |}
    /\ heap st' !! S (length (heap st)) = Some b
    /\ length (channel b) = Z.to_nat (Qfloor (32 * Math_div rate freq))
    /\ (forall i, (i < length (channel b))%nat ->
          channel b !! i = Some (Math_random (draws st + i)%nat * 2 - 1))
    /\ draws st' = (draws st + trips (32 * Math_div rate freq))%nat.
Proof.
  intros Hw Hf Hr Hl.
  pose proof (Math_div_whole rate freq Hf Hr) as H1.
  destruct (period_fits_noise Math_div Math_div_whole rate freq Hf Hr Hl)
    as [Hn Hn'].
  rewrite <- (ToLength_floor (Math_div rate freq)) by lra.
  rewrite <- (ToLength_floor (32 * Math_div rate freq)) by lra.
  destruct (random_fill_loop (fun c => Math_random c * 2 - 1)
              (trips (32 * Math_div rate freq))
              (replicate (ToLength (32 * Math_div rate freq)) 0) (draws st))
    as (E2 & El & Ej).
  unfold audioBuffer, context_sampleRate, createBuffer, getChannelData,
    setChannelData.
  run. rewrite Hw. simpl.
  destruct (Nat.eqb_spec (ToLength (Math_div rate freq)) 0); [contradiction |].
  simpl. rewrite lookup_snoc. simpl.
  destruct (Nat.eqb_spec (ToLength (32 * Math_div rate freq)) 0);
    [contradiction |].
  simpl.
  set (h1 := heap st ++ [ _ ]) in *.
  assert (length h1 = S (length (heap st))) as Hlen
    by (unfold h1; rewrite length_app; simpl; lia).
  rewrite lookup_snoc. simpl.
  destruct (for_loop _ _ _) as [data calls] eqn:E. simpl in *.
  rewrite <- Hlen.
  eexists _, _. split; [reflexivity |]. simpl.
  rewrite alter_snoc. simpl.
  split; [rewrite length_app, Hlen; simpl; lia |].
  split; [rewrite lookup_app_l by lia; unfold h1; apply lookup_snoc |].
  split; [apply lookup_snoc |]. simpl.
  split; [rewrite El; apply length_replicate |].
  split; [| exact E2].
  intros i Hi. apply Ej.
  - rewrite El, length_replicate in Hi. apply trips_spec.
    apply ToLength_spec in Hi; lra.
  - now rewrite <- El.
Qed.

End Generator.

(** ** Sessions *)

Lemma valid_not_empty n (b : list Q) : valid_buffer n b -> n <> 0%nat -> b <> [].
Proof. intros [Hl _] Hn ->. simpl in Hl. lia. Qed.

Section Sessions.

Variable Math_sin : Q -> Q.
Variable Math_random : nat -> Q.
Variable Math_div : Q -> Q -> Q.

Hypothesis Math_sin_range : forall x, in_range (Math_sin x).
Hypothesis Math_random_range : forall k, 0 <= Math_random k /\ Math_random k < 1.
Hypothesis Math_div_whole : forall a b, 0 < b -> b <= a -> 1 <= Math_div a b.
Hypothesis Math_div_fraction :
  forall a b, 0 < a -> a < b -> 0 <= Math_div a b /\ Math_div a b < 1.

Lemma frames_fit rate freq type :
  0 < freq -> freq <= rate -> frames type (Math_div rate freq) < length_limit ->
  ToLength (Math_div rate freq) <> 0%nat
  /\ ToLength (frames type (Math_div rate freq)) <> 0%nat.
Proof.
  intros Hf Hr Hl. unfold frames in *.
  destruct (String.eqb type "noise").
  - now apply period_fits_noise.
  - split; now apply period_fits.
Qed.

(** What [audioBuffer] does to a page with a context: it throws, having
    at most added a buffer of zeros that nothing uses, or it adds its
    buffers to the store and returns the last one, which is not empty and
    has samples in [-1, 1]. *)
Lemma audioBuffer_outcome st rate freq type :
  webaudio st = VContext rate ->
  ((ToLength (Math_div rate freq) = 0%nat
    \/ ToLength (frames type (Math_div rate freq)) = 0%nat)
   /\ exists st' garbage,
        audioBuffer Math_sin Math_random Math_div freq type st
          = Throw NotSupportedError st'
        /\ (ToLength (Math_div rate freq) = 0%nat -> st' = st)
        /\ heap st' = heap st ++ garbage
        /\ (forall active, sounding (log st') active = sounding (log st) active)
        /\ audio st' = audio st /\ nodes st' = nodes st
        /\ same_page st st')
  \/ (ToLength (Math_div rate freq) <> 0%nat
      /\ ToLength (frames type (Math_div rate freq)) <> 0%nat
      /\ exists st' garbage b,
           audioBuffer Math_sin Math_random Math_div freq type st
             = Ok (length (heap st ++ garbage)) st'
           /\ heap st' = (heap st ++ garbage) ++ [b]
           /\ channel b <> []
           /\ of_nat (length (channel b)) < length_limit
           /\ Forall in_range (channel b)
           /\ (forall active, sounding (log st') active = sounding (log st) active)
           /\ audio st' = audio st /\ nodes st' = nodes st
           /\ same_page st st').
Proof.
  intros Hw.
  destruct (Nat.eq_dec (ToLength (Math_div rate freq)) 0%nat) as [Hz | Hn].
  { left. split; [now left |]. exists st, []. rewrite app_nil_r.
    split; [| repeat split].
    unfold audioBuffer, context_sampleRate, createBuffer. run.
    rewrite Hw. simpl. rewrite Hz. reflexivity. }
  assert (forall n (d : list Q), valid_buffer n d ->
            of_nat (length d) < length_limit -> n <> 0%nat ->
            d <> [] /\ of_nat (length d) < length_limit /\ Forall in_range d)
    as Hpack.
  { intros n d Hv Hl Hne. split; [eapply valid_not_empty; eauto |].
    split; [exact Hl | apply Hv]. }
  assert (forall n (d : list Q), valid_buffer n d -> n = ToLength (Math_div rate freq)
            \/ n = ToLength (32 * Math_div rate freq) ->
            of_nat (length d) < length_limit) as Hlim.
  { intros n d [Hl _] [-> | ->]; rewrite Hl; apply ToLength_limit. }
  unfold frames.
  destruct (String.eqb type "saw") eqn:E1.
  { assert (String.eqb type "noise" = false) as ->
      by (apply String.eqb_eq in E1; now subst).
    right. split; [exact Hn |]. split; [exact Hn |].
    unfold audioBuffer, context_sampleRate, createBuffer, getChannelData,
      setChannelData.
    run. rewrite Hw. simpl.
    destruct (Nat.eqb_spec (ToLength (Math_div rate freq)) 0); [contradiction |].
    simpl. rewrite lookup_snoc. simpl. rewrite E1. simpl.
    eexists _, [], _. rewrite app_nil_r. split; [reflexivity |]. simpl.
    rewrite alter_snoc. split; [reflexivity |]. simpl.
    assert (valid_buffer (ToLength (Math_div rate freq))
              (for_loop (trips (Math_div rate freq))
                 (fun i data => <[i := 1 - 2 * of_nat i / Math_div rate freq]> data)
                 (replicate (ToLength (Math_div rate freq)) 0))) as Hvalid.
    { apply fill_loop_valid; [apply zeros_valid |].
      intros i Hi. apply saw_sample_in_range. now apply trips_spec. }
    destruct (Hpack _ _ Hvalid (Hlim _ _ Hvalid (or_introl eq_refl)) Hn)
      as (? & ? & ?).
    split; [assumption |]. split; [assumption |]. split; [assumption |].
    split; [intros; now rewrite sounding_app |].
    repeat split. }
  destruct (String.eqb type "square") eqn:E2.
  { assert (String.eqb type "noise" = false) as ->
      by (apply String.eqb_eq in E2; now subst).
    right. split; [exact Hn |]. split; [exact Hn |].
    unfold audioBuffer, context_sampleRate, createBuffer, getChannelData,
      setChannelData.
    run. rewrite Hw. simpl.
    destruct (Nat.eqb_spec (ToLength (Math_div rate freq)) 0); [contradiction |].
    simpl. rewrite lookup_snoc. simpl. rewrite E1, E2. simpl.
    eexists _, [], _. rewrite app_nil_r. split; [reflexivity |]. simpl.
    rewrite alter_snoc. split; [reflexivity |]. simpl.
    assert (valid_buffer (ToLength (Math_div rate freq))
              (for_loop (trips (Math_div rate freq))
                 (fun i data => if ltb (of_nat i) (Math_div rate freq / 2)
                                then <[i := 1]> data else <[i := -1]> data)
                 (replicate (ToLength (Math_div rate freq)) 0))) as Hvalid.
    { apply (for_loop_invariant
               (fun _ d => valid_buffer (ToLength (Math_div rate freq)) d));
        [apply zeros_valid |].
      intros i d _ Hd. destruct (ltb _ _);
        apply valid_buffer_insert; trivial; split; lra. }
    destruct (Hpack _ _ Hvalid (Hlim _ _ Hvalid (or_introl eq_refl)) Hn)
      as (? & ? & ?).
    split; [assumption |]. split; [assumption |]. split; [assumption |].
    split; [intros; now rewrite sounding_app |].
    repeat split. }
  destruct (String.eqb type "noise") eqn:E3.
  { destruct (Nat.eq_dec (ToLength (32 * Math_div rate freq)) 0%nat)
      as [Hz' | Hn'].
    { left. split; [now right |].
      unfold audioBuffer, context_sampleRate, createBuffer, getChannelData,
        setChannelData.
      run. rewrite Hw. simpl.
      destruct (Nat.eqb_spec (ToLength (Math_div rate freq)) 0); [contradiction |].
      simpl. rewrite lookup_snoc. simpl. rewrite E1, E2, E3. simpl.
      rewrite Hz'. simpl.
      eexists _, [_]. split; [reflexivity |]. simpl.
      split; [intros; contradiction |]. split; [reflexivity |].
      split; [intros; now rewrite sounding_app |].
      repeat split. }
    right. split; [exact Hn |]. split; [exact Hn' |].
    unfold audioBuffer, context_sampleRate, createBuffer, getChannelData,
      setChannelData.
    run. rewrite Hw. simpl.
    destruct (Nat.eqb_spec (ToLength (Math_div rate freq)) 0); [contradiction |].
    simpl. rewrite lookup_snoc. simpl. rewrite E1, E2, E3. simpl.
    destruct (Nat.eqb_spec (ToLength (32 * Math_div rate freq)) 0);
      [contradiction |].
    simpl.
    set (h1 := heap st ++ [ _ ]) in *.
    rewrite lookup_snoc. simpl.
    pose proof (clamping_loop_random (ToLength (32 * Math_div rate freq))
                  (trips (32 * Math_div rate freq))
                  (fun i b k => Math_random k * 2 - 1)
                  (replicate (ToLength (32 * Math_div rate freq)) 0) (draws st)
                  (zeros_valid _)
                  ltac:(intros; apply random_sample_in_range; assumption))
      as Hvalid.
    destruct (for_loop _ _ _) as [data calls] eqn:E. simpl in Hvalid.
    eexists _, [_], _. fold h1. split; [reflexivity |]. simpl.
    rewrite alter_snoc. split; [reflexivity |]. simpl.
    destruct (Hpack _ _ Hvalid (Hlim _ _ Hvalid (or_intror eq_refl)) Hn')
      as (? & ? & ?).
    split; [assumption |]. split; [assumption |]. split; [assumption |].
    split; [intros; now rewrite !sounding_app |].
    repeat split. }
  right. split; [exact Hn |]. split; [exact Hn |].
  unfold audioBuffer, context_sampleRate, createBuffer, getChannelData,
    setChannelData.
  run. rewrite Hw. simpl.
  destruct (Nat.eqb_spec (ToLength (Math_div rate freq)) 0); [contradiction |].
  simpl. rewrite lookup_snoc. simpl. rewrite E1, E2, E3. simpl.
  eexists _, [], _. rewrite app_nil_r. split; [reflexivity |]. simpl.
  rewrite alter_snoc. split; [reflexivity |]. simpl.
  assert (valid_buffer (ToLength (Math_div rate freq))
            (for_loop (trips (Math_div rate freq))
               (fun i data =>
                  <[i := Math_sin (2 * Math_PI / Math_div rate freq * of_nat i)]> data)
               (replicate (ToLength (Math_div rate freq)) 0))) as Hvalid.
  { apply fill_loop_valid; [apply zeros_valid |]. intros. apply Math_sin_range. }
  destruct (Hpack _ _ Hvalid (Hlim _ _ Hvalid (or_introl eq_refl)) Hn)
    as (? & ? & ?).
  split; [assumption |]. split; [assumption |]. split; [assumption |].
  split; [intros; now rewrite sounding_app |].
  repeat split.
Qed.

Lemma mutations_valid kind (b : list Q) a calls :
  Forall in_range b ->
  valid_buffer (length b) (mutations Math_sin Math_random kind b a calls).1.
Proof.
  intros H. destruct kind; simpl.
  - now apply sinify_valid.
  - now apply squarify_valid.
  - now apply peakify_valid.
  - now apply nullify_valid.
  - now apply offsettify_valid.
  - now apply smoothify_valid.
  - now apply noisify_valid.
  - now apply randomizify_valid.
Qed.

Lemma sounds_grow st st' garbage :
  sounds st -> webaudio st' = webaudio st -> audio st' = audio st ->
  nodes st' = nodes st -> heap st' = heap st ++ garbage ->
  volume st' = volume st ->
  (forall active, sounding (log st') active = sounding (log st) active) ->
  sounds st'.
Proof.
  intros (rate & h & n & r & b & Hw & Ha & Hn & Hb & Hh & Hne & Hlim & Hr & Hv
          & Hs) Ew Ea En Eh Ev El.
  exists rate, h, n, r, b. rewrite Ew, Ea, En, Eh, Ev, El.
  split; [exact Hw |]. split; [exact Ha |]. split; [exact Hn |].
  split; [exact Hb |]. split; [now apply lookup_app_l_Some |]. auto 10.
Qed.

Lemma sounds_same st st' :
  sounds st -> webaudio st' = webaudio st -> audio st' = audio st ->
  nodes st' = nodes st -> heap st' = heap st -> volume st' = volume st ->
  (forall active, sounding (log st') active = sounding (log st) active) ->
  sounds st'.
Proof.
  intros Hs Ew Ea En Eh Ev El.
  apply (sounds_grow st st' []); trivial. now rewrite app_nil_r.
Qed.

Lemma same_page_trans st1 st2 st3 :
  same_page st1 st2 -> same_page st2 st3 -> same_page st1 st3.
Proof.
  intros (? & ? & ? & ? & ? & ? & ?) (? & ? & ? & ? & ? & ? & ?).
  repeat split; congruence.
Qed.

(** An install on a page that sounds leaves a page that sounds, with
    the buffer it was given. *)
Lemma newBufferSource_keeps_sound st r b :
  sounds st -> heap st !! r = Some b -> channel b <> [] ->
  of_nat (length (channel b)) < length_limit ->
  Forall in_range (channel b) ->
  exists st',
    newBufferSource r st = Ok tt st' /\ sounds st' /\ same_page st st'
    /\ audio_buffer st' = Ok r st' /\ heap st' = heap st
    /\ draws st' = draws st
    /\ exists h, audio st = Some h
         /\ log st' = log st
              ++ [EvCreateSource (length (nodes st)); EvLoop (length (nodes st));
                  EvConnect (length (nodes st));
                  EvSetBuffer (length (nodes st)) r;
                  EvStart (length (nodes st)); EvStop h].
Proof.
  intros (rate & h & n & r0 & b0 & Hw & Ha & Hn & Hb & Hh & Hne & Hlim & Hr & Hv
          & Hs) Hrb Hbne Hblim Hbr.
  destruct Hv as [g Hv].
  pose proof (lookup_lt_Some _ _ _ Hn) as Hlt.
  destruct (newBufferSource_run st r g Hv) as
    (st' & Hrun & Ha' & Hl' & Hn' & Hh' & Hd' & Hs').
  { intros old Ho. rewrite Ha in Ho. inversion Ho; subst. exact Hlt. }
  rewrite Ha in Hl'.
  exists st'. split; [exact Hrun |].
  destruct Hs' as (Hi & Hw' & Hv' & Hrest).
  split.
  { eexists rate, (length (nodes st)), _, r, b.
    split; [congruence |]. split; [exact Ha' |]. split; [exact Hn' |].
    split; [reflexivity |]. split; [now rewrite Hh' |].
    split; [exact Hbne |]. split; [exact Hblim |]. split; [exact Hbr |].
    split; [rewrite Hv', Hv; eauto |].
    rewrite Hl', sounding_app, Hs. simpl.
    rewrite filter_cons_False by (simpl; intros H; now apply H).
    rewrite filter_cons_True by (simpl; lia). reflexivity. }
  split; [repeat split; tauto |].
  split.
  { unfold audio_buffer. run. rewrite Ha'. simpl. rewrite Hn'. reflexivity. }
  split; [exact Hh' |]. split; [exact Hd' |].
  exists h. split; [exact Ha | exact Hl'].
Qed.

(** A mutation cycle with a name under which [mutations] has no
    function, its own or inherited: the new buffer is made, then the call
    throws. *)
Lemma mutateBuffer_unknown st rate h n r b :
  webaudio st = VContext rate -> audio st = Some h ->
  nodes st !! h = Some n -> buffer n = Some r ->
  heap st !! r = Some b -> channel b <> [] ->
  of_nat (length (channel b)) < length_limit ->
  mutations_member (mutation (inputs st)) = NotCallable ->
  mutateBuffer Math_sin Math_random st
  = Throw TypeError
      (set_log (log st ++ [EvMutate]
                ++ [EvCreateBuffer (length (heap st)) (length (channel b))])
         (set_heap (heap st ++ [ {| sampleRate := rate;
                                    channel := replicate (length (channel b)) 0 |} ])
            st)).
Proof.
  intros Hw Ha Hn Hb Hh Hne Hlim Hk.
  unfold mutateBuffer, audio_buffer, getChannelData, context_sampleRate,
    createBuffer, setChannelData, drawBuffer.
  run. rewrite Ha. simpl. rewrite Hn. simpl. rewrite Hb. simpl.
  rewrite Hh. simpl. rewrite Hw. simpl.
  rewrite ToLength_of_nat by exact Hlim.
  destruct (Nat.eqb_spec (length (channel b)) 0) as [E | _].
  { destruct (channel b); [congruence | discriminate]. }
  simpl. unfold mutations_function. rewrite Hk. simpl.
  now rewrite <- !app_assoc.
Qed.

(** What the call [mutations[name](data, amount)] makes of an array with
    samples in [-1, 1], when it returns. *)
Lemma mutations_function_valid name step (b : list Q) a calls :
  mutations_function Math_sin Math_random name = Some step ->
  Forall in_range b -> valid_buffer (length b) (step b a calls).1.
Proof.
  unfold mutations_function. intros Hstep Hb.
  destruct (mutations_member name) as [kind | |]; inversion Hstep; subst.
  - now apply mutations_valid.
  - split; [reflexivity | exact Hb].
Qed.

Lemma mutations_function_length name step (b : list Q) a calls :
  mutations_function Math_sin Math_random name = Some step ->
  length (step b a calls).1 = length b.
Proof.
  unfold mutations_function. intros Hstep.
  destruct (mutations_member name) as [kind | |]; inversion Hstep; subst.
  - apply mutations_length.
  - reflexivity.
Qed.

Lemma mutations_function_none name :
  mutations_function Math_sin Math_random name = None ->
  mutations_member name = NotCallable.
Proof.
  unfold mutations_function. now destruct (mutations_member name).
Qed.

(** Whatever the mutation selected, a cycle on a page that sounds leaves
    a page that sounds, and touches neither the inputs nor the timers. *)
Lemma mutateBuffer_keeps_sound st :
  sounds st ->
  sounds (final (mutateBuffer Math_sin Math_random st))
  /\ same_page st (final (mutateBuffer Math_sin Math_random st)).
Proof.
  intros Hs.
  pose proof Hs as (rate & h & n & r & b & Hw & Ha & Hn & Hb & Hh & Hne & Hlim
                    & Hr & Hv & Hso).
  pose proof (lookup_lt_Some _ _ _ Hh) as Hrlt.
  pose proof (lookup_lt_Some _ _ _ Hn) as Hhlt.
  destruct (mutations_function Math_sin Math_random (mutation (inputs st)))
    as [step|] eqn:Hk.
  - pose proof (mutations_function_valid _ step (channel b)
                  (mutation_amount (inputs st) - 20) (draws st) Hk Hr)
      as [Hlen Hval].
    destruct (mutateBuffer_step Math_sin Math_random st rate h n r b step
                Hw Ha Hn Hb Hh Hne Hlim Hv Hk Hlen)
      as (st' & -> & Hh' & Ha' & Hn' & _ & Hp' & _ & _ & Hl').
    simpl. split; [| exact Hp'].
    destruct Hp' as (_ & Hw' & Hv' & _).
    eexists rate, (length (nodes st)), _, (length (heap st)), _.
    split; [congruence |]. split; [exact Ha' |]. split; [exact Hn' |].
    split; [reflexivity |].
    split.
    { rewrite Hh'. apply lookup_snoc_at. now rewrite length_alter. }
    simpl. rewrite Hlen.
    split.
    { intros E. rewrite E in Hlen. simpl in Hlen.
      destruct (channel b); [congruence | discriminate]. }
    split; [exact Hlim |]. split; [exact Hval |].
    split; [now rewrite Hv' |].
    rewrite Hl', Hso. simpl.
    rewrite filter_cons_False by (simpl; intros H; now apply H).
    rewrite filter_cons_True by (simpl; lia). reflexivity.
  - apply mutations_function_none in Hk.
    rewrite (mutateBuffer_unknown st rate h n r b Hw Ha Hn Hb Hh Hne Hlim Hk).
    simpl. split; [| repeat split].
    eapply (sounds_grow st _ [_]); [exact Hs | reflexivity ..|].
    intros. simpl. now rewrite !sounding_app.
Qed.

(** [updateBuffer] on a page that sounds: the generator throws and the
    sound is as before, or its buffer is installed and drawn. *)
Lemma updateBuffer_outcome st rate :
  sounds st -> webaudio st = VContext rate ->
  ((ToLength (Math_div rate (freq (inputs st))) = 0%nat
    \/ ToLength (frames (wavetype (inputs st))
                   (Math_div rate (freq (inputs st)))) = 0%nat)
   /\ exists st',
        updateBuffer Math_sin Math_random Math_div st = Throw NotSupportedError st'
        /\ (ToLength (Math_div rate (freq (inputs st))) = 0%nat -> st' = st)
        /\ sounds st' /\ same_page st st')
  \/ (exists st' r b h,
           updateBuffer Math_sin Math_random Math_div st = Ok tt st'
           /\ sounds st' /\ same_page st st'
           /\ audio_buffer st' = Ok r st'
           /\ heap st !! r = None /\ heap st' !! r = Some b
           /\ audio st = Some h
           /\ playstate <$> nodes st' !! h = Some Finished
           /\ last (log st') = Some (EvDraw (channel b))).
Proof.
  intros Hs Hw.
  destruct (audioBuffer_outcome st rate (freq (inputs st)) (wavetype (inputs st)) Hw)
    as [[Hz (st1 & garbage & Hrun & Hsame & Hh1 & Hl1 & Ha1 & Hn1 & Hp1)]
       | (Hn & Hn' & st1 & garbage & b & Hrun & Hh1 & Hne & Hlim & Hr & Hl1 & Ha1
          & Hn1 & Hp1)].
  - left. split; [exact Hz |]. exists st1.
    split; [unfold updateBuffer; run; now rewrite Hrun |].
    split; [exact Hsame |]. split; [| exact Hp1].
    destruct Hp1 as (? & Hw1 & Hv1 & _).
    now apply (sounds_grow st st1 garbage).
  - right.
    assert (sounds st1) as Hs1.
    { destruct Hp1 as (? & Hw1 & Hv1 & _).
      apply (sounds_grow st st1 (garbage ++ [b])); trivial.
      now rewrite app_assoc. }
    assert (heap st1 !! length (heap st ++ garbage) = Some b) as Hb1
      by (rewrite Hh1; apply lookup_snoc).
    destruct (newBufferSource_keeps_sound st1 _ b Hs1 Hb1 Hne Hlim Hr)
      as (st2 & Hrun2 & Hs2 & Hp2 & Hab2 & Hh2 & Hd2 & h & Hah & Hl2).
    assert (exists n, nodes st1 !! h = Some n) as [n Hnh].
    { destruct Hs1 as (? & h' & n & ? & ? & ? & Ha' & Hn'' & _).
      rewrite Hah in Ha'. inversion Ha'; subst. eauto. }
    pose proof (newBufferSource_stops_old st1 _ h n st2
                  ltac:(destruct Hs1 as (?&?&?&?&?&?&?&?&?&?&?&?&?&Hv&?); exact Hv)
                  Hah Hnh Hrun2) as Hstop.
    unfold updateBuffer, getChannelData, drawBuffer. run.
    rewrite Hrun. simpl. rewrite Hrun2. simpl.
    rewrite Hab2. simpl. rewrite Hh2, Hb1. simpl.
    eexists _, (length (heap st ++ garbage)), b, h.
    split; [reflexivity |]. simpl.
    split.
    { eapply sounds_same; [exact Hs2 | reflexivity ..|].
      intros. simpl. now rewrite sounding_app. }
    split.
    { eapply same_page_trans; [exact Hp1 |].
      destruct Hp2 as (? & ? & ? & ? & ? & ? & ?). repeat split; assumption. }
    split.
    { eapply audio_buffer_same; [| | exact Hab2]; reflexivity. }
    split; [apply lookup_ge_None_2; rewrite length_app; lia |].
    split; [now rewrite Hh2 |].
    split; [now rewrite <- Ha1 |].
    split; [now rewrite Hstop |].
    apply last_snoc.
Qed.

Lemma updateBuffer_keeps_sound st :
  sounds st ->
  sounds (final (updateBuffer Math_sin Math_random Math_div st))
  /\ same_page st (final (updateBuffer Math_sin Math_random Math_div st)).
Proof.
  intros Hs. pose proof Hs as (rate & ? & ? & ? & ? & Hw & _).
  destruct (updateBuffer_outcome st rate Hs Hw)
    as [[_ (st' & -> & _ & Hs' & Hp')] | (st' & r & b & h & -> & Hs' & Hp' & _)];
    simpl; split; assumption.
Qed.

(** One millisecond keeps both invariants. *)
Lemma tick_keeps_invariants st :
  sounds st -> scheduled st ->
  sounds (tick Math_sin Math_random st)
  /\ scheduled (tick Math_sin Math_random st).
Proof.
  intros Hs [[Hm Ht] | (id & d & Hm & Ht & Hlt & Hle)].
  - unfold tick. simpl. rewrite Ht. simpl. split.
    + eapply sounds_same; [exact Hs | reflexivity ..| reflexivity].
    + left. split; assumption.
  - destruct (Nat.eq_dec (S (clock st)) d) as [Hd | Hd].
    + subst d. unfold tick. simpl. rewrite Ht. simpl.
      rewrite Nat.eqb_refl. simpl.
      unfold fire. simpl. rewrite Ht. simpl. rewrite Nat.eqb_refl. simpl.
      unfold run_task.
      match goal with
      | |- context [mutateBuffer _ _ ?X] =>
          destruct (mutateBuffer_keeps_sound X) as [Hs' Hp'];
            [eapply sounds_same; [exact Hs | reflexivity ..| reflexivity] |]
      end.
      split; [exact Hs' |].
      destruct Hp' as (_ & _ & _ & Hm' & Ht' & _ & Hc').
      right. exists id, (S (clock st) + 200)%nat.
      rewrite Hm', Ht', Hc'. simpl.
      split; [exact Hm |]. split; [reflexivity |]. lia.
    + rewrite (tick_quiet Math_sin Math_random st (S id) d Ht Hd). split.
      * eapply sounds_same; [exact Hs | reflexivity ..| reflexivity].
      * right. exists id, d. simpl. repeat split; trivial; lia.
Qed.

Lemma elapse_keeps_invariants ms : forall st,
  sounds st -> scheduled st ->
  sounds (elapse Math_sin Math_random ms st)
  /\ scheduled (elapse Math_sin Math_random ms st).
Proof.
  induction ms as [|ms IH]; intros st Hs Hc; [split; assumption |].
  cbn [elapse]. destruct (tick_keeps_invariants st Hs Hc). now apply IH.
Qed.

Lemma click_keeps_invariants st :
  sounds st -> scheduled st ->
  sounds (click_mutate Math_sin Math_random st)
  /\ scheduled (click_mutate Math_sin Math_random st).
Proof.
  intros Hs [[Hm Ht] | (id & d & Hm & Ht & Hlt & Hle)].
  - destruct (mutateBuffer_keeps_sound st Hs) as [Hs' Hp'].
    unfold click_mutate, run_task, mutate_click, setInterval. run.
    rewrite Hm. simpl.
    destruct (mutateBuffer Math_sin Math_random st) as [[] st1 | e st1];
      simpl in *.
    + destruct Hp' as (_ & _ & _ & Hm' & Ht' & Htc' & Hc').
      split.
      * eapply sounds_same; [exact Hs' | reflexivity ..|].
        intros. simpl. now rewrite sounding_app.
      * right. exists (timer_count st1), (clock st1 + 200)%nat.
        rewrite Ht', Ht. simpl. repeat split; lia.
    + destruct Hp' as (_ & _ & _ & Hm' & Ht' & _).
      split; [exact Hs' |]. left. split; congruence.
  - unfold click_mutate, run_task, mutate_click, clearInterval. run.
    rewrite Hm. simpl. rewrite Ht. split.
    + eapply sounds_same; [exact Hs | reflexivity ..|].
      intros. simpl. now rewrite sounding_app.
    + left. split; [reflexivity |].
      rewrite filter_cons_False; [reflexivity |]. simpl. intros H. now apply H.
Qed.

Lemma scheduled_same st st' :
  scheduled st -> same_page st st' -> scheduled st'.
Proof.
  intros Hc (_ & _ & _ & Hm & Ht & _ & Hcl).
  unfold scheduled. now rewrite Hm, Ht, Hcl.
Qed.

Lemma handle_keeps_invariants e st :
  sounds st -> scheduled st ->
  sounds (handle Math_sin Math_random Math_div e st)
  /\ scheduled (handle Math_sin Math_random Math_div e st).
Proof.
  intros Hs Hc. destruct e as [| ms | f type | name slider]; simpl.
  - now apply click_keeps_invariants.
  - now apply elapse_keeps_invariants.
  - match goal with
    | |- context [run_task _ ?X] =>
        destruct (updateBuffer_keeps_sound X) as [Hs' Hp'];
          [eapply sounds_same; [exact Hs | reflexivity ..| reflexivity] |]
    end.
    split; [exact Hs' |].
    eapply scheduled_same; [| exact Hp']. exact Hc.
  - split.
    + eapply sounds_same; [exact Hs | reflexivity ..| reflexivity].
    + exact Hc.
Qed.

Lemma session_keeps_invariants events : forall st,
  sounds st -> scheduled st ->
  sounds (run_events Math_sin Math_random Math_div events st)
  /\ scheduled (run_events Math_sin Math_random Math_div events st).
Proof.
  induction events as [|e events IH]; intros st Hs Hc; [split; assumption |].
  simpl. destruct (handle_keeps_invariants e st Hs Hc). now apply IH.
Qed.

(** X16.  Whatever the user does on a page that sounds -- clicks on
    [#mutate], waits, new frequencies or wave types (valid or not), new
    mutation names (known or not) and amounts -- exactly one playback
    handle sounds afterwards, and it is [audio]. *)
Theorem session_has_one_voice events st :
  sounds st -> scheduled st ->
  exists h,
    audio (run_events Math_sin Math_random Math_div events st) = Some h
    /\ sounding (log (run_events Math_sin Math_random Math_div events st)) [] = [h].
Proof.
  intros Hs Hc.
  destruct (session_keeps_invariants events st Hs Hc)
    as [(rate & h & n & r & b & _ & Ha & _ & _ & _ & _ & _ & _ & _ & Hso) _].
  exists h. split; assumption.
Qed.

(** X17.  After any such session the buffer that plays is in the store,
    is not empty and has every sample in [-1, 1]. *)
Theorem session_plays_valid_buffer events st :
  sounds st -> scheduled st ->
  exists r b,
    audio_buffer (run_events Math_sin Math_random Math_div events st)
      = Ok r (run_events Math_sin Math_random Math_div events st)
    /\ heap (run_events Math_sin Math_random Math_div events st) !! r = Some b
    /\ channel b <> [] /\ Forall in_range (channel b).
Proof.
  intros Hs Hc.
  destruct (session_keeps_invariants events st Hs Hc)
    as [(rate & h & n & r & b & _ & Ha & Hn & Hb & Hh & Hne & _ & Hr & _) _].
  exists r, b. split; [| auto].
  unfold audio_buffer. run. rewrite Ha. simpl. rewrite Hn. simpl.
  rewrite Hb. reflexivity.
Qed.

(** X18.  After any such session at most one timer is armed: the page
    is idle with no timer, or [mutating] holds the identifier, not 0, of the
    only timer, which is the mutation timer and is due within 200 ms. *)
Theorem session_arms_one_timer events st :
  sounds st -> scheduled st ->
  (mutating (run_events Math_sin Math_random Math_div events st) = None
   /\ timers (run_events Math_sin Math_random Math_div events st) = [])
  \/ exists id d,
       mutating (run_events Math_sin Math_random Math_div events st) = Some (S id)
       /\ timers (run_events Math_sin Math_random Math_div events st)
          = [mutation_timer (S id) d]
       /\ (clock (run_events Math_sin Math_random Math_div events st) < d)%nat
       /\ (d <= clock (run_events Math_sin Math_random Math_div events st) + 200)%nat.
Proof.
  intros Hs Hc. exact (proj2 (session_keeps_invariants events st Hs Hc)).
Qed.

(** [INIT] on a page whose browser has a context constructor under one
    of the two names, the frequency asked for not above the sample rate. *)
Lemma init_run ui A W rate :
  js_or A W = VConstructor rate -> 0 < freq ui -> freq ui <= rate ->
  frames (wavetype ui) (Math_div rate (freq ui)) < length_limit ->
  exists st',
    init Math_sin Math_random Math_div (page ui A W) = Ok tt st'
    /\ sounds st' /\ mutating st' = None /\ timers st' = []
    /\ webaudio st' = VContext rate
    /\ volume st' = Some {| gain := volume_input ui; to_destination := true |}
    /\ audio st' = Some 0%nat
    /\ inputs st' = ui /\ clock st' = 0%nat
    /\ last (log st') = Some EvSuspend.
Proof.
  intros HA Hf Hr Hfit.
  destruct (frames_fit rate (freq ui) (wavetype ui) Hf Hr Hfit) as [Hn Hn'].
  unfold init, construct. run. rewrite HA. simpl.
  unfold strict_equal. simpl.
  match goal with
  | |- context [audioBuffer _ _ _ _ _ ?X] =>
      destruct (audioBuffer_outcome X rate (freq ui) (wavetype ui) eq_refl)
        as [[[Hz | Hz] _]
           | (_ & _ & st1 & garbage & b & Hrun & Hh1 & Hne & Hlim & Hrg & Hl1
              & Ha1 & Hn1 & Hp1)]; [contradiction | contradiction |]
  end.
  rewrite Hrun. simpl in *.
  destruct Hp1 as (Hi1 & Hw1 & Hv1 & Hm1 & Ht1 & Htc1 & Hc1). simpl in *.
  destruct (newBufferSource_run st1 (length garbage) _ Hv1)
    as (st2 & Hrun2 & Ha2 & Hl2 & Hn2 & Hh2 & Hd2 & Hp2).
  { intros old Ho. rewrite Ha1 in Ho. discriminate. }
  rewrite Hrun2. simpl.
  destruct Hp2 as (Hi2 & Hw2 & Hv2 & Hm2 & Ht2 & Htc2 & Hc2).
  rewrite Hn1 in Ha2, Hn2. simpl in Ha2, Hn2.
  unfold audio_buffer, getChannelData, drawBuffer. run.
  rewrite Ha2. simpl. rewrite Hn2. simpl. rewrite Hh2, Hh1.
  rewrite lookup_snoc. simpl.
  eexists. split; [reflexivity |]. simpl.
  split.
  { eexists rate, 0%nat, _, (length garbage), b. simpl.
    split; [congruence |]. split; [exact Ha2 |]. split; [exact Hn2 |].
    split; [reflexivity |]. split; [rewrite Hh2, Hh1; apply lookup_snoc |].
    split; [exact Hne |]. split; [exact Hlim |]. split; [exact Hrg |].
    split; [rewrite Hv2, Hv1; eauto |].
    rewrite Hl2, Ha1, Hn1. rewrite !sounding_app, Hl1. reflexivity. }
  split; [congruence |]. split; [congruence |]. split; [congruence |].
  split; [congruence |]. split; [exact Ha2 |]. split; [congruence |].
  split; [congruence |]. apply last_snoc.
Qed.

(** X19.  [INIT] succeeds on a browser that has the context under
    either name ([AudioContext], or only [webkitAudioContext]) when the
    frequency asked for is positive and not above the sample rate and the
    number of frames asked for (the computed quotient [sampleRate / freq],
    32 times it for noise) is below 2^32: the page then sounds with one
    source, its gain node is connected with the gain of the volume input,
    no timer is armed, and the last thing done is to suspend the context. *)
Theorem init_makes_the_page_sound ui A W rate :
  js_or A W = VConstructor rate -> 0 < freq ui -> freq ui <= rate ->
  frames (wavetype ui) (Math_div rate (freq ui)) < length_limit ->
  exists st',
    init Math_sin Math_random Math_div (page ui A W) = Ok tt st'
    /\ sounds st' /\ scheduled st' /\ mutating st' = None
    /\ volume st' = Some {| gain := volume_input ui; to_destination := true |}
    /\ last (log st') = Some EvSuspend.
Proof.
  intros HA Hf Hr Hfit.
  destruct (init_run ui A W rate HA Hf Hr Hfit)
    as (st' & Hrun & Hs & Hm & Ht & _ & Hv & _ & _ & _ & Hl).
  exists st'. repeat split; trivial. left. split; assumption.
Qed.

(** X20.  A change of frequency or wave type on a page that sounds, the
    frequency positive and not above the sample rate and the number of
    frames asked for (the computed quotient [sampleRate / freq], 32 times it
    for noise) below 2^32: the generated buffer is at a fresh address, it is
    the one installed and the one drawn, the source that played before is
    stopped, and the page still sounds. *)
Theorem updateBuffer_replaces_the_sound st rate :
  sounds st -> webaudio st = VContext rate ->
  0 < freq (inputs st) -> freq (inputs st) <= rate ->
  frames (wavetype (inputs st)) (Math_div rate (freq (inputs st))) < length_limit ->
  exists st' r b h,
    updateBuffer Math_sin Math_random Math_div st = Ok tt st'
    /\ sounds st' /\ same_page st st'
    /\ audio_buffer st' = Ok r st'
    /\ heap st !! r = None /\ heap st' !! r = Some b
    /\ audio st = Some h
    /\ playstate <$> nodes st' !! h = Some Finished
    /\ last (log st') = Some (EvDraw (channel b)).
Proof.
  intros Hs Hw Hf Hr Hfit.
  destruct (frames_fit rate _ _ Hf Hr Hfit) as [Hn Hn'].
  destruct (updateBuffer_outcome st rate Hs Hw) as [[[Hz | Hz] _] | H];
    [contradiction | contradiction | exact H].
Qed.

(** X21.  A change to a frequency above the sample rate: the handler
    throws before it touches anything, so the input shows the new frequency
    and everything else, the sound included, is as before. *)
Theorem change_above_sample_rate_is_ignored st rate f type :
  webaudio st = VContext rate -> 0 < rate -> rate < f ->
  handle Math_sin Math_random Math_div (ChangeWave f type) st
  = set_inputs {| freq := f; wavetype := type;
                  mutation := mutation (inputs st);
                  mutation_amount := mutation_amount (inputs st);
                  volume_input := volume_input (inputs st) |} st.
Proof.
  intros Hw Hr Hf. simpl.
  destruct (Math_div_fraction rate f Hr Hf) as [H0 H1].
  unfold run_task, updateBuffer, audioBuffer, context_sampleRate, createBuffer.
  run. rewrite Hw. simpl. now rewrite (ToLength_zero _ H0 H1).
Qed.

(** X22.  A click on [#mutate] while idle, the name selected being no
    function that [mutations] has, neither one of its own nor one it
    inherits from [Object.prototype]: the cycle throws after it has made its
    new buffer, so the store grows by one buffer that nothing uses, no timer
    is armed, [mutating] stays unset, the button text is not changed, and
    the sound is as before. *)
Theorem start_with_unknown_mutation_arms_nothing st :
  sounds st -> mutating st = None -> timers st = [] ->
  mutations_member (mutation (inputs st)) = NotCallable ->
  exists zeros,
    mutating (click_mutate Math_sin Math_random st) = None
    /\ timers (click_mutate Math_sin Math_random st) = []
    /\ heap (click_mutate Math_sin Math_random st) = heap st ++ [zeros]
    /\ Forall (fun v => v = 0) (channel zeros)
    /\ log (click_mutate Math_sin Math_random st)
       = log st ++ [EvMutate;
                    EvCreateBuffer (length (heap st)) (length (channel zeros))]
    /\ audio (click_mutate Math_sin Math_random st) = audio st
    /\ nodes (click_mutate Math_sin Math_random st) = nodes st.
Proof.
  intros (rate & h & n & r & b & Hw & Ha & Hn & Hb & Hh & Hne & Hlim & _) Hm Ht Hk.
  unfold click_mutate, run_task, mutate_click. run. rewrite Hm. simpl.
  rewrite (mutateBuffer_unknown st rate h n r b Hw Ha Hn Hb Hh Hne Hlim Hk).
  simpl.
  eexists {| sampleRate := rate; channel := replicate (length (channel b)) 0 |}.
  simpl. rewrite length_replicate.
  repeat split; trivial.
  apply Forall_forall. intros v Hv. now apply elem_of_replicate in Hv as [-> _].
Qed.

(** X28.  A click on [#mutate] while idle, the name selected being one
    that [mutations] inherits from [Object.prototype] ([toString],
    [constructor], [valueOf], ...): the call returns without touching the
    array, so the cycle completes and the scheduler starts: a new source
    with a new buffer replaces the old one, the samples that play are the
    same, the timer is armed and the button shows STOP. *)
Theorem start_with_inherited_name_runs_the_cycle st data :
  sounds st -> mutating st = None -> timers st = [] ->
  playing st = Some data ->
  mutations_member (mutation (inputs st)) = Inherited ->
  mutating (click_mutate Math_sin Math_random st) = Some (S (timer_count st))
  /\ timers (click_mutate Math_sin Math_random st)
     = [mutation_timer (S (timer_count st)) (clock st + 200)]
  /\ audio (click_mutate Math_sin Math_random st) <> audio st
  /\ playing (click_mutate Math_sin Math_random st) = Some data
  /\ length (heap (click_mutate Math_sin Math_random st)) = S (length (heap st))
  /\ cycles (click_mutate Math_sin Math_random st) = S (cycles st)
  /\ last (log (click_mutate Math_sin Math_random st))
     = Some (EvText "#mutate" "STOP").
Proof.
  intros Hs Hm Ht Hp Hk.
  pose proof Hs as (rate & h & n & r & b & Hw & Ha & Hn & Hb & Hh & Hne & Hlim
                    & Hr & Hv & Hso).
  assert (mutations_function Math_sin Math_random (mutation (inputs st))
          = Some (fun data _ calls => (data, calls))) as Hstep
    by (unfold mutations_function; now rewrite Hk).
  destruct (mutateBuffer_step Math_sin Math_random st rate h n r b _
              Hw Ha Hn Hb Hh Hne Hlim Hv Hstep eq_refl)
    as (st1 & Hrun & Hh1 & Ha1 & Hn1 & Hc1 & Hp1 & _).
  rewrite (playing_lookup st h n r b Ha Hn Hb Hh) in Hp. inversion Hp; subst data.
  assert (playing st1 = Some (channel b)) as Hplay.
  { apply (playing_lookup st1 _ _ (length (heap st))
             {| sampleRate := rate; channel := channel b |} Ha1 Hn1 eq_refl).
    rewrite Hh1. apply lookup_snoc_at. now rewrite length_alter. }
  destruct Hp1 as (Hi & Hw1 & Hv1 & Hm1 & Ht1 & Htc1 & Hcl1).
  unfold click_mutate, run_task, mutate_click, setInterval. run.
  rewrite Hm. simpl. rewrite Hrun. simpl.
  rewrite Ht1, Ht, Htc1, Hcl1.
  split; [reflexivity |]. split; [reflexivity |].
  split.
  { rewrite Ha1, Ha. intros E. inversion E.
    apply lookup_lt_Some in Hn. lia. }
  split.
  { rewrite <- Hplay. now apply playing_same. }
  split; [rewrite Hh1, length_app, length_alter; simpl; lia |].
  split.
  { unfold cycles in *. simpl. rewrite List.filter_app, length_app. simpl. lia. }
  apply last_snoc.
Qed.

(** Every handler on a page that did nothing throws or does nothing. *)
Lemma handle_keeps_silent e st :
  silent st -> silent (handle Math_sin Math_random Math_div e st).
Proof.
  intros (Hw & Ha & Hv & Hh & Hn & Hm & Ht & Hl).
  destruct e as [| ms | f type | name slider]; simpl.
  - unfold click_mutate, run_task, mutate_click, mutateBuffer, audio_buffer.
    run. rewrite Hm. simpl. rewrite Ha. simpl.
    repeat split; trivial.
    apply Forall_app. split; [exact Hl |]. now constructor.
  - revert st Hw Ha Hv Hh Hn Hm Ht Hl.
    induction ms as [|ms IH]; intros st Hw Ha Hv Hh Hn Hm Ht Hl;
      [repeat split; trivial |].
    cbn [elapse]. apply IH; unfold tick; simpl; rewrite Ht; simpl; trivial.
  - unfold run_task, updateBuffer, audioBuffer, context_sampleRate. run.
    rewrite Hw. simpl. repeat split; trivial.
  - repeat split; trivial.
Qed.

(** X23.  On a browser without Web Audio, where [INIT] throws, the
    handlers stay registered and the page stays dead: whatever the user
    does, no context, gain node, buffer, source or timer is ever made, and
    the trace holds nothing but the marks of the calls of [mutateBuffer]
    that threw. *)
Theorem session_without_web_audio_does_nothing events ui :
  silent (run_events Math_sin Math_random Math_div events
            (run_task (init Math_sin Math_random Math_div)
                      (page ui VUndefined VUndefined))).
Proof.
  assert (silent (run_task (init Math_sin Math_random Math_div)
                    (page ui VUndefined VUndefined))) as H.
  { unfold run_task, init, construct. run. repeat split; trivial. }
  revert H. generalize (run_task (init Math_sin Math_random Math_div)
                          (page ui VUndefined VUndefined)).
  induction events as [|e events IH]; intros st H; [exact H |].
  simpl. apply IH. now apply handle_keeps_silent.
Qed.

(** What a cycle does to the samples that play. *)
Lemma mutateBuffer_playing st data :
  sounds st -> playing st = Some data ->
  playing (final (mutateBuffer Math_sin Math_random st))
  = Some match mutations_function Math_sin Math_random (mutation (inputs st)) with
         | Some step => (step data (mutation_amount (inputs st) - 20) (draws st)).1
         | None => data
         end.
Proof.
  intros (rate & h & n & r & b & Hw & Ha & Hn & Hb & Hh & Hne & Hlim & Hr & Hv
          & Hso) Hp.
  rewrite (playing_lookup st h n r b Ha Hn Hb Hh) in Hp. inversion Hp; subst data.
  destruct (mutations_function Math_sin Math_random (mutation (inputs st)))
    as [step|] eqn:Hk.
  - pose proof (mutations_function_length _ step (channel b)
                  (mutation_amount (inputs st) - 20) (draws st) Hk) as Hlen.
    destruct (mutateBuffer_step Math_sin Math_random st rate h n r b step
                Hw Ha Hn Hb Hh Hne Hlim Hv Hk Hlen)
      as (st' & Hrun & Hh' & Ha' & Hn' & _).
    rewrite Hrun. simpl.
    rewrite (playing_lookup st' _ _ (length (heap st))
               {| sampleRate := rate;
                  channel := (step (channel b)
                                (mutation_amount (inputs st) - 20) (draws st)).1 |}
               Ha' Hn' eq_refl); [reflexivity |].
    rewrite Hh'. apply lookup_snoc_at. now rewrite length_alter.
  - apply mutations_function_none in Hk.
    rewrite (mutateBuffer_unknown st rate h n r b Hw Ha Hn Hb Hh Hne Hlim Hk).
    simpl.
    apply (playing_lookup _ h n r b); simpl; trivial.
    now apply lookup_app_l_Some.
Qed.

Lemma mutateBuffer_keeps_length st :
  sounds st ->
  length <$> playing (final (mutateBuffer Math_sin Math_random st))
  = length <$> playing st.
Proof.
  intros Hs.
  pose proof Hs as (rate & h & n & r & b & Hw & Ha & Hn & Hb & Hh & _ & _ & Hr
                    & _).
  pose proof (playing_lookup st h n r b Ha Hn Hb Hh) as Hp.
  rewrite (mutateBuffer_playing st (channel b) Hs Hp), Hp. simpl.
  destruct (mutations_function Math_sin Math_random (mutation (inputs st)))
    as [step|] eqn:Hk; [| reflexivity].
  f_equal. eapply mutations_function_length; eauto.
Qed.

Lemma tick_keeps_length st :
  sounds st -> scheduled st ->
  length <$> playing (tick Math_sin Math_random st) = length <$> playing st.
Proof.
  intros Hs [[Hm Ht] | (id & d & Hm & Ht & Hlt & Hle)].
  - unfold tick. simpl. rewrite Ht. simpl. now apply f_equal, playing_same.
  - destruct (Nat.eq_dec (S (clock st)) d) as [Hd | Hd].
    + subst d. unfold tick. simpl. rewrite Ht. simpl.
      rewrite Nat.eqb_refl. simpl.
      unfold fire. simpl. rewrite Ht. simpl. rewrite Nat.eqb_refl. simpl.
      unfold run_task.
      match goal with
      | |- context [mutateBuffer _ _ ?X] =>
          rewrite (mutateBuffer_keeps_length X)
            by (eapply sounds_same; [exact Hs | reflexivity ..| reflexivity])
      end.
      now apply f_equal, playing_same.
    + rewrite (tick_quiet Math_sin Math_random st (S id) d Ht Hd).
      now apply f_equal, playing_same.
Qed.

Lemma elapse_keeps_length ms : forall st,
  sounds st -> scheduled st ->
  length <$> playing (elapse Math_sin Math_random ms st) = length <$> playing st.
Proof.
  induction ms as [|ms IH]; intros st Hs Hc; [reflexivity |].
  cbn [elapse]. destruct (tick_keeps_invariants st Hs Hc).
  rewrite IH by assumption. now apply tick_keeps_length.
Qed.

Lemma click_keeps_length st :
  sounds st ->
  length <$> playing (click_mutate Math_sin Math_random st)
  = length <$> playing st.
Proof.
  intros Hs. pose proof (mutateBuffer_keeps_length st Hs) as Hl.
  unfold click_mutate, run_task, mutate_click, setInterval, clearInterval. run.
  destruct (truthy_handle (mutating st)); simpl;
    [now apply f_equal, playing_same |].
  destruct (mutateBuffer Math_sin Math_random st) as [[] st1 | e st1];
    simpl in *; [| exact Hl].
  rewrite <- Hl. now apply f_equal, playing_same.
Qed.

(** X24.  Mutation never changes the pitch: whatever clicks on
    [#mutate], waits and changes of mutation or amount follow each other on
    a page that sounds, the buffer that plays has as many samples as at the
    start. *)
Theorem mutation_keeps_the_pitch events : forall st,
  sounds st -> scheduled st -> forallb keeps_wave events = true ->
  length <$> playing (run_events Math_sin Math_random Math_div events st)
  = length <$> playing st.
Proof.
  induction events as [|e events IH]; intros st Hs Hc He; [reflexivity |].
  simpl in He. apply andb_prop in He as [He Hes]. simpl.
  destruct (handle_keeps_invariants e st Hs Hc) as [Hs' Hc'].
  rewrite IH by assumption.
  destruct e as [| ms | f type | name slider]; simpl.
  - now apply click_keeps_length.
  - now apply elapse_keeps_length.
  - discriminate.
  - now apply f_equal, playing_same.
Qed.

(** X25.  A cycle with the amount slider centred (value 20, amount 0)
    and one of the operators scaled by the amount selected: the cycle runs,
    a new source with a new buffer replaces the old one, and the samples
    that play are equal to those that played before. *)
Theorem centred_slider_cycle_keeps_the_samples st kind data :
  sounds st -> playing st = Some data ->
  mutation_named (mutation (inputs st)) = Some kind ->
  In kind amount_scaled ->
  mutation_amount (inputs st) = 20 ->
  exists st' data',
    mutateBuffer Math_sin Math_random st = Ok tt st'
    /\ audio st' <> audio st
    /\ playing st' = Some data'
    /\ Forall2 Qeq data' data.
Proof.
  intros Hs Hp Hk Hin Ha20.
  pose proof (mutateBuffer_playing st data Hs Hp) as Hplay.
  unfold mutations_function in Hplay.
  rewrite (mutations_member_operator _ kind Hk) in Hplay.
  pose proof Hs as (rate & h & n & r & b & Hw & Ha & Hn & Hb & Hh & Hne & Hlim
                    & Hr & Hv & Hso).
  destruct (mutateBuffer_run Math_sin Math_random st rate h n r b kind
              Hw Ha Hn Hb Hh Hne Hlim Hv Hk)
    as (st' & Hrun & _ & Ha' & _).
  rewrite Hrun in Hplay. simpl in Hplay.
  exists st', (mutations Math_sin Math_random kind data
                 (mutation_amount (inputs st) - 20) (draws st)).1.
  split; [exact Hrun |].
  split.
  { rewrite Ha', Ha. intros E. inversion E.
    apply lookup_lt_Some in Hn. lia. }
  split; [exact Hplay |].
  rewrite (playing_lookup st h n r b Ha Hn Hb Hh) in Hp. inversion Hp; subst data.
  rewrite Ha20. change (20 - 20) with 0.
  simpl in Hin.
  destruct Hin as [<- | [<- | [<- | [<- | [<- | []]]]]]; simpl.
  - now apply sinify_zero.
  - now apply squarify_zero.
  - now apply peakify_zero.
  - now apply nullify_zero.
  - now apply offsettify_zero.
Qed.

End Sessions.

(** ** The canvas *)

Lemma for_loop_snoc {A} (g : nat -> A) n (init : list A) :
  for_loop n (fun i path => path ++ [g i]) init = init ++ map g (seq 0 n).
Proof.
  induction n as [|n IH]; [simpl; now rewrite app_nil_r |].
  rewrite for_loop_S, IH, seq_S, map_app, app_assoc. reflexivity.
Qed.

(** The path of [drawBuffer] point by point. *)
Lemma drawBuffer_path_form samples width height :
  drawBuffer_path samples width height
  = (0, height / 2)
    :: map (fun i => ((of_nat i * width) / of_nat (length samples),
                      height / 2 - get samples i * height / 2))
         (seq 0 (length samples)).
Proof. unfold drawBuffer_path. now rewrite for_loop_snoc. Qed.

(** X26.  The curve that [drawBuffer] strokes for samples in [-1, 1] on
    a canvas of positive width has one point more than there are samples,
    starts at the middle of the left edge, and stays on the canvas: every
    point has [0 <= x < width], so the curve never reaches the right edge,
    and [0 <= y <= height]. *)
Theorem drawBuffer_stays_on_canvas samples width height :
  Forall in_range samples -> 0 < width -> 0 <= height ->
  length (drawBuffer_path samples width height) = S (length samples)
  /\ head (drawBuffer_path samples width height) = Some (0, height / 2)
  /\ Forall (fun p => 0 <= p.1 /\ p.1 < width /\ 0 <= p.2 /\ p.2 <= height)
       (drawBuffer_path samples width height).
Proof.
  intros Hr Hw Hh. rewrite drawBuffer_path_form.
  split; [simpl; now rewrite length_map, length_seq |].
  split; [reflexivity |].
  constructor.
  { simpl. unfold Qdiv. change (/ 2) with (1 # 2). repeat split; lra. }
  apply List.Forall_forall. intros p Hp.
  apply in_map_iff in Hp as (i & <- & Hi). apply in_seq in Hi. simpl.
  assert (0 < of_nat (length samples)) as Hn.
  { change 0 with (of_nat 0). apply of_nat_lt. lia. }
  assert (0 <= of_nat i) as Hi0.
  { change 0 with (of_nat 0). apply of_nat_le. lia. }
  assert (of_nat i < of_nat (length samples)) as Hin by (apply of_nat_lt; lia).
  pose proof (get_in_range samples i Hr) as [Hlo Hhi].
  split; [apply Qle_shift_div_l; [exact Hn |]; nra |].
  split; [apply Qlt_shift_div_r; [exact Hn |]; nra |].
  unfold Qdiv. change (/ 2) with (1 # 2). split; nra.
Qed.

(** ** Instances of the further properties *)

(** The page that asks for a square wave of 11025 Hz sounds once [INIT]
    has run, and is idle. *)
Lemma ready_square_sounds : sounds (ready_square 11025).
Proof.
  exists 44100, 0%nat,
    {| loop := true; connected := true; buffer := Some 0%nat;
       playstate := Playing |},
    0%nat, {| sampleRate := 44100; channel := [1; 1; -1; -1] |}.
  repeat split; try (vm_compute; reflexivity); try discriminate.
  - repeat constructor; unfold Qle; simpl; lia.
  - eexists. vm_compute. reflexivity.
Qed.

Lemma ready_square_scheduled : scheduled (ready_square 11025).
Proof. left. split; reflexivity. Qed.

(** Selecting another mutation leaves a page that sounds. *)
Lemma set_inputs_sounds ui st : sounds st -> sounds (set_inputs ui st).
Proof.
  intros (rate & h & n & r & b & H). exists rate, h, n, r, b. exact H.
Qed.

Lemma fitRange_projects_witness :
  -1 <= 1
  /\ between (-1) 1 (fitRange (3 # 2) (-1) 1)
  /\ (between (-1) 1 (3 # 2) -> fitRange (3 # 2) (-1) 1 = 3 # 2)
  /\ fitRange (fitRange (3 # 2) (-1) 1) (-1) 1 = fitRange (3 # 2) (-1) 1
  /\ (3 # 2 <= 2 -> fitRange (3 # 2) (-1) 1 <= fitRange 2 (-1) 1).
Proof.
  assert (-1 <= 1) as H by (unfold Qle; simpl; lia).
  split; [exact H |]. apply (fitRange_projects (3 # 2) 2 (-1) 1 H).
Defined.

Lemma fitRange_inverted_bounds_witness :
  -1 < 1
  /\ (0 < 1 -> fitRange 0 1 (-1) = 1)
  /\ (1 <= 0 -> fitRange 0 1 (-1) = -1).
Proof.
  assert (-1 < 1) as H by reflexivity.
  split; [exact H |]. apply (fitRange_inverted_bounds 0 1 (-1) H).
Defined.

Lemma drifting_undo_witness :
  In Squarify drifting /\ Forall in_range [0; 1 # 2]
  /\ Forall inside (mutations sine_reference random_reference Squarify
                      [0; 1 # 2] 30 0).1
  /\ Forall2 Qeq
       (mutations sine_reference random_reference Squarify
          (mutations sine_reference random_reference Squarify
             [0; 1 # 2] 30 0).1 (- 30) 0).1
       [0; 1 # 2].
Proof.
  assert (In Squarify drifting) as Hk by (simpl; auto).
  assert (Forall in_range [0; 1 # 2]) as H
    by (repeat constructor; unfold Qle; simpl; lia).
  assert (Forall inside (mutations sine_reference random_reference Squarify
                           [0; 1 # 2] 30 0).1) as Hi
    by (vm_compute; repeat constructor).
  split; [exact Hk |]. split; [exact H |]. split; [exact Hi |].
  apply (drifting_undo sine_reference random_reference Squarify
           [0; 1 # 2] 30 0 Hk H Hi).
Defined.

Lemma smoothify_stays_between_witness :
  Forall (between 0 1) [0; 1; 0]
  /\ length (smoothify [0; 1; 0]) = length [0; 1; 0]
  /\ Forall (between 0 1) (smoothify [0; 1; 0]).
Proof.
  assert (Forall (between 0 1) [0; 1; 0]) as H
    by (repeat constructor; unfold Qle; simpl; lia).
  split; [exact H |]. apply (smoothify_stays_between 0 1 [0; 1; 0] H).
Defined.

Lemma smoothify_filters_in_place_witness :
  (2 <= length [1; 1; -1; -1]%Q)%nat /\ (0 < length [1; 1; -1; -1]%Q)%nat
  /\ 3 * get (smoothify [1; 1; -1; -1]) 0
     == (if decide (0 = 0)%nat
         then get [1; 1; -1; -1] (length [1; 1; -1; -1]%Q - 1)
         else get (smoothify [1; 1; -1; -1]) (0 - 1))
        + get [1; 1; -1; -1] 0
        + (if decide (0 + 1 = length [1; 1; -1; -1]%Q)%nat
           then get (smoothify [1; 1; -1; -1]) 0
           else get [1; 1; -1; -1] (0 + 1)).
Proof.
  assert (2 <= length [1; 1; -1; -1]%Q)%nat as H2 by (simpl; lia).
  assert (0 < length [1; 1; -1; -1]%Q)%nat as H0 by (simpl; lia).
  split; [exact H2 |]. split; [exact H0 |].
  apply (smoothify_filters_in_place [1; 1; -1; -1] 0 H2 H0).
Defined.

Lemma noisify_jitter_is_bounded_witness :
  [1 # 2] !! 0%nat = Some (1 # 2) /\ in_range (1 # 2)
  /\ (noisify random_reference [1 # 2] 10 0).2 = (0 + length [1 # 2])%nat
  /\ exists w,
       (noisify random_reference [1 # 2] 10 0).1 !! 0%nat = Some w
       /\ Qabs (w - (1 # 2)) <= (1 # 100) * Qabs 10.
Proof.
  assert (in_range (1 # 2)) as H by (split; unfold Qle; simpl; lia).
  split; [reflexivity |]. split; [exact H |].
  apply (noisify_jitter_is_bounded random_reference random_reference_range
           [1 # 2] 10 0 0 (1 # 2) eq_refl H).
Defined.

Lemma first_sample_is_kept_witness :
  In Peakify [Sinify; Peakify] /\ [1 # 2; 1 # 4] !! 0%nat = Some (1 # 2)
  /\ in_range (1 # 2)
  /\ exists w,
       Nat.iter 3 (fun b => (mutations sine_reference random_reference Peakify
                               b 20 0).1) [1 # 2; 1 # 4] !! 0%nat = Some w
       /\ w == 1 # 2.
Proof.
  assert (In Peakify [Sinify; Peakify]) as Hk by (simpl; auto).
  assert (in_range (1 # 2)) as H by (split; unfold Qle; simpl; lia).
  split; [exact Hk |]. split; [reflexivity |]. split; [exact H |].
  apply (first_sample_is_kept sine_reference random_reference
           sine_reference_zero Peakify [1 # 2; 1 # 4] 20 0 3 (1 # 2) Hk eq_refl H).
Defined.

Lemma saw_is_a_ramp_witness :
  webaudio (ready_square 440) = VContext 44100 /\ 0 < 440 /\ 440 <= 44100
  /\ division_reference 44100 440 < length_limit
  /\ exists r st' b,
       audioBuffer sine_reference random_reference division_reference 440 "saw"
         (ready_square 440) = Ok r st'
       /\ heap st' !! r = Some b
       /\ length (channel b) = Z.to_nat (Qfloor (division_reference 44100 440))
       /\ (exists v, channel b !! 0%nat = Some v /\ v == 1)
       /\ forall i, (i < length (channel b))%nat ->
            exists v, channel b !! i = Some v
                      /\ v == 1 - 2 * of_nat i / division_reference 44100 440
                      /\ in_range v.
Proof.
  assert (webaudio (ready_square 440) = VContext 44100) as Hw by reflexivity.
  assert (0 < 440) as Hf by reflexivity.
  assert (440 <= 44100) as Hr by (unfold Qle; simpl; lia).
  assert (division_reference 44100 440 < length_limit) as Hl by reflexivity.
  split; [exact Hw |]. split; [exact Hf |]. split; [exact Hr |].
  split; [exact Hl |].
  apply (saw_is_a_ramp sine_reference random_reference division_reference
           division_reference_whole (ready_square 440) 44100 440 Hw Hf Hr Hl).
Defined.

Lemma audioBuffer_refuses_short_period_witness :
  webaudio (ready_square 440) = VContext 44100 /\ 0 < 44100 /\ 44100 < 48000
  /\ audioBuffer sine_reference random_reference division_reference 48000 "sine"
       (ready_square 440)
     = Throw NotSupportedError (ready_square 440).
Proof.
  assert (webaudio (ready_square 440) = VContext 44100) as Hw by reflexivity.
  assert (0 < 44100) as Hr by reflexivity.
  assert (44100 < 48000) as Hf by reflexivity.
  split; [exact Hw |]. split; [exact Hr |]. split; [exact Hf |].
  apply (audioBuffer_refuses_short_period sine_reference random_reference
           division_reference division_reference_fraction
           (ready_square 440) 44100 48000 "sine" Hw Hr Hf).
Defined.

Lemma noise_allocates_twice_witness :
  webaudio (ready_square 440) = VContext 44100 /\ 0 < 440 /\ 440 <= 44100
  /\ 32 * division_reference 44100 440 < length_limit
  /\ exists st' b,
       audioBuffer sine_reference random_reference division_reference 440 "noise"
         (ready_square 440)
         = Ok (S (length (heap (ready_square 440)))) st'
       /\ length (heap st') = (length (heap (ready_square 440)) + 2)%nat
       /\ heap st' !! length (heap (ready_square 440))
          = Some {| sampleRate := 44100;
                    channel := replicate
                                 (Z.to_nat (Qfloor (division_reference 44100 440)))
                                 0 |}
       /\ heap st' !! S (length (heap (ready_square 440))) = Some b
       /\ length (channel b)
          = Z.to_nat (Qfloor (32 * division_reference 44100 440))
       /\ (forall i, (i < length (channel b))%nat ->
             channel b !! i
             = Some (random_reference (draws (ready_square 440) + i)%nat * 2 - 1))
       /\ draws st'
          = (draws (ready_square 440)
             + trips (32 * division_reference 44100 440))%nat.
Proof.
  assert (webaudio (ready_square 440) = VContext 44100) as Hw by reflexivity.
  assert (0 < 440) as Hf by reflexivity.
  assert (440 <= 44100) as Hr by (unfold Qle; simpl; lia).
  assert (32 * division_reference 44100 440 < length_limit) as Hl by reflexivity.
  split; [exact Hw |]. split; [exact Hf |]. split; [exact Hr |].
  split; [exact Hl |].
  apply (noise_allocates_twice sine_reference random_reference division_reference
           division_reference_whole (ready_square 440) 44100 440 Hw Hf Hr Hl).
Defined.

Lemma session_has_one_voice_witness :
  exists h,
    audio (run_events sine_reference random_reference division_reference session
             (ready_square 11025)) = Some h
    /\ sounding (log (run_events sine_reference random_reference division_reference session
                        (ready_square 11025))) [] = [h].
Proof.
  apply (session_has_one_voice sine_reference random_reference division_reference
           sine_reference_range random_reference_range session
           (ready_square 11025) ready_square_sounds ready_square_scheduled).
Defined.

Lemma session_plays_valid_buffer_witness :
  exists r b,
    audio_buffer (run_events sine_reference random_reference division_reference session
                    (ready_square 11025))
      = Ok r (run_events sine_reference random_reference division_reference session
                (ready_square 11025))
    /\ heap (run_events sine_reference random_reference division_reference session
               (ready_square 11025)) !! r = Some b
    /\ channel b <> [] /\ Forall in_range (channel b).
Proof.
  apply (session_plays_valid_buffer sine_reference random_reference
           division_reference
           sine_reference_range random_reference_range session
           (ready_square 11025) ready_square_sounds ready_square_scheduled).
Defined.

Lemma session_arms_one_timer_witness :
  (mutating (run_events sine_reference random_reference division_reference session
               (ready_square 11025)) = None
   /\ timers (run_events sine_reference random_reference division_reference session
                (ready_square 11025)) = [])
  \/ exists id d,
       mutating (run_events sine_reference random_reference division_reference session
                   (ready_square 11025)) = Some (S id)
       /\ timers (run_events sine_reference random_reference division_reference session
                    (ready_square 11025)) = [mutation_timer (S id) d]
       /\ (clock (run_events sine_reference random_reference division_reference session
                    (ready_square 11025)) < d)%nat
       /\ (d <= clock (run_events sine_reference random_reference division_reference session
                         (ready_square 11025)) + 200)%nat.
Proof.
  apply (session_arms_one_timer sine_reference random_reference
           division_reference
           sine_reference_range random_reference_range session
           (ready_square 11025) ready_square_sounds ready_square_scheduled).
Defined.

Lemma init_makes_the_page_sound_witness :
  js_or VUndefined (VConstructor 48000) = VConstructor 48000
  /\ 0 < freq (ui_square 440) /\ freq (ui_square 440) <= 48000
  /\ frames (wavetype (ui_square 440))
       (division_reference 48000 (freq (ui_square 440))) < length_limit
  /\ exists st',
       init sine_reference random_reference division_reference
         (page (ui_square 440) VUndefined (VConstructor 48000)) = Ok tt st'
       /\ sounds st' /\ scheduled st' /\ mutating st' = None
       /\ volume st'
          = Some {| gain := volume_input (ui_square 440); to_destination := true |}
       /\ last (log st') = Some EvSuspend.
Proof.
  assert (0 < freq (ui_square 440)) as Hf by reflexivity.
  assert (freq (ui_square 440) <= 48000) as Hr by (unfold Qle; simpl; lia).
  assert (frames (wavetype (ui_square 440))
            (division_reference 48000 (freq (ui_square 440))) < length_limit)
    as Hl by reflexivity.
  split; [reflexivity |]. split; [exact Hf |]. split; [exact Hr |].
  split; [exact Hl |].
  apply (init_makes_the_page_sound sine_reference random_reference
           division_reference
           sine_reference_range random_reference_range division_reference_whole
           (ui_square 440) VUndefined (VConstructor 48000) 48000 eq_refl Hf Hr Hl).
Defined.

Lemma updateBuffer_replaces_the_sound_witness :
  webaudio (ready_square 11025) = VContext 44100
  /\ 0 < freq (inputs (ready_square 11025))
  /\ freq (inputs (ready_square 11025)) <= 44100
  /\ frames (wavetype (inputs (ready_square 11025)))
       (division_reference 44100 (freq (inputs (ready_square 11025))))
     < length_limit
  /\ exists st' r b h,
       updateBuffer sine_reference random_reference division_reference (ready_square 11025)
         = Ok tt st'
       /\ sounds st' /\ same_page (ready_square 11025) st'
       /\ audio_buffer st' = Ok r st'
       /\ heap (ready_square 11025) !! r = None /\ heap st' !! r = Some b
       /\ audio (ready_square 11025) = Some h
       /\ playstate <$> nodes st' !! h = Some Finished
       /\ last (log st') = Some (EvDraw (channel b)).
Proof.
  assert (webaudio (ready_square 11025) = VContext 44100) as Hw by reflexivity.
  assert (0 < freq (inputs (ready_square 11025))) as Hf by reflexivity.
  assert (freq (inputs (ready_square 11025)) <= 44100) as Hr
    by (unfold Qle; simpl; lia).
  assert (frames (wavetype (inputs (ready_square 11025)))
            (division_reference 44100 (freq (inputs (ready_square 11025))))
          < length_limit) as Hl by reflexivity.
  split; [exact Hw |]. split; [exact Hf |]. split; [exact Hr |].
  split; [exact Hl |].
  apply (updateBuffer_replaces_the_sound sine_reference random_reference
           division_reference
           sine_reference_range random_reference_range division_reference_whole
           (ready_square 11025) 44100 ready_square_sounds Hw Hf Hr Hl).
Defined.

Lemma change_above_sample_rate_is_ignored_witness :
  webaudio (ready_square 11025) = VContext 44100 /\ 0 < 44100 /\ 44100 < 48000
  /\ handle sine_reference random_reference division_reference (ChangeWave 48000 "saw")
       (ready_square 11025)
     = set_inputs {| freq := 48000; wavetype := "saw";
                     mutation := mutation (inputs (ready_square 11025));
                     mutation_amount := mutation_amount (inputs (ready_square 11025));
                     volume_input := volume_input (inputs (ready_square 11025)) |}
         (ready_square 11025).
Proof.
  assert (webaudio (ready_square 11025) = VContext 44100) as Hw by reflexivity.
  assert (0 < 44100) as Hr by reflexivity.
  assert (44100 < 48000) as Hf by reflexivity.
  split; [exact Hw |]. split; [exact Hr |]. split; [exact Hf |].
  apply (change_above_sample_rate_is_ignored sine_reference random_reference
           division_reference division_reference_fraction
           (ready_square 11025) 44100 48000 "saw" Hw Hr Hf).
Defined.

Lemma start_with_unknown_mutation_arms_nothing_witness :
  mutating (ready_with "reverbify" 25) = None
  /\ timers (ready_with "reverbify" 25) = []
  /\ mutations_member (mutation (inputs (ready_with "reverbify" 25))) = NotCallable
  /\ exists zeros,
       mutating (click_mutate sine_reference random_reference
                   (ready_with "reverbify" 25)) = None
       /\ timers (click_mutate sine_reference random_reference
                    (ready_with "reverbify" 25)) = []
       /\ heap (click_mutate sine_reference random_reference
                  (ready_with "reverbify" 25))
          = heap (ready_with "reverbify" 25) ++ [zeros]
       /\ Forall (fun v => v = 0) (channel zeros)
       /\ log (click_mutate sine_reference random_reference
                 (ready_with "reverbify" 25))
          = log (ready_with "reverbify" 25)
            ++ [EvMutate;
                EvCreateBuffer (length (heap (ready_with "reverbify" 25)))
                  (length (channel zeros))]
       /\ audio (click_mutate sine_reference random_reference
                   (ready_with "reverbify" 25))
          = audio (ready_with "reverbify" 25)
       /\ nodes (click_mutate sine_reference random_reference
                   (ready_with "reverbify" 25))
          = nodes (ready_with "reverbify" 25).
Proof.
  split; [reflexivity |]. split; [reflexivity |]. split; [reflexivity |].
  apply (start_with_unknown_mutation_arms_nothing sine_reference random_reference
           (ready_with "reverbify" 25)
           (set_inputs_sounds _ _ ready_square_sounds) eq_refl eq_refl eq_refl).
Defined.

Lemma start_with_inherited_name_runs_the_cycle_witness :
  mutating (ready_with "toString" 25) = None
  /\ timers (ready_with "toString" 25) = []
  /\ playing (ready_with "toString" 25) = Some [1; 1; -1; -1]
  /\ mutations_member (mutation (inputs (ready_with "toString" 25))) = Inherited
  /\ mutating (click_mutate sine_reference random_reference
                 (ready_with "toString" 25))
     = Some (S (timer_count (ready_with "toString" 25)))
  /\ timers (click_mutate sine_reference random_reference
               (ready_with "toString" 25))
     = [mutation_timer (S (timer_count (ready_with "toString" 25)))
          (clock (ready_with "toString" 25) + 200)]
  /\ audio (click_mutate sine_reference random_reference
               (ready_with "toString" 25))
     <> audio (ready_with "toString" 25)
  /\ playing (click_mutate sine_reference random_reference
                 (ready_with "toString" 25)) = Some [1; 1; -1; -1]
  /\ length (heap (click_mutate sine_reference random_reference
                      (ready_with "toString" 25)))
     = S (length (heap (ready_with "toString" 25)))
  /\ cycles (click_mutate sine_reference random_reference
                (ready_with "toString" 25))
     = S (cycles (ready_with "toString" 25))
  /\ last (log (click_mutate sine_reference random_reference
                   (ready_with "toString" 25)))
     = Some (EvText "#mutate" "STOP").
Proof.
  assert (playing (ready_with "toString" 25) = Some [1; 1; -1; -1]) as Hp
    by (vm_compute; reflexivity).
  split; [reflexivity |]. split; [reflexivity |]. split; [exact Hp |].
  split; [reflexivity |].
  apply (start_with_inherited_name_runs_the_cycle sine_reference random_reference
           (ready_with "toString" 25) [1; 1; -1; -1]
           (set_inputs_sounds _ _ ready_square_sounds) eq_refl eq_refl Hp eq_refl).
Defined.

Lemma mutation_keeps_the_pitch_witness :
  forallb keeps_wave mutation_session = true
  /\ length <$> playing (run_events sine_reference random_reference division_reference
                           mutation_session (ready_square 11025))
     = length <$> playing (ready_square 11025).
Proof.
  split; [reflexivity |].
  apply (mutation_keeps_the_pitch sine_reference random_reference
           division_reference
           sine_reference_range random_reference_range mutation_session
           (ready_square 11025) ready_square_sounds ready_square_scheduled
           eq_refl).
Defined.

Lemma centred_slider_cycle_keeps_the_samples_witness :
  playing (ready_with "nullify" 20) = Some [1; 1; -1; -1]
  /\ mutation_named (mutation (inputs (ready_with "nullify" 20))) = Some Nullify
  /\ In Nullify amount_scaled
  /\ mutation_amount (inputs (ready_with "nullify" 20)) = 20
  /\ exists st' data',
       mutateBuffer sine_reference random_reference (ready_with "nullify" 20)
         = Ok tt st'
       /\ audio st' <> audio (ready_with "nullify" 20)
       /\ playing st' = Some data'
       /\ Forall2 Qeq data' [1; 1; -1; -1].
Proof.
  assert (playing (ready_with "nullify" 20) = Some [1; 1; -1; -1]) as Hp
    by (vm_compute; reflexivity).
  assert (In Nullify amount_scaled) as Hk by (simpl; auto).
  split; [exact Hp |]. split; [reflexivity |]. split; [exact Hk |].
  split; [reflexivity |].
  apply (centred_slider_cycle_keeps_the_samples sine_reference random_reference
           (ready_with "nullify" 20) Nullify [1; 1; -1; -1]
           (set_inputs_sounds _ _ ready_square_sounds) Hp eq_refl Hk eq_refl).
Defined.

Lemma drawBuffer_stays_on_canvas_witness :
  Forall in_range [1; -1; 1 # 2] /\ 0 < 300 /\ 0 <= 150
  /\ length (drawBuffer_path [1; -1; 1 # 2] 300 150) = S (length [1; -1; 1 # 2])
  /\ head (drawBuffer_path [1; -1; 1 # 2] 300 150) = Some (0, 150 / 2)
  /\ Forall (fun p => 0 <= p.1 /\ p.1 < 300 /\ 0 <= p.2 /\ p.2 <= 150)
       (drawBuffer_path [1; -1; 1 # 2] 300 150).
Proof.
  assert (Forall in_range [1; -1; 1 # 2]) as H
    by (repeat constructor; unfold Qle; simpl; lia).
  assert (0 < 300) as Hw by reflexivity.
  assert (0 <= 150) as Hh by (unfold Qle; simpl; lia).
  split; [exact H |]. split; [exact Hw |]. split; [exact Hh |].
  apply (drawBuffer_stays_on_canvas [1; -1; 1 # 2] 300 150 H Hw Hh).
Defined.

